(** * spconv: the SparseConvTensor value object and its dense conversions

    A shallow embedding of [spconv/__init__.py]: [scatter_nd], the class
    [SparseConvTensor] ([to_sparse_dim], [from_dense], [spatial_size],
    [find_indice_pair], [dense], [sparity]) and the modules [ToDense] and
    [RemoveGrid].

    Modelling conventions.
    - A tensor is its shape together with its entries in row-major order.
      Entries of feature tensors are modelled as exact numbers (integers):
      the code only moves them around and compares them with zero.
    - Integer tensors keep their fixed width where the code converts:
      [.int()] wraps to 32 bits, [.long()] and numpy's integer reductions
      wrap to 64 bits.
    - Floats are binary64 numbers, with the kernel's primitive operations.
    - A Python exception is the result [None].
    - Devices ([.cuda()], [.to(device)]) and memory exhaustion are not
      modelled. *)

From stdpp Require Import gmap strings list.
From Stdlib Require Import ZArith Lia.
From Stdlib Require PrimFloat SpecFloat FloatOps.

Local Open Scope Z_scope.

(** ** Fixed-width integers *)

(** [z] wrapped around to a signed integer of [w] bits. *)
Definition wrap (w : Z) (z : Z) : Z :=
  (z + 2 ^ (w - 1)) mod 2 ^ w - 2 ^ (w - 1).

(** [tensor.int()] on an integer tensor. *)
Definition to_int32 (z : Z) : Z := wrap 32 z.

(** [tensor.long()] on an integer tensor. *)
Definition to_int64 (z : Z) : Z := wrap 64 z.

(** ** Tensors *)

Record Tensor := mkTensor { tshape : list Z; tdata : list Z }.

(** Number of entries of a tensor of the given shape. *)
Definition numel (shape : list Z) : Z := foldr Z.mul 1 shape.

(** A size is a non-negative 64-bit integer. *)
Definition valid_size (d : Z) : bool := (0 <=? d) && (d <? 2 ^ 63).

(** Row-major strides of a shape. *)
Fixpoint strides (shape : list Z) : list Z :=
  match shape with
  | [] => []
  | _ :: ds => numel ds :: strides ds
  end.

(** Flat offset of a multi-index, given the strides. *)
Fixpoint dot (idx st : list Z) : Z :=
  match idx, st with
  | i :: idx', s :: st' => i * s + dot idx' st'
  | _, _ => 0
  end.

Definition ravel (shape idx : list Z) : Z := dot idx (strides shape).

(** Multi-index of a flat offset. *)
Fixpoint unravel (shape : list Z) (j : Z) : list Z :=
  match shape with
  | [] => []
  | _ :: ds => j / numel ds :: unravel ds (j mod numel ds)
  end.

(** A multi-index addresses an entry when every component is within its
    dimension. *)
Definition in_bounds (shape idx : list Z) : Prop :=
  Forall2 (fun d i => 0 <= i < d) shape idx.

Global Instance in_bounds_dec shape idx : Decision (in_bounds shape idx).
Proof. unfold in_bounds. apply _. Defined.

(** [t[idx]] for a full in-range multi-index. *)
Definition tget (t : Tensor) (idx : list Z) : Z :=
  nth (Z.to_nat (ravel (tshape t) idx)) (tdata t) 0.

(** [torch.zeros] of a shape. *)
Definition torch_zeros (shape : list Z) : option Tensor :=
  if forallb valid_size shape
  then Some (mkTensor shape (replicate (Z.to_nat (numel shape)) 0))
  else None.

(** [t.view] with explicit sizes. *)
Definition view (t : Tensor) (shape : list Z) : option Tensor :=
  if numel shape =? Z.of_nat (length (tdata t))
  then Some (mkTensor shape (tdata t))
  else None.

(** [t.view(-1, n)]: the rows of the flattened two-dimensional view. *)
Fixpoint chunks (n : nat) (count : nat) (l : list Z) : list (list Z) :=
  match count with
  | O => []
  | S c => take n l :: chunks n c (drop n l)
  end.

Definition view_rows (t : Tensor) (n : Z) : option (list (list Z)) :=
  if (0 <? n) && (Z.of_nat (length (tdata t)) mod n =? 0)
  then Some (chunks (Z.to_nat n) (Z.to_nat (Z.of_nat (length (tdata t)) / n))
               (tdata t))
  else None.

(** The rows of a two-dimensional tensor. *)
Definition trows (t : Tensor) : list (list Z) :=
  match tshape t with
  | [n; c] => chunks (Z.to_nat c) (Z.to_nat n) (tdata t)
  | _ => []
  end.

(** A Python index into a dimension of size [d]: negative indices count
    from the end, anything outside [-d, d) raises. *)
Definition normalize_index (d i : Z) : option Z :=
  if (0 <=? i) && (i <? d) then Some i
  else if (- d <=? i) && (i <? 0) then Some (i + d)
  else None.

Fixpoint normalize_indices (shape idx : list Z) {struct idx}
    : option (list Z) :=
  match idx, shape with
  | [], _ => Some []
  | i :: idx', d :: shape' =>
      i' ← normalize_index d i;
      rest ← normalize_indices shape' idx';
      Some (i' :: rest)
  | _ :: _, [] => None
  end.

(** [ret[slices + [Ellipsis]] = value], where [slices] are index vectors of
    one common length [n] and [value] has shape [[n] + ret.shape[ndim:]].
    The assignment is defined when no two rows address the same position.
    When rows coincide the host framework leaves open which of them is
    kept, and may mix them; the rows are written here one after the other,
    and nothing stated about the content of the result relies on that
    order: every such statement assumes rows that address different
    positions. *)
Definition put_row (inner : nat) (value : list Z) (data : list Z)
    (w : nat * nat) : list Z :=
  list_inserts (w.2 * inner) (take inner (drop (w.1 * inner) value)) data.

Definition index_put (ret : Tensor) (slices : list (list Z)) (n : nat)
    (value : Tensor) : option Tensor :=
  let ndim := length slices in
  let inner := Z.to_nat (numel (drop ndim (tshape ret))) in
  guard (ndim <= length (tshape ret))%nat;;
  offs ← mapM (fun j =>
                 idx ← normalize_indices (tshape ret)
                         (map (fun s => nth j s 0) slices);
                 Some (Z.to_nat (ravel (take ndim (tshape ret)) idx)))
              (seq 0 n);
  Some (mkTensor (tshape ret)
          (foldl (put_row inner (tdata value)) (tdata ret)
                 (zip (seq 0 n) offs))).

(** [scatter_nd(indices, updates, shape)]. *)
Definition scatter_nd (indices updates : Tensor) (shape : list Z)
    : option Tensor :=
  ret ← torch_zeros shape;
  ndim ← last (tshape indices);
  let output_shape :=
    removelast (tshape indices) ++ drop (Z.to_nat ndim) shape in
  flatted_indices ← view_rows indices ndim;
  let slices :=
    map (fun i => map (fun r => nth i r 0) flatted_indices)
        (seq 0 (Z.to_nat ndim)) in
  value ← view updates output_shape;
  index_put ret slices (length flatted_indices) value.

(** [t.permute(dims).contiguous()]. *)
Definition is_permutation (dims : list nat) (n : nat) : bool :=
  bool_decide (Permutation dims (seq 0 n)).

Definition permute (t : Tensor) (dims : list nat) : option Tensor :=
  if is_permutation dims (length (tshape t)) then
    let shape' := map (fun a => nth a (tshape t) 0) dims in
    let strides' := map (fun a => nth a (strides (tshape t)) 0) dims in
    Some (mkTensor shape'
            (map (fun j => nth (Z.to_nat (dot (unravel shape' j) strides'))
                             (tdata t) 0)
                 (seqZ 0 (numel shape'))))
  else None.

(** ** Sparse (COO) tensors of the host framework *)

(** The nonzero entries of a row-major data list with their flat offsets,
    in increasing offset order. *)
Fixpoint nonzero_from (j : Z) (l : list Z) : list (Z * Z) :=
  match l with
  | [] => []
  | v :: l' =>
      if v =? 0 then nonzero_from (j + 1) l'
      else (j, v) :: nonzero_from (j + 1) l'
  end.

(** [x.to_sparse()]: one (multi-index, value) pair per nonzero entry.  The
    multi-indices are the columns of the [ndim, nnz] matrix [.indices()];
    the second components are [.values()]. *)
Definition to_sparse (x : Tensor) : list (list Z * Z) :=
  map (fun '(j, v) => (unravel (tshape x) j, v)) (nonzero_from 0 (tdata x)).

(** [m.unique_consecutive(dim=1, return_counts=True)] on the columns of a
    matrix: each run of equal adjacent columns with its length. *)
Fixpoint unique_consecutive (cols : list (list Z)) : list (list Z * nat) :=
  match cols with
  | [] => []
  | a :: cols' =>
      match unique_consecutive cols' with
      | (b, n) :: r =>
          if decide (a = b) then (b, S n) :: r else (a, 1%nat) :: (b, n) :: r
      | [] => [(a, 1%nat)]
      end
  end.

(** [torch.sparse.FloatTensor(idx, vals, Size([n, c])).to_dense()]: the
    indices must lie within the size; entries with equal indices add up. *)
Definition add_entry (c : Z) (data : list Z) (e : Z * Z * Z) : list Z :=
  alter (Z.add e.2) (Z.to_nat (e.1.1 * c + e.1.2)) data.

Definition sparse_to_dense (idx : list (Z * Z)) (vals : list Z) (n c : Z)
    : option Tensor :=
  if forallb (fun '(i, j) => (0 <=? i) && (i <? n) && (0 <=? j) && (j <? c)) idx
  then Some (mkTensor [n; c]
               (foldl (add_entry c) (replicate (Z.to_nat (n * c)) 0)
                      (zip idx vals)))
  else None.

(** ** Channel-last dense inputs *)

(** A channel-last dense tensor has a batch dimension and a channel
    dimension, possibly with spatial dimensions in between; as for every
    tensor of the host framework, its sizes and its number of entries are
    non-negative 64-bit integers. *)
Definition dense_input (x : Tensor) : Prop :=
  (2 <= length (tshape x))%nat /\
  forallb valid_size (tshape x) = true /\
  Z.of_nat (length (tdata x)) = numel (tshape x) /\
  numel (tshape x) < 2 ^ 63.

(** The extents of the batch and spatial dimensions. *)
Definition lead_shape (x : Tensor) : list Z := removelast (tshape x).

(** The feature vector stored at the [i]-th position, positions being
    counted in row-major order. *)
Definition feature_row (x : Tensor) (i : nat) : list Z :=
  let c := Z.to_nat (List.last (tshape x) 0) in
  take c (drop (i * c) (tdata x)).

(** The feature vector at a position given by its coordinates, when these
    are in range. *)
Definition feature_at (x : Tensor) (pos : list Z) : option (list Z) :=
  guard (in_bounds (lead_shape x) pos);;
  Some (feature_row x (Z.to_nat (ravel (lead_shape x) pos))).

(** A feature vector with a nonzero entry. *)
Definition is_active (v : list Z) : bool := existsb (fun e => negb (e =? 0)) v.

(** The positions of [x] that hold a nonzero entry, in row-major order. *)
Definition active_positions (x : Tensor) : list nat :=
  filter (fun i => is_active (feature_row x i) = true)
         (seq 0 (Z.to_nat (numel (lead_shape x)))).

(** ** SparseConvTensor *)

Section SparseConvTensor.

(** The type of the rulebooks kept in [indice_dict]; they are built by the
    native library and opaque here. *)
Context {RB : Type}.

Record SparseConvTensor := mkSparseConvTensor {
  features : Tensor;
  indices : Tensor;
  spatial_shape : list Z;
  batch_size : Z;
  indice_dict : gmap string RB;
  grid : option Tensor
}.

(** [SparseConvTensor.__init__]. *)
Definition init (features indices : Tensor) (spatial_shape : list Z)
    (batch_size : Z) (grid : option Tensor) : SparseConvTensor :=
  mkSparseConvTensor features indices spatial_shape batch_size ∅ grid.

(** [SparseConvTensor.to_sparse_dim]: the feature rows and the coordinates
    (one column per active site) of the positions of [x] that hold a
    nonzero entry.  [tmp] and [last_indice] are the two rows of the index
    matrix of the sparse tensor that is densified into [all_values]; they
    are zipped into (row, channel) pairs.  [unique_consecutive] rejects a
    matrix [all_indices] without rows, which is what a tensor with fewer
    than two dimensions gives. *)
Definition to_sparse_dim (x : Tensor) : option (Tensor * list (list Z)) :=
  let all_sparse := to_sparse x in
  let all_indices := map (fun e => removelast (fst e)) all_sparse in
  last_indice ← mapM (fun e => last (fst e)) all_sparse;
  guard (2 <= length (tshape x))%nat;;
  let uniq := unique_consecutive all_indices in
  let unique_indices := map fst uniq in
  let labels_count := map snd uniq in
  let tmp := concat (imap (fun i c => replicate c (Z.of_nat i)) labels_count) in
  c ← last (tshape x);
  all_values ← sparse_to_dense (zip tmp last_indice) (map snd all_sparse)
                  (Z.of_nat (length unique_indices)) c;
  Some (all_values, unique_indices).

(** [SparseConvTensor.from_dense].  The hybrid conversion
    [x.to_sparse(x.ndim - 1)] only rebinds [x], which is not read again; the
    host framework rejects it when [x] has a single dimension. *)
Definition from_dense (x : Tensor) : option SparseConvTensor :=
  let spatial_shape := removelast (tail (tshape x)) in
  batch_size ← head (tshape x);
  '(new_values, new_indices) ← to_sparse_dim x;
  guard (length (tshape x) ≠ 1%nat);;
  let new_indices_th :=
    mkTensor [Z.of_nat (length new_indices); Z.of_nat (length (tshape x)) - 1]
             (concat (map (map to_int32) new_indices)) in
  Some (init new_values new_indices_th spatial_shape batch_size None).

(** [np.prod] of a list of integers: a 64-bit reduction.  This is what
    numpy does with a list of signed 64-bit integers, as the extents of a
    tensor are, where its default integer has 64 bits; the statements about
    it assume such a list. *)
Definition np_prod (l : list Z) : Z :=
  foldl (fun acc d => to_int64 (acc * d)) 1 l.

(** [SparseConvTensor.spatial_size]. *)
Definition spatial_size (self : SparseConvTensor) : Z :=
  np_prod (spatial_shape self).

(** [SparseConvTensor.find_indice_pair]: the value returned together with
    the receiver after the call. *)
Definition find_indice_pair (self : SparseConvTensor) (key : option string)
    : option RB * SparseConvTensor :=
  match key with
  | None => (None, self)
  | Some k =>
      if decide (k ∈ dom (indice_dict self))
      then (indice_dict self !! k, self)
      else (None, self)
  end.

(** The shapes the constructor's docstring asks for: [n] feature rows of
    [c] channels, [n] coordinate rows of one batch index and one index per
    spatial dimension, all sizes being sizes. *)
Definition sparse_wf (self : SparseConvTensor) (n c : Z) : Prop :=
  tshape (features self) = [n; c] /\
  Z.of_nat (length (tdata (features self))) = n * c /\
  tshape (indices self) = [n; Z.of_nat (length (spatial_shape self)) + 1] /\
  Z.of_nat (length (tdata (indices self)))
    = n * (Z.of_nat (length (spatial_shape self)) + 1) /\
  forallb valid_size (n :: c :: batch_size self :: spatial_shape self) = true.

(** The coordinate rows of the active sites. *)
Definition coords (self : SparseConvTensor) : list (list Z) :=
  trows (indices self).

Definition coords_in_bounds (self : SparseConvTensor) : Prop :=
  Forall (in_bounds (batch_size self :: spatial_shape self)) (coords self).

(** The binary64 number nearest to an integer, ties to even: the
    conversion of a 64-bit integer to a float. *)
Definition Z2float (z : Z) : PrimFloat.float :=
  FloatOps.SF2Prim (SpecFloat.binary_normalize 53 1024 z 0 false).

(** Python's conversion of an integer of any size to a float: the nearest
    binary64 number, and an OverflowError when that is beyond the largest
    one, which is from [2 ^ 1024 - 2 ^ 970] on. *)
Definition float_of_int (z : Z) : option PrimFloat.float :=
  if Z.abs z <? 2 ^ 1024 - 2 ^ 970 then Some (Z2float z) else None.

(** [SparseConvTensor.sparity]: [shape[0]] and the 64-bit product are
    converted to floats and divided, and the quotient is divided by
    [batch_size], a Python integer; a division by zero gives an infinity or
    a NaN, not an exception. *)
Definition sparity (self : SparseConvTensor) : option PrimFloat.float :=
  n ← head (tshape (indices self));
  let ratio :=
    PrimFloat.div (Z2float n) (Z2float (np_prod (spatial_shape self))) in
  b ← float_of_int (batch_size self);
  Some (PrimFloat.div ratio b).

(** [SparseConvTensor.dense].  [trans_params] is [list(range(0, ndim + 1))]
    after [insert(1, ndim + 1)]. *)
Definition dense (self : SparseConvTensor) (channels_first : bool)
    : option Tensor :=
  c ← tshape (features self) !! 1%nat;
  let output_shape := [batch_size self] ++ spatial_shape self ++ [c] in
  res ← scatter_nd
          (mkTensor (tshape (indices self)) (map to_int64 (tdata (indices self))))
          (features self) output_shape;
  if negb channels_first then Some res
  else
    let ndim := length (spatial_shape self) in
    let trans_params := seq 0 (ndim + 1) in
    let trans_params := take 1 trans_params ++ [(ndim + 1)%nat] ++ drop 1 trans_params in
    permute res trans_params.

(** [ToDense.forward]. *)
Definition ToDense_forward (x : SparseConvTensor) : option Tensor :=
  dense x true.

Definition set_grid (t : SparseConvTensor) (g : option Tensor)
    : SparseConvTensor :=
  mkSparseConvTensor (features t) (indices t) (spatial_shape t)
    (batch_size t) (indice_dict t) g.

(** [RemoveGrid.forward].  Objects live in a store and are passed by
    reference: [forward] receives the address [x] of its argument and
    returns a reference together with the store after the call.  [None]
    stands for a dangling reference, which Python rules out. *)
Definition RemoveGrid_forward (h : gmap nat SparseConvTensor) (x : nat)
    : option (nat * gmap nat SparseConvTensor) :=
  t ← h !! x;
  Some (x, <[x := set_grid t None]> h).

End SparseConvTensor.

Arguments SparseConvTensor : clear implicits.

(** ** Concrete tensors *)

(** Two sites in a 2 by 2 grid, two channels. *)
Definition two_sites : SparseConvTensor unit :=
  init (mkTensor [2; 2] [1; 2; 3; 4]) (mkTensor [2; 3] [0; 0; 1; 0; 1; 0])
       [2; 2] 1 None.

(** The same coordinate row twice, with different features. *)
Definition repeated_site : SparseConvTensor unit :=
  init (mkTensor [2; 2] [1; 2; 3; 4]) (mkTensor [2; 3] [0; 0; 1; 0; 0; 1])
       [2; 2] 1 None.

(** A 2 by 2 image with two channels; two of its four pixels are zero. *)
Definition small_image : Tensor :=
  mkTensor [1; 2; 2; 2] [0; 0; 1; 2; 0; 4; 0; 0].

(** One row of two single-channel pixels, the first of them zero. *)
Definition zero_then_five : Tensor := mkTensor [1; 2; 1] [0; 5].

(** One row of [2 ^ 31 + 1] single-channel pixels, all zero but the last;
    [wide_tensor n] has [n] zeros before the one. *)
Definition wide_tensor (n : nat) : Tensor :=
  mkTensor [1; 2 ^ 31 + 1; 1] (replicate n 0 ++ [1]).

Definition wide_input : Tensor := wide_tensor (Z.to_nat (2 ^ 31)).

(** One site with feature [v] at coordinate [- m] of a row of extent
    [m + 1]. *)
Definition negative_site (m v : Z) : SparseConvTensor unit :=
  init (mkTensor [1; 1] [v]) (mkTensor [1; 2] [0; - m]) [m + 1] 1 None.

(** A grid of [2 ^ 21] voxels along each of three axes. *)
Definition huge_grid : SparseConvTensor unit :=
  init (mkTensor [1; 1] [7]) (mkTensor [1; 4] [0; 0; 0; 0])
       [2 ^ 21; 2 ^ 21; 2 ^ 21] 1 None.

(** ** The remaining modules, and notions used to state properties *)

(** The values of a 64-bit and of a 32-bit integer tensor. *)
Definition int64 (z : Z) : Prop := - 2 ^ 63 <= z < 2 ^ 63.
Definition int32 (z : Z) : Prop := - 2 ^ 31 <= z < 2 ^ 31.

(** The indices Python accepts for a dimension of size [d], and the entry
    each of them addresses. *)
Definition python_index (d i : Z) : Prop := - d <= i < d.

Definition wrap_index (d i : Z) : Z := if i <? 0 then i + d else i.

(** The index vectors, one per dimension, that [scatter_nd] slices out of
    the rows of the index matrix. *)
Definition slices_of (ndim : nat) (rows : list (list Z)) : list (list Z) :=
  map (fun i => map (fun r => nth i r 0) rows) (seq 0 ndim).

(** A strictly increasing list of positions. *)
Fixpoint increasing (l : list nat) : Prop :=
  match l with
  | [] => True
  | a :: l' => Forall (fun b => (a < b)%nat) l' /\ increasing l'
  end.

(** Every coordinate of every position that holds a nonzero entry is
    below [2 ^ 31], whatever the extents of the tensor. *)
Definition active_coords_fit (x : Tensor) : Prop :=
  Forall (fun i => Forall (fun v => v < 2 ^ 31)
                     (unravel (lead_shape x) (Z.of_nat i)))
         (active_positions x).

(** What [print] writes: one line per call, a line being the printed
    arguments.  The text of a tensor or of its type is not modelled; the
    argument itself is kept. *)
Inductive printed :=
  | PStr (s : string)
  | PTypeOf (x : Tensor)
  | PTensor (x : Tensor).

Section Modules.
Context {RB : Type}.
Implicit Types (self : SparseConvTensor RB).

(** [ToSparse.forward]. *)
Definition ToSparse_forward (x : Tensor) : option (SparseConvTensor RB) :=
  from_dense x.

(** [ToSparseFunction.forward] and [ToSparseFunction.backward], with the
    lines printed so far passed along; [ctx] is not used by either.  The
    line is printed before the conversion runs, so it is there also when
    the conversion raises. *)
Definition ToSparseFunction_forward (input : Tensor)
    (stdout : list (list printed))
    : list (list printed) * option (SparseConvTensor RB) :=
  (stdout ++ [[PStr "-------To Sparse forward"; PTypeOf input; PTensor input]],
   from_dense input).

Definition ToSparseFunction_backward (output : SparseConvTensor RB)
    (stdout : list (list printed))
    : list (list printed)
      * option (Tensor * option Tensor * option Tensor * option Tensor) :=
  (stdout ++ [[PStr "-------To Sparse backward"]],
   r ← dense output true; Some (r, None, None, None)).

(** Every entry of [indices] is a 64-bit integer. *)
Definition coords_int64 self : Prop := Forall (Forall int64) (coords self).

(** Every coordinate is an index Python accepts for its dimension. *)
Definition coords_python_range self : Prop :=
  Forall (Forall2 python_index (batch_size self :: spatial_shape self))
         (coords self).

(** The same tensor with every negative coordinate replaced by the
    non-negative one that addresses the same entry. *)
Definition normalize_coords self : SparseConvTensor RB :=
  mkSparseConvTensor (features self)
    (mkTensor (tshape (indices self))
       (concat (map (zip_with wrap_index (batch_size self :: spatial_shape self))
                    (coords self))))
    (spatial_shape self) (batch_size self) (indice_dict self) (grid self).

(** The same tensor with its sites listed in another order: site [i] of
    the result is site [order !! i] of [self]. *)
Definition reorder_sites self (order : list nat) : SparseConvTensor RB :=
  mkSparseConvTensor
    (mkTensor (tshape (features self))
       (concat (omap (fun i => trows (features self) !! i) order)))
    (mkTensor (tshape (indices self))
       (concat (omap (fun i => coords self !! i) order)))
    (spatial_shape self) (batch_size self) (indice_dict self) (grid self).

(** The sites are listed in strictly increasing row-major order of their
    coordinates. *)
Definition row_major_sorted self : Prop :=
  forall (i j : nat) p q,
    (i < j)%nat -> coords self !! i = Some p -> coords self !! j = Some q ->
    ravel (batch_size self :: spatial_shape self) p
    < ravel (batch_size self :: spatial_shape self) q.

(** No stored feature row is all zero. *)
Definition rows_active self : Prop :=
  Forall (fun row => is_active row = true) (trows (features self)).

End Modules.

(** ** More concrete tensors *)

(** A 2 by 2 grid without sites. *)
Definition no_sites : SparseConvTensor unit :=
  init (mkTensor [0; 2] []) (mkTensor [0; 3] []) [2; 2] 1 None.

(** Two feature rows for a single coordinate row. *)
Definition mismatched_rows : SparseConvTensor unit :=
  init (mkTensor [2; 2] [1; 2; 3; 4]) (mkTensor [1; 3] [0; 0; 1]) [2; 2] 1 None.

(** A negative batch size. *)
Definition negative_batch : SparseConvTensor unit :=
  init (mkTensor [0; 1] []) (mkTensor [0; 2] []) [2] (-1) None.

(** One row of two single-channel pixels, both nonzero. *)
Definition full_row : Tensor := mkTensor [1; 2; 1] [3; 5].

(** [two_sites] with a pre-allocated grid. *)
Definition two_sites_with_grid : SparseConvTensor unit :=
  set_grid two_sites (Some (mkTensor [2; 2] [0; 0; 0; 0])).

(** One row of [2 ^ 31 + 1] single-channel pixels, all zero but the first;
    [wide_low_tensor n] has [n] zeros after the one. *)
Definition wide_low_tensor (n : nat) : Tensor :=
  mkTensor [1; 2 ^ 31 + 1; 1] (1 :: replicate n 0).

Definition wide_low_input : Tensor := wide_low_tensor (Z.to_nat (2 ^ 31)).

(** A tensor with a single dimension. *)
Definition one_dimension : Tensor := mkTensor [3] [0; 1; 2].

(** One site in a row of three positions. *)
Definition one_in_three : SparseConvTensor unit :=
  init (mkTensor [1; 1] [7]) (mkTensor [1; 2] [0; 0]) [3] 1 None.

(** The same with a batch size beyond the range of floats. *)
Definition huge_batch : SparseConvTensor unit :=
  init (mkTensor [1; 1] [7]) (mkTensor [1; 2] [0; 0]) [3] (10 ^ 400) None.

(** The same with a batch size of zero. *)
Definition zero_batch : SparseConvTensor unit :=
  init (mkTensor [1; 1] [7]) (mkTensor [1; 2] [0; 0]) [3] 0 None.

(** ** Fixed-width arithmetic *)

Lemma wrap_small w z :
  0 < w -> - 2 ^ (w - 1) <= z < 2 ^ (w - 1) -> wrap w z = z.
Proof.
  intros Hw Hz. unfold wrap.
  assert (Hp : 2 ^ w = 2 * 2 ^ (w - 1)).
  { rewrite <- Z.pow_succ_r by lia. f_equal. lia. }
  rewrite Z.mod_small; lia.
Qed.

Lemma to_int64_small z : - 2 ^ 63 <= z < 2 ^ 63 -> to_int64 z = z.
Proof. intros. apply wrap_small; [lia | exact H]. Qed.

Lemma to_int32_small z : - 2 ^ 31 <= z < 2 ^ 31 -> to_int32 z = z.
Proof. intros. apply wrap_small; [lia | exact H]. Qed.

Lemma wrap_mul_l w a d : wrap w (wrap w a * d) = wrap w (a * d).
Proof.
  unfold wrap. f_equal.
  set (M := 2 ^ w). set (H := 2 ^ (w - 1)).
  destruct (decide (M = 0)) as [->|HM].
  { rewrite !Z.mod_0_r. lia. }
  rewrite (Z.mod_eq (a + H) M) by done.
  replace ((a + H - M * ((a + H) / M) - H) * d + H)
    with (a * d + H + (- ((a + H) / M) * d) * M) by lia.
  apply Z_mod_plus_full.
Qed.

Section Properties.
Context {RB : Type}.
Implicit Types (t self : SparseConvTensor RB).
Implicit Types (h : gmap nat (SparseConvTensor RB)).

Lemma np_prod_from a l :
  foldl (fun acc d => to_int64 (acc * d)) (to_int64 a) l = to_int64 (a * numel l).
Proof.
  revert a. induction l as [|d l IH]; intros a; simpl.
  - f_equal. lia.
  - unfold to_int64 at 2. rewrite wrap_mul_l. fold (to_int64 (a * d)).
    rewrite IH. f_equal. lia.
Qed.

Lemma np_prod_numel l : np_prod l = to_int64 (numel l).
Proof.
  unfold np_prod. change 1 with (to_int64 1) at 1.
  rewrite np_prod_from. f_equal. lia.
Qed.

(** C8, as amended: when the entries of [spatial_shape] are 64-bit
    integers whose product is representable as a signed 64-bit integer,
    [spatial_size] is that product, and [sparity] is the number of
    coordinate rows divided by it and then by [batch_size], each division
    done in binary64 floating point on the operands converted to floats (a
    [batch_size] too large to convert raises). *)
Theorem spatial_size_sparity_in_range t :
  Forall int64 (spatial_shape t) ->
  - 2 ^ 63 <= numel (spatial_shape t) < 2 ^ 63 ->
  spatial_size t = numel (spatial_shape t) /\
  (forall n, head (tshape (indices t)) = Some n -> int64 n ->
     sparity t =
       (b ← float_of_int (batch_size t);
        Some (PrimFloat.div
                (PrimFloat.div (Z2float n) (Z2float (numel (spatial_shape t))))
                b))).
Proof.
  intros _ Hr.
  assert (Hp : np_prod (spatial_shape t) = numel (spatial_shape t)).
  { rewrite np_prod_numel. by apply to_int64_small. }
  split; [exact Hp|].
  intros n Hn _. unfold sparity. rewrite Hn, Hp. reflexivity.
Qed.

(** C6: [find_indice_pair] returns the rulebook stored under [key], or
    nothing when [key] is [None] or absent, and leaves the tensor, hence its
    cache, as it was; on a freshly constructed tensor every lookup returns
    nothing. *)
Theorem find_indice_pair_lookup self (key : option string) :
  find_indice_pair self key = (k ← key; indice_dict self !! k, self) /\
  (forall f i s b g,
     find_indice_pair (@init RB f i s b g) key
     = (None, init f i s b g)).
Proof.
  assert (G : forall u : SparseConvTensor RB,
            find_indice_pair u key = (k ← key; indice_dict u !! k, u)).
  { intros u. destruct key as [k|]; simpl; [|done].
    destruct (decide (k ∈ dom (indice_dict u))) as [|Hn]; [done|].
    apply not_elem_of_dom in Hn. by rewrite Hn. }
  split; [apply G|].
  intros. rewrite G. destruct key as [k|]; simpl; [|done].
  by rewrite lookup_empty.
Qed.

(** C10: [RemoveGrid.forward] returns the reference it was given; in the
    store only that object changes, and only in its [grid] field, which
    becomes [None]; no object is allocated. *)
Theorem RemoveGrid_forward_frame h (x : nat) t :
  h !! x = Some t ->
  exists h' t',
    RemoveGrid_forward h x = Some (x, h') /\
    h' !! x = Some t' /\
    grid t' = None /\
    features t' = features t /\ indices t' = indices t /\
    spatial_shape t' = spatial_shape t /\ batch_size t' = batch_size t /\
    indice_dict t' = indice_dict t /\
    dom h' = dom h /\
    (forall y, y <> x -> h' !! y = h !! y).
Proof.
  intros Hx. exists (<[x := set_grid t None]> h), (set_grid t None).
  unfold RemoveGrid_forward. rewrite Hx. simpl.
  split; [done|]. split; [apply lookup_insert_eq|].
  repeat (split; [done|]). split.
  - apply set_eq. intros y. rewrite dom_insert. 
    rewrite elem_of_union, elem_of_singleton. split; [|tauto].
    intros [->|?]; [|done]. apply elem_of_dom. eauto.
  - intros y Hy. by rewrite lookup_insert_ne.
Qed.

End Properties.

(** ** Shapes, offsets and multi-indices *)

Lemma numel_app a b : numel (a ++ b) = numel a * numel b.
Proof. induction a as [|d a IH]; simpl; [lia | rewrite IH; lia]. Qed.

Lemma numel_nonneg shape : Forall (fun d => 0 <= d) shape -> 0 <= numel shape.
Proof. induction 1; simpl; lia. Qed.

Lemma valid_size_spec d : valid_size d = true <-> 0 <= d < 2 ^ 63.
Proof. unfold valid_size. rewrite andb_true_iff, Z.leb_le, Z.ltb_lt. tauto. Qed.

Lemma valid_sizes_nonneg shape :
  forallb valid_size shape = true -> Forall (fun d => 0 <= d) shape.
Proof.
  rewrite forallb_forall, Forall_forall. intros H d Hd.
  apply list_elem_of_In, H, valid_size_spec in Hd. lia.
Qed.

Lemma in_bounds_length shape idx : in_bounds shape idx -> length idx = length shape.
Proof. intros H. symmetry. by eapply Forall2_length. Qed.

Lemma ravel_bounds shape idx :
  in_bounds shape idx -> 0 <= ravel shape idx < numel shape.
Proof.
  unfold ravel. induction 1 as [|d i shape idx Hi _ IH]; simpl; [lia|]. nia.
Qed.

Lemma unravel_ravel shape idx :
  in_bounds shape idx -> unravel shape (ravel shape idx) = idx.
Proof.
  induction 1 as [|d i shape idx Hi Hr IH]; [done|].
  apply ravel_bounds in Hr as Hb. unfold ravel in *. simpl.
  rewrite Z.add_comm, Z.div_add, Z.mod_add by lia.
  rewrite Z.div_small, Z.mod_small by lia. simpl. by rewrite IH.
Qed.

Lemma unravel_spec shape j :
  Forall (fun d => 0 <= d) shape -> 0 <= j < numel shape ->
  in_bounds shape (unravel shape j) /\ ravel shape (unravel shape j) = j.
Proof.
  intros Hs. revert j. unfold ravel.
  induction Hs as [|d shape Hd Hs IH]; intros j Hj; simpl in *.
  { split; [constructor | lia]. }
  pose proof (numel_nonneg _ Hs) as HP.
  assert (0 < numel shape) as HP' by nia.
  destruct (IH (j mod numel shape)) as [IH1 IH2].
  { by apply Z.mod_pos_bound. }
  split.
  - constructor; [|done]. split; [apply Z.div_pos; lia|].
    apply Z.div_lt_upper_bound; lia.
  - rewrite IH2. pose proof (Z.div_mod j (numel shape)). lia.
Qed.

Lemma ravel_snoc shape c idx i :
  length idx = length shape ->
  ravel (shape ++ [c]) (idx ++ [i]) = ravel shape idx * c + i.
Proof.
  unfold ravel. revert idx. induction shape as [|d shape IH]; intros [|k idx] Hl;
    simplify_eq/=; [lia|].
  rewrite IH by done. rewrite numel_app. simpl. lia.
Qed.

Lemma in_bounds_snoc shape c idx i :
  in_bounds shape idx -> 0 <= i < c -> in_bounds (shape ++ [c]) (idx ++ [i]).
Proof. intros. apply Forall2_app; [done|]. constructor; [done | constructor]. Qed.

Lemma unravel_snoc shape c j :
  Forall (fun d => 0 <= d) shape -> 0 <= c -> 0 <= j < numel shape * c ->
  unravel (shape ++ [c]) j = unravel shape (j / c) ++ [j mod c].
Proof.
  intros Hs Hc Hj.
  pose proof (numel_nonneg _ Hs) as HP.
  assert (0 < c) as Hc' by nia.
  destruct (unravel_spec shape (j / c) Hs) as [Hb Hr].
  { split; [apply Z.div_pos; lia|]. apply Z.div_lt_upper_bound; lia. }
  rewrite <- (unravel_ravel (shape ++ [c]) (unravel shape (j / c) ++ [j mod c])).
  - f_equal. rewrite ravel_snoc by by apply in_bounds_length.
    rewrite Hr. pose proof (Z.div_mod j c). lia.
  - apply in_bounds_snoc; [done|]. by apply Z.mod_pos_bound.
Qed.

Lemma unravel_inj shape j1 j2 :
  Forall (fun d => 0 <= d) shape ->
  0 <= j1 < numel shape -> 0 <= j2 < numel shape ->
  unravel shape j1 = unravel shape j2 -> j1 = j2.
Proof.
  intros Hs H1 H2 E.
  destruct (unravel_spec shape j1 Hs H1) as [_ <-].
  destruct (unravel_spec shape j2 Hs H2) as [_ <-]. by rewrite E.
Qed.

(** ** Rows of a flattened matrix *)

Lemma chunks_length n cnt l : length (chunks n cnt l) = cnt.
Proof. revert l. induction cnt; intros; simpl; [done | by rewrite IHcnt]. Qed.

Lemma chunks_fmap (f : Z -> Z) n cnt l :
  chunks n cnt (map f l) = map (map f) (chunks n cnt l).
Proof.
  revert l. induction cnt as [|cnt IH]; intros l; simpl; [done|].
  by rewrite <- fmap_take, <- fmap_drop, IH.
Qed.

Lemma chunks_lookup n cnt l j :
  (j < cnt)%nat -> chunks n cnt l !! j = Some (take n (drop (j * n) l)).
Proof.
  revert l j. induction cnt as [|cnt IH]; intros l [|j] Hj; simpl; try lia.
  - done.
  - rewrite IH by lia. by rewrite drop_drop.
Qed.

Lemma chunks_row_length n cnt l :
  (cnt * n <= length l)%nat -> Forall (fun r => length r = n) (chunks n cnt l).
Proof.
  revert l. induction cnt as [|cnt IH]; intros l Hl; simpl; constructor.
  - rewrite length_take. lia.
  - apply IH. rewrite length_drop. lia.
Qed.

Lemma concat_chunks n cnt l :
  (cnt * n = length l)%nat -> concat (chunks n cnt l) = l.
Proof.
  revert l. induction cnt as [|cnt IH]; intros l Hl; simpl.
  - by destruct l.
  - rewrite IH; [apply take_drop|]. rewrite length_drop. lia.
Qed.

Lemma map_nth_seq (l : list Z) : map (fun i => nth i l 0) (seq 0 (length l)) = l.
Proof.
  induction l as [|a l IH]; simpl; [done|]. f_equal.
  rewrite <- seq_shift, map_map. exact IH.
Qed.

(** The [j]-th entries of the column slices form row [j]. *)
Lemma slices_tuple (rows : list (list Z)) n j row :
  Forall (fun r => length r = n) rows -> rows !! j = Some row ->
  map (fun s => nth j s 0) (map (fun i => map (fun r => nth i r 0) rows) (seq 0 n))
  = row.
Proof.
  intros Hlen Hj. rewrite map_map.
  assert (length row = n) as <-.
  { eapply Forall_lookup_1 in Hlen; [exact Hlen | exact Hj]. }
  rewrite <- (map_nth_seq row) at 2. apply map_ext. intros i. simpl.
  apply nth_lookup_Some. by rewrite list_lookup_fmap, Hj.
Qed.

Lemma normalize_indices_in_bounds shape rest idx :
  in_bounds shape idx -> normalize_indices (shape ++ rest) idx = Some idx.
Proof.
  induction 1 as [|d i shape idx Hi _ IH]; simpl; [done|].
  unfold normalize_index.
  destruct (Z.leb_spec 0 i), (Z.ltb_spec i d); try lia. simpl.
  by rewrite IH.
Qed.

(** ** Writing rows into a flat buffer *)

Lemma put_row_length inner value data w :
  length (put_row inner value data w) = length data.
Proof. unfold put_row. apply length_inserts. Qed.

Lemma foldl_put_row_length inner value ws data :
  length (foldl (put_row inner value) data ws) = length data.
Proof.
  revert data. induction ws as [|w ws IH]; intros data; simpl; [done|].
  by rewrite IH, put_row_length.
Qed.

Lemma put_row_lookup_other inner value data w p c :
  (c < inner)%nat -> w.2 <> p ->
  put_row inner value data w !! (p * inner + c)%nat = data !! (p * inner + c)%nat.
Proof.
  intros Hc Hp. unfold put_row.
  destruct (decide (p < w.2)%nat).
  - apply list_lookup_inserts_lt. nia.
  - apply list_lookup_inserts_ge. rewrite length_take. nia.
Qed.

Lemma put_row_lookup_same inner value data w c :
  (c < inner)%nat ->
  (w.1 * inner + inner <= length value)%nat ->
  (w.2 * inner + inner <= length data)%nat ->
  put_row inner value data w !! (w.2 * inner + c)%nat
  = value !! (w.1 * inner + c)%nat.
Proof.
  intros Hc Hv Hd. unfold put_row.
  rewrite list_lookup_inserts.
  - replace (w.2 * inner + c - w.2 * inner)%nat with c by lia.
    rewrite lookup_take_lt by done. by rewrite lookup_drop.
  - rewrite length_take, length_drop. lia.
  - lia.
Qed.

(** What a sequence of row writes, taken one after the other, leaves at an
    entry: the row of the last write that targets it, or the old content
    when none does. *)
Lemma foldl_put_row_lookup inner value ws data p c :
  (c < inner)%nat ->
  Forall (fun w => (w.1 * inner + inner <= length value)%nat /\
                   (w.2 * inner + inner <= length data)%nat) ws ->
  (Forall (fun w => w.2 <> p) ws ->
   foldl (put_row inner value) data ws !! (p * inner + c)%nat
   = data !! (p * inner + c)%nat) /\
  (forall k j, ws !! k = Some (j, p) ->
     (forall k' w', (k < k')%nat -> ws !! k' = Some w' -> w'.2 <> p) ->
     foldl (put_row inner value) data ws !! (p * inner + c)%nat
     = value !! (j * inner + c)%nat).
Proof.
  intros Hc. induction ws as [|w ws IH] using rev_ind; intros Hws.
  { split; [done | intros k j Hk; by rewrite lookup_nil in Hk]. }
  apply Forall_app in Hws as [Hws Hw]. apply Forall_singleton in Hw as [Hw1 Hw2].
  destruct (IH Hws) as [IH1 IH2]. rewrite foldl_snoc. split.
  - intros Hne. apply Forall_app in Hne as [Hne Hne'].
    rewrite Forall_singleton in Hne'.
    rewrite put_row_lookup_other by done. by apply IH1.
  - intros k j Hk Hlast.
    destruct (decide (k = length ws)) as [->|Hk'].
    + rewrite lookup_app_r, Nat.sub_diag in Hk by lia. simplify_eq/=.
      rewrite (put_row_lookup_same inner value _ (j, p)); [done..|].
      by rewrite foldl_put_row_length.
    + assert (k < length ws)%nat as Hlt.
      { apply lookup_lt_Some in Hk. rewrite length_app in Hk. simpl in Hk. lia. }
      rewrite lookup_app_l in Hk by done.
      rewrite put_row_lookup_other; [|done|].
      * apply (IH2 k j Hk). intros k' w' Hkk' Hw'.
        apply (Hlast k' w' Hkk'). rewrite lookup_app_l; [done|].
        by eapply lookup_lt_Some.
      * apply (Hlast (length ws) w Hlt).
        by rewrite lookup_app_r, Nat.sub_diag by lia.
Qed.

(** ** [index_put], [scatter_nd] and [dense] on in-range coordinates *)

Lemma index_put_rows ret shape0 rest (rows : list (list Z)) value :
  tshape ret = shape0 ++ rest ->
  Forall (in_bounds shape0) rows ->
  index_put ret
    (map (fun i => map (fun r => nth i r 0) rows) (seq 0 (length shape0)))
    (length rows) value
  = Some (mkTensor (tshape ret)
            (foldl (put_row (Z.to_nat (numel rest)) (tdata value)) (tdata ret)
               (zip (seq 0 (length rows))
                    (map (fun row => Z.to_nat (ravel shape0 row)) rows)))).
Proof.
  intros Hshape Hrows. unfold index_put.
  rewrite length_map, length_seq, Hshape.
  rewrite option_guard_True by (rewrite length_app; lia).
  rewrite drop_app_length, take_app_length.
  erewrite mapM_Some_2; [reflexivity|].
  apply Forall2_same_length_lookup_2.
  { by rewrite length_seq, length_map. }
  intros j j' off Hj Hoff. apply lookup_seq in Hj as [-> Hj].
  change (map ?f ?l) with (f <$> l) in Hoff.
  rewrite list_lookup_fmap in Hoff.
  destruct (rows !! j) as [row|] eqn:Hrow; simplify_eq/=.
  rewrite (slices_tuple rows (length shape0) j row); [| |done].
  - eapply Forall_lookup_1 in Hrows; [|exact Hrow].
    by rewrite normalize_indices_in_bounds.
  - eapply Forall_impl; [exact Hrows|]. intros r Hr. by apply in_bounds_length.
Qed.

Lemma in_bounds_to_int64 shape idx :
  forallb valid_size shape = true -> in_bounds shape idx ->
  map to_int64 idx = idx.
Proof.
  intros Hv Hb. induction Hb as [|d i shape idx Hi _ IH]; simpl; [done|].
  simpl in Hv. apply andb_true_iff in Hv as [Hd Hv]. apply valid_size_spec in Hd.
  rewrite IH by done. rewrite to_int64_small; [done | lia].
Qed.

Lemma rows_in_bounds_to_int64 shape (rows : list (list Z)) :
  forallb valid_size shape = true -> Forall (in_bounds shape) rows ->
  map (map to_int64) rows = rows.
Proof.
  intros Hv. induction 1 as [|row rows Hrow _ IH]; simpl; [done|].
  rewrite IH. f_equal. by eapply in_bounds_to_int64.
Qed.

Lemma to_nat_row_bound a b c :
  0 <= a < b -> 0 <= c ->
  (Z.to_nat a * Z.to_nat c + Z.to_nat c <= Z.to_nat (b * c))%nat.
Proof.
  intros Ha Hc. rewrite <- Z2Nat.inj_mul, <- Z2Nat.inj_add by lia.
  apply Z2Nat.inj_le; nia.
Qed.

Section Dense.
Context {RB : Type}.
Implicit Types (t : SparseConvTensor RB).

Lemma sparse_wf_valid t n c :
  sparse_wf t n c ->
  (0 <= n < 2 ^ 63) /\ (0 <= c < 2 ^ 63) /\
  forallb valid_size (batch_size t :: spatial_shape t) = true /\
  forallb valid_size (batch_size t :: spatial_shape t ++ [c]) = true.
Proof.
  intros (_ & _ & _ & _ & Hv). simpl in Hv.
  apply andb_true_iff in Hv as [Hn Hv]. apply andb_true_iff in Hv as [Hc Hv].
  apply andb_true_iff in Hv as [Hb Hv].
  split; [by apply valid_size_spec|]. split; [by apply valid_size_spec|].
  simpl. rewrite Hb, Hv. split; [done|]. simpl.
  rewrite forallb_app, Hv. simpl. by rewrite Hc.
Qed.

Lemma coords_eq t n c :
  sparse_wf t n c ->
  coords t = chunks (S (length (spatial_shape t))) (Z.to_nat n) (tdata (indices t)).
Proof.
  intros (_ & _ & Hi & _). unfold coords, trows. rewrite Hi.
  f_equal. lia.
Qed.

(** The dense array that [dense(channels_first=False)] builds when every
    coordinate row is in range: zeros, overwritten row by row. *)
Lemma dense_false_eq t n c :
  sparse_wf t n c -> coords_in_bounds t ->
  dense t false =
    Some (mkTensor (batch_size t :: spatial_shape t ++ [c])
            (foldl (put_row (Z.to_nat c) (tdata (features t)))
               (replicate (Z.to_nat (numel (batch_size t :: spatial_shape t ++ [c]))) 0)
               (zip (seq 0 (Z.to_nat n))
                    (map (fun row => Z.to_nat (ravel (batch_size t :: spatial_shape t) row))
                         (coords t))))).
Proof.
  intros Hwf Hb.
  pose proof (sparse_wf_valid _ _ _ Hwf) as (Hn & Hc & Hv & Hv').
  pose proof (coords_eq _ _ _ Hwf) as Hcoords.
  destruct Hwf as (Hf & Hfl & Hi & Hil & _).
  set (K1 := Z.of_nat (length (spatial_shape t)) + 1) in *.
  unfold dense. rewrite Hf. simpl.
  unfold scatter_nd, torch_zeros. simpl forallb. simpl in Hv'. rewrite Hv'. simpl.
  rewrite Hi. simpl. fold K1.
  unfold view_rows. simpl. rewrite length_map.
  rewrite Hil.
  assert (0 < K1) as HK by lia.
  rewrite (proj2 (Z.ltb_lt 0 K1)) by done.
  rewrite Z.mod_mul, Z.div_mul by lia. simpl.
  replace (Z.to_nat K1) with (S (length (spatial_shape t))) by lia.
  rewrite chunks_fmap, <- Hcoords.
  rewrite (rows_in_bounds_to_int64 _ _ Hv Hb).
  unfold view. simpl. rewrite drop_app_length. simpl. rewrite Hfl.
  replace (n * (c * 1)) with (n * c) by lia. rewrite Z.eqb_refl. simpl.
  pose proof (index_put_rows
    (mkTensor (batch_size t :: spatial_shape t ++ [c])
       (replicate (Z.to_nat (batch_size t * numel (spatial_shape t ++ [c]))) 0))
    (batch_size t :: spatial_shape t) [c] (coords t)
    (mkTensor [n; c] (tdata (features t))) eq_refl Hb) as Hput.
  simpl in Hput. rewrite Hput. simpl.
  replace (Z.to_nat (c * 1)) with (Z.to_nat c) by (f_equal; lia).
  rewrite Hcoords at 1. by rewrite chunks_length.
Qed.

Lemma tget_features t n c (i : nat) k :
  tshape (features t) = [n; c] -> 0 <= k < c ->
  tget (features t) [Z.of_nat i; k]
  = nth (i * Z.to_nat c + Z.to_nat k) (tdata (features t)) 0.
Proof.
  intros Hf Hk. unfold tget, ravel. rewrite Hf. simpl. f_equal. nia.
Qed.

Lemma writes_ok t n c :
  sparse_wf t n c -> coords_in_bounds t ->
  Forall (fun w : nat * nat =>
            (w.1 * Z.to_nat c + Z.to_nat c <= length (tdata (features t)))%nat /\
            (w.2 * Z.to_nat c + Z.to_nat c
             <= length (replicate
                  (Z.to_nat (numel (batch_size t :: spatial_shape t ++ [c]))) 0%Z))%nat)
    (zip (seq 0 (Z.to_nat n))
       (map (fun row => Z.to_nat (ravel (batch_size t :: spatial_shape t) row))
            (coords t))).
Proof.
  intros Hwf Hb.
  pose proof (sparse_wf_valid _ _ _ Hwf) as (Hn & Hc & Hv & Hv').
  destruct Hwf as (Hf & Hfl & Hi & Hil & _).
  apply Forall_forall. intros [j off] Hin.
  apply elem_of_zip_l in Hin as Hj. apply elem_of_zip_r in Hin as Hoff.
  apply elem_of_seq in Hj. simpl in Hj, Hoff. simpl fst. simpl snd.
  change (map ?f ?l) with (f <$> l) in Hoff.
  apply list_elem_of_fmap in Hoff as (row & -> & Hrow).
  unfold coords_in_bounds in Hb. rewrite Forall_forall in Hb.
  apply Hb, ravel_bounds in Hrow.
  rewrite length_replicate.
  change (batch_size t :: spatial_shape t ++ [c])
    with ((batch_size t :: spatial_shape t) ++ [c]).
  rewrite numel_app. change (numel [c]) with (c * 1). rewrite Z.mul_1_r. split.
  - rewrite <- (Nat2Z.id (length _)), Hfl, <- (Nat2Z.id j).
    apply to_nat_row_bound; lia.
  - apply to_nat_row_bound; lia.
Qed.

(** Every in-range coordinate row writes its feature row, and untouched
    entries stay zero.  For rows that coincide the lemma follows the order
    in which the model writes them; the properties of [dense] use it for
    rows that are distinct. *)
Lemma dense_false_spec t n c :
  sparse_wf t n c -> coords_in_bounds t ->
  exists r,
    dense t false = Some r /\
    tshape r = batch_size t :: spatial_shape t ++ [c] /\
    Z.of_nat (length (tdata r)) = numel (tshape r) /\
    (forall (i : nat) p k,
       coords t !! i = Some p ->
       (forall i', (i < i')%nat -> coords t !! i' <> Some p) ->
       0 <= k < c ->
       tget r (p ++ [k]) = tget (features t) [Z.of_nat i; k]) /\
    (forall p k,
       in_bounds (batch_size t :: spatial_shape t) p -> p ∉ coords t ->
       0 <= k < c ->
       tget r (p ++ [k]) = 0).
Proof.
  intros Hwf Hb. eexists. split; [by eapply dense_false_eq|].
  pose proof (writes_ok _ _ _ Hwf Hb) as Hws.
  pose proof (sparse_wf_valid _ _ _ Hwf) as (Hn & Hc & Hv & Hv').
  pose proof (coords_eq _ _ _ Hwf) as Hcoords.
  assert (length (coords t) = Z.to_nat n) as Hlen
    by (by rewrite Hcoords, chunks_length).
  destruct Hwf as (Hf & Hfl & Hi & Hil & _).
  split; [done|]. simpl tshape. simpl tdata.
  set (shape0 := batch_size t :: spatial_shape t) in *.
  change (batch_size t :: spatial_shape t ++ [c]) with (shape0 ++ [c]) in *.
  set (ws := zip _ _) in *.
  assert (Hget : forall p k, in_bounds shape0 p -> 0 <= k < c ->
    tget (mkTensor (shape0 ++ [c])
            (foldl (put_row (Z.to_nat c) (tdata (features t)))
               (replicate (Z.to_nat (numel (shape0 ++ [c]))) 0) ws)) (p ++ [k])
    = default 0 (foldl (put_row (Z.to_nat c) (tdata (features t)))
               (replicate (Z.to_nat (numel (shape0 ++ [c]))) 0) ws
               !! (Z.to_nat (ravel shape0 p) * Z.to_nat c + Z.to_nat k)%nat)).
  { intros p k Hp Hk. unfold tget. cbn [tshape tdata]. rewrite nth_lookup.
    rewrite ravel_snoc by by apply in_bounds_length.
    apply ravel_bounds in Hp. do 2 f_equal. nia. }
  assert (Hoff : forall i row, coords t !! i = Some row ->
            ws !! i = Some (i, Z.to_nat (ravel shape0 row))).
  { intros i row Hrow. subst ws. apply lookup_zip_with_Some.
    exists i, (Z.to_nat (ravel shape0 row)). split; [done|]. split.
    - apply lookup_seq. split; [done|]. apply lookup_lt_Some in Hrow. lia.
    - change (map ?f ?l) with (f <$> l). by rewrite list_lookup_fmap, Hrow. }
  assert (Hinj : forall p q, in_bounds shape0 p -> in_bounds shape0 q ->
            Z.to_nat (ravel shape0 p) = Z.to_nat (ravel shape0 q) -> p = q).
  { intros p q Hp Hq E. rewrite <- (unravel_ravel _ _ Hp), <- (unravel_ravel _ _ Hq).
    apply ravel_bounds in Hp, Hq. f_equal. lia. }
  assert (Hin : forall k' w', ws !! k' = Some w' ->
            exists row, coords t !! k' = Some row /\ in_bounds shape0 row /\
                        w' = (k', Z.to_nat (ravel shape0 row))).
  { intros k' w' Hw'. destruct (coords t !! k') as [row|] eqn:Hrow.
    - exists row. split; [done|]. split.
      + eapply Forall_lookup_1; [exact Hb | exact Hrow].
      + apply Hoff in Hrow. congruence.
    - apply lookup_lt_Some in Hw'. apply lookup_ge_None in Hrow.
      subst ws. rewrite length_zip_with, length_seq, length_map in Hw'. lia. }
  split; [|split].
  - rewrite foldl_put_row_length, length_replicate. apply Z2Nat.id.
    apply numel_nonneg. apply valid_sizes_nonneg. apply Hv'.
  - intros i p k Hp Hlast Hk.
    assert (in_bounds shape0 p) as Hpb
      by (eapply Forall_lookup_1; [exact Hb | exact Hp]).
    rewrite Hget by done.
    rewrite (tget_features _ _ _ _ _ Hf Hk), nth_lookup. f_equal.
    apply foldl_put_row_lookup with (k := i); [lia | exact Hws | by apply Hoff |].
    intros k' w' Hk' Hw' E. apply Hin in Hw' as (row & Hrow & Hrb & ->).
    simpl in E. apply (Hlast k' Hk'). rewrite Hrow. f_equal. by apply Hinj.
  - intros p k Hp Hnotin Hk. rewrite Hget by done.
    destruct (foldl_put_row_lookup (Z.to_nat c) (tdata (features t)) ws
      (replicate (Z.to_nat (numel (shape0 ++ [c]))) 0)
      (Z.to_nat (ravel shape0 p)) (Z.to_nat k)) as [-> _]; [lia | exact Hws | |].
    + destruct (replicate _ _ !! _) eqn:E; [|done].
      by apply lookup_replicate in E as [-> _].
    + apply Forall_lookup_2. intros k' w' Hw' E.
      apply Hin in Hw' as (row & Hrow & Hrb & ->). simpl in E.
      apply Hnotin. apply Hinj in E; [|done..]. subst.
      by eapply list_elem_of_lookup_2.
Qed.

End Dense.

(** ** Moving the channel axis *)

Lemma strides_snoc shape c :
  strides (shape ++ [c]) = map (fun x => x * c) (strides shape) ++ [1].
Proof.
  induction shape as [|d shape IH]; simpl; [done|].
  rewrite IH, numel_app. simpl. do 2 f_equal. lia.
Qed.

Lemma strides_length shape : length (strides shape) = length shape.
Proof. induction shape; simpl; congruence. Qed.

Lemma dot_map_mul idx st c : dot idx (map (fun x => x * c) st) = dot idx st * c.
Proof.
  revert st. induction idx as [|i idx IH]; intros [|s st]; simpl; try lia.
  rewrite IH. lia.
Qed.

Lemma map_nth_inner (x : Z) (l l' : list Z) :
  map (fun a => nth a (x :: l ++ l') 0) (seq 1 (length l)) = l.
Proof.
  rewrite <- seq_shift, map_map. simpl.
  transitivity (map (fun a => nth a l 0) (seq 0 (length l))); [|apply map_nth_seq].
  apply map_ext_in. intros a Ha.
  apply in_seq in Ha. apply app_nth1. lia.
Qed.

Lemma nth_last_snoc (x c : Z) (l : list Z) :
  nth (length l + 1) (x :: l ++ [c]) 0 = c.
Proof.
  replace (length l + 1)%nat with (S (length l)) by lia. simpl.
  rewrite app_nth2 by lia. by rewrite Nat.sub_diag.
Qed.

(** The argument [dense] passes to [permute] is a permutation of the axes. *)
Lemma trans_params_permutation k :
  is_permutation (take 1 (seq 0 (k + 1)) ++ [(k + 1)%nat] ++ drop 1 (seq 0 (k + 1)))
                 (S (k + 1)) = true.
Proof.
  unfold is_permutation. apply bool_decide_eq_true.
  replace (S (k + 1)) with ((k + 1) + 1)%nat by lia.
  rewrite (seq_app (k + 1) 1 0). simpl seq at 3.
  rewrite <- (take_drop 1 (seq 0 (k + 1))) at 3.
  rewrite <- !app_assoc. apply Permutation_app_head.
  apply Permutation_app_comm.
Qed.

Lemma permute_channels_first b c shape data k :
  k = length shape ->
  permute (mkTensor (b :: shape ++ [c]) data)
          (take 1 (seq 0 (k + 1)) ++ [(k + 1)%nat] ++ drop 1 (seq 0 (k + 1)))
  = Some (mkTensor (b :: c :: shape)
            (map (fun j =>
                    nth (Z.to_nat
                           (dot (unravel (b :: c :: shape) j)
                                (numel shape * c :: 1
                                 :: map (fun x => x * c) (strides shape))))
                        data 0)
                 (seqZ 0 (numel (b :: c :: shape))))).
Proof.
  intros ->. unfold permute. cbn [tshape tdata].
  replace (length (b :: shape ++ [c])) with (S (length shape + 1))
    by (simpl; rewrite length_app; simpl; lia).
  rewrite trans_params_permutation.
  replace (take 1 (seq 0 (length shape + 1)) ++ [(length shape + 1)%nat]
             ++ drop 1 (seq 0 (length shape + 1)))
    with (0%nat :: (length shape + 1)%nat :: seq 1 (length shape)).
  2:{ replace (length shape + 1)%nat with (S (length shape)) by lia. done. }
  cbn [map]. rewrite !nth_last_snoc.
  rewrite (map_nth_inner b shape [c]).
  cbn [strides]. rewrite strides_snoc, numel_app.
  set (st := map (fun x => x * c) (strides shape)).
  assert (length shape = length st) as ->
    by (subst st; by rewrite length_map, strides_length).
  rewrite nth_last_snoc, map_nth_inner.
  cbn [nth]. replace (numel [c]) with c by (simpl; lia). done.
Qed.

(** Entry [(b, c, s...)] of the permuted array is entry [(b, s..., c)] of
    the original. *)
Lemma permute_channels_first_get bsz csz shape data b c s :
  Forall (fun d => 0 <= d) (bsz :: csz :: shape) ->
  in_bounds (bsz :: csz :: shape) (b :: c :: s) ->
  tget (mkTensor (bsz :: csz :: shape)
          (map (fun j =>
                  nth (Z.to_nat
                         (dot (unravel (bsz :: csz :: shape) j)
                              (numel shape * csz :: 1
                               :: map (fun x => x * csz) (strides shape))))
                      data 0)
               (seqZ 0 (numel (bsz :: csz :: shape)))))
       (b :: c :: s)
  = tget (mkTensor (bsz :: shape ++ [csz]) data) (b :: s ++ [c]).
Proof.
  intros Hnn Hb. unfold tget. cbn [tshape tdata].
  pose proof (ravel_bounds _ _ Hb) as Hr.
  rewrite nth_lookup.
  change (map ?f ?l) with (f <$> l).
  rewrite list_lookup_fmap.
  rewrite (proj2 (lookup_seqZ 0 (numel (bsz :: csz :: shape))
                   (Z.to_nat (ravel (bsz :: csz :: shape) (b :: c :: s)))
                   (ravel (bsz :: csz :: shape) (b :: c :: s)))) by lia.
  cbn -[unravel ravel dot strides numel Z.to_nat nth].
  rewrite (unravel_ravel _ _ Hb). f_equal. f_equal.
  apply Forall2_cons_1 in Hb as [_ Hb]. apply Forall2_cons_1 in Hb as [_ Hb].
  change (bsz :: shape ++ [csz]) with ((bsz :: shape) ++ [csz]).
  change (b :: s ++ [c]) with ((b :: s) ++ [c]).
  rewrite ravel_snoc by (simpl; f_equal; by apply in_bounds_length).
  unfold ravel. simpl. rewrite dot_map_mul. lia.
Qed.

Section DenseChannelsFirst.
Context {RB : Type}.
Implicit Types (t : SparseConvTensor RB).

Lemma dense_true_eq t :
  dense t true =
    dense t false ≫= fun res =>
      permute res (take 1 (seq 0 (length (spatial_shape t) + 1))
                   ++ [(length (spatial_shape t) + 1)%nat]
                   ++ drop 1 (seq 0 (length (spatial_shape t) + 1))).
Proof.
  unfold dense. destruct (tshape (features t) !! 1%nat) as [c|]; simpl; [|done].
  by destruct (scatter_nd _ _ _).
Qed.

(** The shape and size of whatever [dense(channels_first=False)] returns. *)
Lemma dense_false_inv t r :
  dense t false = Some r ->
  exists c, tshape (features t) !! 1%nat = Some c /\
    tshape r = batch_size t :: spatial_shape t ++ [c] /\
    forallb valid_size (tshape r) = true /\
    Z.of_nat (length (tdata r)) = numel (tshape r).
Proof.
  unfold dense. destruct (tshape (features t) !! 1%nat) as [c|]; simpl; [|done].
  unfold scatter_nd, torch_zeros.
  destruct (forallb valid_size _) eqn:Hv; simpl; [|done].
  destruct (last _) as [ndim|]; simpl; [|done].
  destruct (view_rows _ _) as [rows|]; simpl; [|done].
  destruct (view _ _) as [value|]; simpl; [|done].
  unfold index_put. case_guard; simpl; [|done].
  destruct (mapM _ _) as [offs|]; simpl; [|done].
  intros [= <-]. exists c. cbn [tshape tdata].
  split; [done|]. split; [done|]. split; [done|].
  rewrite foldl_put_row_length, length_replicate. apply Z2Nat.id.
  apply numel_nonneg, valid_sizes_nonneg, Hv.
Qed.


End DenseChannelsFirst.

Section DenseClaims.
Context {RB : Type}.
Implicit Types (t : SparseConvTensor RB).

Lemma dense_true_total t r :
  dense t false = Some r -> exists r', dense t true = Some r'.
Proof.
  intros Hr. destruct (dense_false_inv _ _ Hr) as (c & _ & Hshape & _).
  rewrite dense_true_eq, Hr. cbn [mbind option_bind].
  destruct r as [rshape rdata]. cbn [tshape] in Hshape. subst rshape.
  rewrite (permute_channels_first _ _ _ _ _ eq_refl). eauto.
Qed.

(** C3: with [n] distinct in-range coordinate rows and an [n] by [c]
    feature matrix, [dense(channels_first=False)] returns an array of shape
    [[batch_size, *spatial_shape, c]] that holds, at every active
    coordinate, the feature row of that site, and zero everywhere else. *)
Theorem dense_scatters_features t n c :
  sparse_wf t n c -> coords_in_bounds t -> NoDup (coords t) ->
  exists r,
    dense t false = Some r /\
    tshape r = batch_size t :: spatial_shape t ++ [c] /\
    Z.of_nat (length (tdata r)) = numel (tshape r) /\
    length (coords t) = Z.to_nat n /\
    (forall (i : nat) p k,
       coords t !! i = Some p -> 0 <= k < c ->
       tget r (p ++ [k]) = tget (features t) [Z.of_nat i; k]) /\
    (forall p k,
       in_bounds (batch_size t :: spatial_shape t) p -> p ∉ coords t ->
       0 <= k < c ->
       tget r (p ++ [k]) = 0).
Proof.
  intros Hwf Hb Hnd.
  destruct (dense_false_spec t n c Hwf Hb) as (r & Hr & Hs & Hl & Hact & Hzero).
  exists r. repeat (split; [done|]). split.
  { by rewrite (coords_eq _ _ _ Hwf), chunks_length. }
  split; [|done].
  intros i p k Hp Hk. apply Hact; [done | | done].
  intros i' Hlt Hp'. pose proof (NoDup_lookup _ _ _ _ Hnd Hp Hp'). lia.
Qed.

(** C1, as amended: equal coordinate rows are not reported.  With in-range
    rows, two of which are equal, [dense] raises nothing: for both channel
    orders it returns an array of the usual shape and size.  Nothing is
    said about what the array holds at the repeated coordinate. *)
Theorem dense_duplicate_rows_succeed t n c (i j : nat) p :
  sparse_wf t n c -> coords_in_bounds t ->
  (i < j)%nat -> coords t !! i = Some p -> coords t !! j = Some p ->
  exists r r',
    dense t false = Some r /\ dense t true = Some r' /\
    tshape r = batch_size t :: spatial_shape t ++ [c] /\
    tshape r' = batch_size t :: c :: spatial_shape t /\
    Z.of_nat (length (tdata r)) = numel (tshape r) /\
    Z.of_nat (length (tdata r')) = numel (tshape r').
Proof.
  intros Hwf Hb _ _ _.
  destruct (dense_false_spec t n c Hwf Hb) as (r & Hr & Hshape & Hlen & _).
  destruct (dense_false_inv _ _ Hr) as (c' & _ & _ & Hv & _).
  pose proof (dense_true_eq t) as Htrue. rewrite Hr in Htrue.
  cbn [mbind option_bind] in Htrue.
  destruct r as [rshape rdata]. cbn [tshape tdata] in *. subst rshape.
  rewrite (permute_channels_first _ _ _ _ _ eq_refl) in Htrue.
  eexists _, _. split; [exact Hr|]. split; [exact Htrue|].
  split; [done|]. split; [done|]. split; [done|].
  cbn [tshape tdata]. rewrite length_map, length_seqZ. apply Z2Nat.id.
  apply valid_sizes_nonneg in Hv. apply Forall_cons in Hv as [Hbs Hv].
  apply Forall_app in Hv as [Hs Hcc]. rewrite Forall_singleton in Hcc.
  apply numel_nonneg. constructor; [done|]. by constructor.
Qed.

End DenseClaims.

(** C1, as stated, fails: the coordinate [(0, 0, 1)] occurs twice, yet
    [dense] raises nothing and returns an array, for both channel orders. *)
Lemma dense_repeated_site_no_error :
  coords repeated_site = [[0; 0; 1]; [0; 0; 1]] /\
  ~ NoDup (coords repeated_site) /\
  exists r r',
    dense repeated_site false = Some r /\
    dense repeated_site true = Some r' /\
    tshape r = [1; 2; 2; 2] /\ tshape r' = [1; 2; 2; 2].
Proof.
  assert (Hc : coords repeated_site = [[0; 0; 1]; [0; 0; 1]]) by (by vm_compute).
  split; [exact Hc|]. split.
  { rewrite Hc. intros H. apply NoDup_cons in H as [H _]. apply H. by left. }
  destruct (dense repeated_site false) as [r|] eqn:Hr; [|by vm_compute in Hr].
  destruct (dense repeated_site true) as [r'|] eqn:Hr'; [|by vm_compute in Hr'].
  exists r, r'. split; [done|]. split; [done|].
  split; [by vm_compute in Hr; simplify_eq | by vm_compute in Hr'; simplify_eq].
Qed.

(** C3 at [two_sites]: the first site's features are found at its
    coordinate, and a coordinate that is no site holds zero. *)
Lemma dense_scatters_features_witness :
  exists r, dense two_sites false = Some r /\
    tget r [0; 0; 1; 0] = 1 /\ tget r [0; 1; 1; 1] = 0.
Proof.
  destruct (dense_scatters_features two_sites 2 2) as (r & Hr & _ & _ & _ & Ha & Hz).
  - by vm_compute.
  - unfold coords_in_bounds.
    replace (coords two_sites) with [[0; 0; 1]; [0; 1; 0]] by (by vm_compute).
    cbn [batch_size spatial_shape two_sites init].
    repeat constructor; lia.
  - replace (coords two_sites) with [[0; 0; 1]; [0; 1; 0]] by (by vm_compute).
    compute_done.
  - exists r. split; [exact Hr|]. split.
    + apply (Ha 0%nat [0; 0; 1] 0); [done | lia].
    + apply (Hz [0; 1; 1] 1); [repeat constructor; lia | | lia].
      replace (coords two_sites) with [[0; 0; 1]; [0; 1; 0]] by (by vm_compute).
      compute_done.
Defined.

(** C1, as amended, at [repeated_site]. *)
Lemma dense_duplicate_rows_succeed_witness :
  exists r r', dense repeated_site false = Some r /\
    dense repeated_site true = Some r' /\
    tshape r = [1; 2; 2; 2] /\ tshape r' = [1; 2; 2; 2].
Proof.
  destruct (dense_duplicate_rows_succeed repeated_site 2 2 0 1 [0; 0; 1])
    as (r & r' & Hr & Hr' & Hs & Hs' & _).
  - by vm_compute.
  - unfold coords_in_bounds.
    replace (coords repeated_site) with [[0; 0; 1]; [0; 0; 1]] by (by vm_compute).
    cbn [batch_size spatial_shape repeated_site init].
    repeat constructor; lia.
  - lia.
  - done.
  - done.
  - exists r, r'. split; [exact Hr|]. split; [exact Hr'|].
    split; [exact Hs | exact Hs'].
Defined.

(** ** Nonzero entries, row by row *)

Lemma nonzero_from_app j l1 l2 :
  nonzero_from j (l1 ++ l2)
  = nonzero_from j l1 ++ nonzero_from (j + Z.of_nat (length l1)) l2.
Proof.
  revert j. induction l1 as [|v l1 IH]; intros j; simpl.
  - f_equal. lia.
  - rewrite IH. replace (j + 1 + Z.of_nat (length l1))
      with (j + Z.pos (Pos.of_succ_nat (length l1))) by lia.
    by destruct (v =? 0).
Qed.

Lemma nonzero_from_shift j l :
  nonzero_from j l = map (fun e => (j + e.1, e.2)) (nonzero_from 0 l).
Proof.
  revert j. induction l as [|v l IH]; intros j; simpl; [done|].
  rewrite (IH (j + 1)), (IH (0 + 1)).
  assert (E : map (fun e : Z * Z => (j + 1 + e.1, e.2)) (nonzero_from 0 l)
            = map (fun e : Z * Z => (j + e.1, e.2))
                  (map (fun e : Z * Z => (0 + 1 + e.1, e.2)) (nonzero_from 0 l))).
  { rewrite map_map. apply map_ext. intros [k w]. simpl. f_equal. lia. }
  destruct (v =? 0); simpl; rewrite E; [done|]. f_equal. f_equal. lia.
Qed.

Lemma nonzero_from_bounds j l k w :
  (k, w) ∈ nonzero_from j l -> j <= k < j + Z.of_nat (length l).
Proof.
  revert j. induction l as [|v l IH]; intros j; simpl.
  - by intros ?%elem_of_nil.
  - destruct (v =? 0).
    + intros H%IH. lia.
    + intros [[= -> ->]|H%IH]%elem_of_cons; lia.
Qed.

Lemma nonzero_from_nil j l : is_active l = false -> nonzero_from j l = [].
Proof.
  revert j. induction l as [|v l IH]; intros j; simpl; [done|].
  destruct (v =? 0); simpl; [apply IH | done].
Qed.

Lemma nonzero_from_active j l : is_active l = true -> nonzero_from j l <> [].
Proof.
  revert j. induction l as [|v l IH]; intros j; simpl; [done|].
  destruct (v =? 0); simpl; [apply IH | done].
Qed.

(** The nonzero entries of a matrix stored row by row. *)
Lemma nonzero_from_rows (c n : nat) j data :
  length data = (n * c)%nat ->
  nonzero_from j data
  = concat (map (fun i => nonzero_from (j + Z.of_nat (i * c))
                            (take c (drop (i * c) data)))
                (seq 0 n)).
Proof.
  revert j data. induction n as [|n IH]; intros j data Hlen.
  - by destruct data.
  - rewrite <- (take_drop c data) at 1. rewrite nonzero_from_app.
    simpl seq. simpl map. simpl concat. rewrite Z.add_0_r. f_equal.
    rewrite length_take, (IH _ (drop c data)) by (rewrite length_drop; lia).
    rewrite <- seq_shift, map_map. f_equal. apply map_ext_in. intros i _.
    rewrite drop_drop. replace (c + i * c)%nat with (S i * c)%nat by lia.
    f_equal. lia.
Qed.

(** ** Runs of equal columns *)

Lemma unique_consecutive_run (a : list Z) n rest :
  (forall b m r, unique_consecutive rest = (b, m) :: r -> a <> b) ->
  unique_consecutive (replicate (S n) a ++ rest)
  = (a, S n) :: unique_consecutive rest.
Proof.
  intros Hhead. induction n as [|n IH].
  - simpl. destruct (unique_consecutive rest) as [|[b m] r] eqn:E; [done|].
    destruct (decide (a = b)) as [->|]; [|done]. by destruct (Hhead b m r).
  - change (replicate (S (S n)) a ++ rest) with (a :: (replicate (S n) a ++ rest)).
    cbn [unique_consecutive]. rewrite IH. by rewrite decide_True.
Qed.

(** ** Filling one row of the feature matrix *)

Lemma fill_row c (i0 : nat) pre post r filled :
  0 <= c -> length pre = (i0 * Z.to_nat c)%nat ->
  (length filled + length r)%nat = Z.to_nat c ->
  foldl (add_entry c) (pre ++ filled ++ replicate (length r) 0 ++ post)
        (map (fun e => ((Z.of_nat i0, e.1), e.2))
             (nonzero_from (Z.of_nat (length filled)) r))
  = pre ++ filled ++ r ++ post.
Proof.
  intros Hc Hpre. revert filled. induction r as [|v r IH]; intros filled Hlen; [done|].
  simpl in Hlen.
  assert (Hnext : forall w,
    foldl (add_entry c) (pre ++ filled ++ (w :: replicate (length r) 0) ++ post)
          (map (fun e => ((Z.of_nat i0, e.1), e.2))
               (nonzero_from (Z.of_nat (length filled) + 1) r))
    = pre ++ filled ++ (w :: r) ++ post).
  { intros w.
    replace (Z.of_nat (length filled) + 1) with (Z.of_nat (length (filled ++ [w])))
      by (rewrite length_app; simpl; lia).
    specialize (IH (filled ++ [w])). rewrite <- !app_assoc in IH. simpl in IH.
    apply IH. rewrite length_app. simpl. lia. }
  cbn [nonzero_from length replicate]. destruct (Z.eqb_spec v 0) as [->|Hv].
  - apply Hnext.
  - cbn [map foldl]. rewrite <- Hnext. f_equal.
    unfold add_entry. cbn [fst snd].
    replace (Z.to_nat (Z.of_nat i0 * c + Z.of_nat (length filled)))
      with (length (pre ++ filled) + 0)%nat by (rewrite length_app; nia).
    rewrite (app_assoc pre filled), alter_app_r. cbn [alter list_alter].
    rewrite <- app_assoc. simpl. do 3 f_equal. lia.
Qed.

Lemma zip_replicate_block (a : Z) (es : list (Z * Z)) :
  zip (zip (replicate (length es) a) (map fst es)) (map snd es)
  = map (fun e => ((a, e.1), e.2)) es.
Proof. induction es as [|[k v] es IH]; simpl; [done | by rewrite IH]. Qed.

(** ** The feature matrix assembled from the blocks of nonzero entries

    A block is a pair of a key (the coordinates of a position) and the
    feature row stored there. *)

Section Blocks.
Implicit Types (G : list (list Z * list Z)).

Local Abbreviation nz r := (nonzero_from 0 r).
Local Abbreviation counts G := (map (fun kr : list Z * list Z => length (nz kr.2)) G).
Local Abbreviation lasts G := (concat (map (fun kr : list Z * list Z => map fst (nz kr.2)) G)).
Local Abbreviation vals G := (concat (map (fun kr : list Z * list Z => map snd (nz kr.2)) G)).
Local Abbreviation labels i0 G :=
  (concat (imap (fun (i n : nat) => replicate n (Z.of_nat (i0 + i))) (counts G))).

Lemma labels_cons (i0 : nat) kr G :
  labels i0 (kr :: G)
  = replicate (length (nz kr.2)) (Z.of_nat i0) ++ labels (S i0) G.
Proof.
  cbn [map]. rewrite imap_cons. cbn [concat]. rewrite Nat.add_0_r. f_equal. f_equal.
  apply imap_ext. intros i n _. simpl. do 2 f_equal. lia.
Qed.

Lemma fold_blocks c G (i0 : nat) pre :
  0 <= c ->
  Forall (fun kr => length kr.2 = Z.to_nat c) G ->
  length pre = (i0 * Z.to_nat c)%nat ->
  foldl (add_entry c) (pre ++ replicate (length G * Z.to_nat c) 0)
        (zip (zip (labels i0 G) (lasts G)) (vals G))
  = pre ++ concat (map snd G).
Proof.
  intros Hc HG. revert i0 pre.
  induction HG as [|[key r] G Hr _ IH]; intros i0 pre Hpre.
  { simpl. by rewrite app_nil_r. }
  rewrite labels_cons. cbn [map concat fst snd length] in *.
  rewrite !zip_with_app by (by rewrite ?length_zip_with, ?length_replicate, !length_map;
                            try lia).
  rewrite foldl_app, zip_replicate_block.
  replace (S (length G) * Z.to_nat c)%nat with (length r + length G * Z.to_nat c)%nat
    by lia.
  rewrite replicate_add.
  pose proof (fill_row c i0 pre (replicate (length G * Z.to_nat c) 0) r [] Hc Hpre)
    as Hfill.
  cbn [length app] in Hfill. change (Z.of_nat 0) with 0 in Hfill. rewrite Hfill by lia.
  rewrite app_assoc, IH; [by rewrite <- app_assoc|].
  rewrite length_app. lia.
Qed.

Lemma labels_bounds (i0 : nat) G (i : Z) :
  i ∈ labels i0 G -> Z.of_nat i0 <= i < Z.of_nat (i0 + length G).
Proof.
  intros Hi. apply list_elem_of_In, in_concat in Hi as (l & Hl & Hil).
  apply list_elem_of_In, elem_of_lookup_imap in Hl as (idx & n & -> & Hidx).
  apply list_elem_of_In, elem_of_replicate in Hil as [-> _].
  apply lookup_lt_Some in Hidx. rewrite length_map in Hidx. lia.
Qed.

Lemma lasts_bounds c G (j : Z) :
  Forall (fun kr => length kr.2 = Z.to_nat c) G ->
  j ∈ lasts G -> 0 <= j < c.
Proof.
  intros HG Hj. apply list_elem_of_In, in_concat in Hj as (l & Hl & Hjl).
  apply in_map_iff in Hl as ([key r] & <- & Hkr). cbn [snd] in Hjl.
  apply in_map_iff in Hjl as ([k v] & <- & Hkv). cbn [fst].
  apply list_elem_of_In, nonzero_from_bounds in Hkv.
  rewrite Forall_forall in HG. apply list_elem_of_In, HG in Hkr. cbn [snd] in Hkr.
  lia.
Qed.

Lemma sparse_to_dense_blocks c G :
  0 <= c ->
  Forall (fun kr => length kr.2 = Z.to_nat c) G ->
  sparse_to_dense (zip (labels 0 G) (lasts G)) (vals G) (Z.of_nat (length G)) c
  = Some (mkTensor [Z.of_nat (length G); c] (concat (map snd G))).
Proof.
  intros Hc HG. unfold sparse_to_dense.
  rewrite (proj2 (forallb_forall _ _)).
  - f_equal. f_equal.
    replace (Z.to_nat (Z.of_nat (length G) * c)) with (length G * Z.to_nat c)%nat
      by nia.
    apply (fold_blocks c G 0 [] Hc HG). done.
  - intros [i j] Hij%list_elem_of_In.
    apply elem_of_zip_l in Hij as Hi. apply elem_of_zip_r in Hij as Hj.
    apply labels_bounds in Hi. apply (lasts_bounds c) in Hj; [|done].
    repeat (apply andb_true_intro; split); lia.
Qed.

(** [to_sparse_dim] on a tensor whose nonzero entries come in blocks, one
    block per key, keys pairwise different. *)
Lemma to_sparse_dim_blocks x c G :
  (2 <= length (tshape x))%nat ->
  to_sparse x
  = concat (map (fun kr => map (fun e => (kr.1 ++ [e.1], e.2)) (nz kr.2)) G) ->
  last (tshape x) = Some c -> 0 <= c ->
  Forall (fun kr => length kr.2 = Z.to_nat c) G ->
  Forall (fun kr => is_active kr.2 = true) G ->
  NoDup (map fst G) ->
  to_sparse_dim x
  = Some (mkTensor [Z.of_nat (length G); c] (concat (map snd G)), map fst G).
Proof.
  intros Hdim HE Hlast Hc Hlen Hact Hnd. unfold to_sparse_dim.
  rewrite HE, Hlast.
  set (ent := fun kr : list Z * list Z =>
                map (fun e : Z * Z => (kr.1 ++ [e.1], e.2)) (nz kr.2)).
  assert (Hidx : map (fun e : list Z * Z => removelast e.1) (concat (map ent G))
                 = concat (map (fun kr => replicate (length (nz kr.2)) kr.1) G)).
  { rewrite concat_map, map_map. f_equal. apply map_ext. intros [key r].
    subst ent. cbn [fst snd]. rewrite map_map. cbn [fst].
    induction (nz r) as [|e es IH]; [done|]. simpl. by rewrite removelast_last, IH. }
  assert (Hlasts : mapM (fun e : list Z * Z => last e.1) (concat (map ent G))
                   = Some (lasts G)).
  { apply mapM_Some_2. clear -G. induction G as [|[key r] G IH]; [constructor|].
    cbn [map concat]. apply Forall2_app; [|exact IH].
    subst ent. cbn [fst snd]. induction (nz r) as [|e es IHes]; [constructor|].
    cbn [map]. constructor; [|exact IHes]. cbn [fst]. by rewrite last_snoc. }
  assert (Hvals : map snd (concat (map ent G)) = vals G).
  { rewrite concat_map, map_map. f_equal. apply map_ext. intros [key r].
    subst ent. cbn [fst snd]. by rewrite map_map. }
  assert (Huc : unique_consecutive
                  (concat (map (fun kr => replicate (length (nz kr.2)) kr.1) G))
                = map (fun kr => (kr.1, length (nz kr.2))) G).
  { clear -Hact Hnd. induction G as [|[key r] G IH]; [done|].
    apply Forall_cons in Hact as [Hr Hact]. cbn [map fst snd] in *.
    apply NoDup_cons in Hnd as [Hkey Hnd]. cbn [concat].
    destruct (nz r) as [|e es] eqn:Hnz.
    { by apply (nonzero_from_active 0) in Hr. }
    cbn [length]. rewrite unique_consecutive_run; rewrite IH by done; [done|].
    intros b m rest Hhead -> . apply Hkey.
    destruct G as [|[key' r'] G]; [done|]. simplify_eq/=. left. }
  rewrite Hidx, Hlasts, Hvals, Huc. cbn [mbind option_bind].
  rewrite option_guard_True by done. cbn [mbind option_bind].
  rewrite !map_map. cbn [fst snd].
  change (map (fun x0 : list Z * list Z => x0.1) G) with (map fst G).
  rewrite length_map.
  pose proof (sparse_to_dense_blocks c G Hc Hlen) as Hsd.
  erewrite (imap_ext _ (fun (i n : nat) => replicate n (Z.of_nat (0 + i)))); [|done].
  by rewrite Hsd.
Qed.

End Blocks.

(** ** [from_dense] on a channel-last dense input *)

Lemma concat_map_filter {A B} (P : A -> Prop) `{forall a, Decision (P a)}
    (f : A -> list B) (l : list A) :
  (forall a, ~ P a -> f a = []) ->
  concat (map f l) = concat (map f (filter P l)).
Proof.
  intros Hf. induction l as [|a l IH]; [done|].
  rewrite filter_cons. destruct (decide (P a)) as [|Hn]; simpl.
  - by rewrite IH.
  - by rewrite (Hf a Hn), IH.
Qed.

Lemma dense_input_shape x :
  dense_input x ->
  exists c, tshape x = lead_shape x ++ [c] /\ last (tshape x) = Some c /\
    List.last (tshape x) 0 = c /\
    0 <= c < 2 ^ 63 /\ Forall (fun d => 0 <= d) (lead_shape x) /\
    length (tdata x) = (Z.to_nat (numel (lead_shape x)) * Z.to_nat c)%nat /\
    0 <= numel (lead_shape x).
Proof.
  intros (Hnd & Hv & Hlen & _). unfold lead_shape.
  destruct (tshape x) as [|d0 sh0] eqn:Hs; [simpl in Hnd; lia|].
  destruct (exists_last (l := d0 :: sh0)) as (lead & c & E); [done|].
  rewrite E in *. clear E.
  exists c. rewrite removelast_last, last_snoc, List.last_last.
  rewrite forallb_app in Hv. apply andb_true_iff in Hv as [Hvl Hvc].
  simpl in Hvc. rewrite andb_true_r in Hvc. apply valid_size_spec in Hvc.
  apply valid_sizes_nonneg in Hvl as Hnn. pose proof (numel_nonneg _ Hnn) as HP.
  repeat (split; [done|]). split; [|done].
  rewrite numel_app in Hlen. simpl in Hlen. nia.
Qed.

Lemma feature_row_length x c (i : nat) :
  List.last (tshape x) 0 = c ->
  length (tdata x) = (Z.to_nat (numel (lead_shape x)) * Z.to_nat c)%nat ->
  (i < Z.to_nat (numel (lead_shape x)))%nat ->
  length (feature_row x i) = Z.to_nat c.
Proof.
  intros Hc Hlen Hi. unfold feature_row. rewrite Hc, length_take, length_drop. nia.
Qed.

Lemma to_sparse_blocks x :
  dense_input x ->
  to_sparse x
  = concat (map (fun kr : list Z * list Z =>
                   map (fun e : Z * Z => (kr.1 ++ [e.1], e.2)) (nonzero_from 0 kr.2))
                (map (fun i => (unravel (lead_shape x) (Z.of_nat i), feature_row x i))
                     (active_positions x))).
Proof.
  intros Hx. destruct (dense_input_shape x Hx) as (c & Hs & _ & Hc & Hcr & Hnn & Hlen & HP).
  set (F := fun i : nat =>
              map (fun e : Z * Z => (unravel (lead_shape x) (Z.of_nat i) ++ [e.1], e.2))
                  (nonzero_from 0 (feature_row x i))).
  assert (H1 : to_sparse x = concat (map F (seq 0 (Z.to_nat (numel (lead_shape x)))))).
  { unfold to_sparse.
    rewrite (nonzero_from_rows (Z.to_nat c) (Z.to_nat (numel (lead_shape x))) 0 _ Hlen).
    rewrite concat_map, map_map. f_equal.
    apply map_ext_in. intros i Hi%in_seq. subst F. cbn beta.
    assert (Hrow : take (Z.to_nat c) (drop (i * Z.to_nat c) (tdata x)) = feature_row x i)
      by (unfold feature_row; by rewrite Hc).
    rewrite Hrow, nonzero_from_shift, map_map. apply map_ext_in.
    intros [k v] Hkv%list_elem_of_In%nonzero_from_bounds. cbn [fst snd].
    rewrite (feature_row_length x c) in Hkv by (done || lia).
    f_equal. rewrite Hs.
    rewrite unravel_snoc by (done || lia || nia).
    replace (0 + Z.of_nat (i * Z.to_nat c) + k) with (k + Z.of_nat i * c) by nia.
    rewrite Z.div_add, Z.mod_add by lia.
    rewrite Z.div_small, Z.mod_small by lia. done. }
  rewrite H1.
  rewrite (concat_map_filter (fun i => is_active (feature_row x i) = true) F).
  2:{ intros i Hi. apply not_true_is_false in Hi. subst F. cbn beta.
      by rewrite (nonzero_from_nil 0 _ Hi). }
  unfold active_positions. by rewrite map_map.
Qed.

Lemma active_positions_lt x (i : nat) :
  i ∈ active_positions x ->
  (i < Z.to_nat (numel (lead_shape x)))%nat /\ is_active (feature_row x i) = true.
Proof.
  unfold active_positions. rewrite list_elem_of_filter, elem_of_seq.
  intros [? ?]. split; [lia | done].
Qed.

Lemma active_positions_NoDup x : NoDup (active_positions x).
Proof. apply NoDup_filter, NoDup_seq. Qed.

Section FromDense.
Context {RB : Type}.

(** What [from_dense] returns: one site per position that holds a nonzero
    entry, in row-major order, with the position's coordinates cut to 32
    bits and its whole feature vector. *)
Lemma from_dense_eq x :
  dense_input x ->
  exists b c,
    head (tshape x) = Some b /\ last (tshape x) = Some c /\
    @from_dense RB x
    = Some (init
        (mkTensor [Z.of_nat (length (active_positions x)); c]
           (concat (map (feature_row x) (active_positions x))))
        (mkTensor [Z.of_nat (length (active_positions x));
                   Z.of_nat (length (tshape x)) - 1]
           (concat (map (fun i => map to_int32 (unravel (lead_shape x) (Z.of_nat i)))
                        (active_positions x))))
        (removelast (tail (tshape x))) b None).
Proof.
  intros Hx.
  destruct (dense_input_shape x Hx) as (c & Hs & Hl & Hc & Hcr & Hnn & Hlen & HP).
  pose proof Hx as (Hnd & _ & _ & _).
  assert (exists b, head (tshape x) = Some b) as [b Hb].
  { destruct (tshape x); [simpl in Hnd; lia | eauto]. }
  exists b, c. split; [done|]. split; [done|].
  unfold from_dense. rewrite Hb. cbn [mbind option_bind].
  set (G := map (fun i => (unravel (lead_shape x) (Z.of_nat i), feature_row x i))
                (active_positions x)).
  rewrite (to_sparse_dim_blocks x c G).
  - cbn [mbind option_bind].
    rewrite option_guard_True by lia. subst G.
    rewrite !length_map, !map_map. cbn [fst snd]. reflexivity.
  - exact Hnd.
  - apply to_sparse_blocks, Hx.
  - done.
  - lia.
  - subst G. apply Forall_forall. intros kr Hkr.
    change (map ?f ?l) with (f <$> l) in Hkr.
    apply list_elem_of_fmap in Hkr as (i & -> & Hi%active_positions_lt).
    cbn [snd]. apply (feature_row_length x c); [done | done | apply Hi].
  - subst G. apply Forall_forall. intros kr Hkr.
    change (map ?f ?l) with (f <$> l) in Hkr.
    apply list_elem_of_fmap in Hkr as (i & -> & Hi%active_positions_lt).
    cbn [snd]. apply Hi.
  - subst G. rewrite map_map. cbn [fst].
    change (map ?f ?l) with (f <$> l).
    apply NoDup_fmap_2_strong; [|apply active_positions_NoDup].
    intros i j Hi%active_positions_lt Hj%active_positions_lt E.
    apply unravel_inj in E; [lia | done | lia | lia].
Qed.

End FromDense.

(** ** Matrices given by their rows *)

Lemma chunks_concat (n : nat) (ls : list (list Z)) :
  Forall (fun l => length l = n) ls ->
  chunks n (length ls) (concat ls) = ls.
Proof.
  induction 1 as [|l ls Hl _ IH]; [done|]. cbn [length chunks concat].
  rewrite take_app_length', drop_app_length' by done. by rewrite IH.
Qed.

Lemma length_concat_rows (n : nat) (ls : list (list Z)) :
  Forall (fun l => length l = n) ls ->
  length (concat ls) = (length ls * n)%nat.
Proof.
  induction 1 as [|l ls Hl _ IH]; [done|]. cbn [length concat].
  rewrite length_app, IH, Hl. lia.
Qed.

Lemma lookup_concat_rows (n : nat) (ls : list (list Z)) (i k : nat) l :
  Forall (fun l => length l = n) ls ->
  ls !! i = Some l -> (k < n)%nat ->
  concat ls !! (i * n + k)%nat = l !! k.
Proof.
  intros Hls. revert i. induction Hls as [|l0 ls Hl _ IH]; intros i Hi Hk.
  { by rewrite lookup_nil in Hi. }
  cbn [concat]. destruct i as [|i]; simplify_eq/=.
  - by rewrite lookup_app_l by lia.
  - rewrite lookup_app_r by lia.
    replace (length l0 + i * length l0 + k - length l0)%nat
      with (i * length l0 + k)%nat by lia.
    by apply IH.
Qed.

Lemma inactive_lookup r (k : nat) :
  is_active r = false -> (k < length r)%nat -> r !! k = Some 0.
Proof.
  revert k. induction r as [|v r IH]; intros k Hr Hk; simpl in *; [lia|].
  apply orb_false_iff in Hr as [Hv Hr]. apply negb_false_iff, Z.eqb_eq in Hv.
  destruct k as [|k]; simpl; [by subst | apply IH; [done | lia]].
Qed.

Lemma unravel_length shape j : length (unravel shape j) = length shape.
Proof. revert j. induction shape as [|d shape IH]; intros j; simpl; [done | by rewrite IH]. Qed.

Lemma in_bounds_to_int32 shape idx :
  Forall (fun d => d <= 2 ^ 31) shape -> in_bounds shape idx ->
  map to_int32 idx = idx.
Proof.
  intros Hs Hb. revert Hs. induction Hb as [|d i shape idx Hi _ IH]; intros Hs; [done|].
  apply Forall_cons in Hs as [Hd Hs]. simpl. rewrite IH by done.
  rewrite to_int32_small; [done | lia].
Qed.

Lemma active_positions_no_channels x :
  List.last (tshape x) 0 = 0 -> active_positions x = [].
Proof.
  intros Hc. unfold active_positions.
  induction (seq 0 _) as [|i l IH]; [done|].
  rewrite filter_cons_False; [done|].
  unfold feature_row. rewrite Hc. by simpl.
Qed.

Lemma active_positions_length x :
  (length (active_positions x) <= Z.to_nat (numel (lead_shape x)))%nat.
Proof.
  unfold active_positions.
  etransitivity; [apply length_filter|]. by rewrite length_seq.
Qed.

Section FromDenseSites.
Context {RB : Type}.

(** The tensor [from_dense] builds, field by field. *)
Lemma from_dense_sites x :
  dense_input x ->
  exists (t : SparseConvTensor RB) c,
    from_dense x = Some t /\
    last (tshape x) = Some c /\
    lead_shape x = batch_size t :: spatial_shape t /\
    sparse_wf t (Z.of_nat (length (active_positions x))) c /\
    coords t = map (fun i => map to_int32 (unravel (lead_shape x) (Z.of_nat i)))
                   (active_positions x) /\
    trows (features t) = map (feature_row x) (active_positions x) /\
    tdata (features t) = concat (map (feature_row x) (active_positions x)).
Proof.
  intros Hx.
  destruct (from_dense_eq (RB := RB) x Hx) as (b & c & Hb & Hl & Heq).
  destruct (dense_input_shape x Hx) as (c' & Hs & Hl' & Hc & Hcr & Hnn & Hlen & HP).
  assert (c' = c) as -> by congruence.
  pose proof Hx as (Hnd & Hv & Hlen' & Hnumel).
  eexists _, c. split; [exact Heq|]. split; [done|].
  set (Q := active_positions x) in *.
  assert (Hlead : lead_shape x = b :: removelast (tail (tshape x))).
  { unfold lead_shape. destruct (tshape x) as [|b' [|d sh]]; simpl in Hnd; try lia.
    by simplify_eq/=. }
  assert (Hrows : Forall (fun l => length l = Z.to_nat c) (map (feature_row x) Q)).
  { apply Forall_forall. intros l Hin. change (map ?f ?l) with (f <$> l) in Hin.
    apply list_elem_of_fmap in Hin as (i & -> & Hi%active_positions_lt).
    apply (feature_row_length x c); [done | done | apply Hi]. }
  assert (Hcrows : Forall (fun l => length l = S (length (removelast (tail (tshape x)))))
                     (map (fun i => map to_int32 (unravel (lead_shape x) (Z.of_nat i))) Q)).
  { apply Forall_forall. intros l Hin. change (map ?f ?l) with (f <$> l) in Hin.
    apply list_elem_of_fmap in Hin as (i & -> & _).
    by rewrite length_map, unravel_length, Hlead. }
  assert (HK : Z.of_nat (length (tshape x)) - 1
               = Z.of_nat (length (removelast (tail (tshape x)))) + 1).
  { rewrite Hs at 1. rewrite length_app, Hlead. simpl. lia. }
  cbn [init batch_size spatial_shape features indices].
  split; [done|]. split; [|split; [|split; [|done]]].
  - unfold sparse_wf. cbn [init batch_size spatial_shape features indices tshape tdata].
    split; [done|]. split.
    { rewrite (length_concat_rows _ _ Hrows), length_map. nia. }
    split; [by rewrite HK|]. split.
    { rewrite (length_concat_rows _ _ Hcrows), length_map. nia. }
    cbn [forallb]. rewrite Hs, Hlead in Hv. cbn [app forallb] in Hv.
    apply andb_true_iff in Hv as [Hvb Hv]. rewrite forallb_app in Hv.
    apply andb_true_iff in Hv as [Hvs Hvc]. rewrite Hvb, Hvs. cbn [forallb] in Hvc.
    rewrite andb_true_r in Hvc. rewrite Hvc, !andb_true_r.
    apply valid_size_spec. split; [lia|].
    destruct (decide (c = 0)) as [->|Hc0].
    + subst Q. rewrite active_positions_no_channels by done. simpl. lia.
    + pose proof (active_positions_length x). fold Q in H.
      rewrite Hs, numel_app in Hnumel. simpl in Hnumel. nia.
  - unfold coords, trows. cbn [init indices tshape tdata]. rewrite HK.
    replace (Z.to_nat (Z.of_nat (length (removelast (tail (tshape x)))) + 1))
      with (S (length (removelast (tail (tshape x))))) by lia.
    rewrite Nat2Z.id.
    rewrite <- (length_map (fun i => map to_int32 (unravel (lead_shape x) (Z.of_nat i))) Q) at 1.
    by apply chunks_concat.
  - unfold trows. cbn [init features tshape tdata]. rewrite Nat2Z.id.
    rewrite <- (length_map (feature_row x) Q) at 1.
    by apply chunks_concat.
Qed.

End FromDenseSites.

Section RoundTrip.
Context {RB : Type}.

Lemma position_in_bounds x (i : nat) :
  dense_input x -> (i < Z.to_nat (numel (lead_shape x)))%nat ->
  in_bounds (lead_shape x) (unravel (lead_shape x) (Z.of_nat i)) /\
  Z.to_nat (ravel (lead_shape x) (unravel (lead_shape x) (Z.of_nat i))) = i.
Proof.
  intros Hx Hi.
  destruct (dense_input_shape x Hx) as (c & _ & _ & _ & _ & Hnn & _ & HP).
  destruct (unravel_spec (lead_shape x) (Z.of_nat i) Hnn) as [Hb Hr]; [lia|].
  split; [done|]. rewrite Hr. lia.
Qed.

(** With extents of at most [2 ^ 31] the stored coordinates are the
    positions themselves. *)
Lemma coords_fit x :
  dense_input x -> Forall (fun d => d <= 2 ^ 31) (lead_shape x) ->
  map (fun i => map to_int32 (unravel (lead_shape x) (Z.of_nat i))) (active_positions x)
  = map (fun i => unravel (lead_shape x) (Z.of_nat i)) (active_positions x).
Proof.
  intros Hx Hfit. apply map_ext_in. intros i Hi%list_elem_of_In%active_positions_lt.
  apply (in_bounds_to_int32 (lead_shape x)); [done|].
  apply position_in_bounds; [done | apply Hi].
Qed.

Lemma offsets_of_positions x :
  dense_input x ->
  map (fun row => Z.to_nat (ravel (lead_shape x) row))
      (map (fun i => unravel (lead_shape x) (Z.of_nat i)) (active_positions x))
  = active_positions x.
Proof.
  intros Hx. rewrite map_map. rewrite <- (map_id (active_positions x)) at 2.
  apply map_ext_in. intros i Hi%list_elem_of_In%active_positions_lt.
  apply position_in_bounds; [done | apply Hi].
Qed.

Lemma feature_row_lookup x c (p k : nat) :
  List.last (tshape x) 0 = c -> (k < Z.to_nat c)%nat ->
  feature_row x p !! k = tdata x !! (p * Z.to_nat c + k)%nat.
Proof.
  intros Hc Hk. unfold feature_row. rewrite Hc.
  rewrite lookup_take_lt by done. by rewrite lookup_drop.
Qed.

End RoundTrip.

Section FromDenseClaims.
Context {RB : Type}.

(** C2, as amended: [from_dense] keeps a position exactly when its feature
    vector has a nonzero entry.  The sites of the result are the positions
    of [active_positions], in row-major order, each with its coordinates
    (cut to 32 bits) and its whole feature vector; a position whose feature
    vector is all zero gets no row.  In terms of coordinates, for extents
    of at most [2 ^ 31]: a position of the input is a coordinate row of the
    result exactly when its feature vector has a nonzero entry. *)
Theorem from_dense_keeps_nonzero_positions x :
  dense_input x ->
  exists t : SparseConvTensor RB,
    from_dense x = Some t /\
    coords t = map (fun i => map to_int32 (unravel (lead_shape x) (Z.of_nat i)))
                   (active_positions x) /\
    trows (features t) = map (feature_row x) (active_positions x) /\
    (forall i : nat,
       i ∈ active_positions x <->
       (i < Z.to_nat (numel (lead_shape x)))%nat /\
       is_active (feature_row x i) = true) /\
    (Forall (fun d => d <= 2 ^ 31) (lead_shape x) ->
     forall pos row,
       feature_at x pos = Some row ->
       (pos ∈ coords t <-> is_active row = true)).
Proof.
  intros Hx.
  destruct (from_dense_sites (RB := RB) x Hx)
    as (t & c & Ht & _ & _ & _ & Hcoords & Hrows & _).
  exists t. repeat (split; [done|]).
  assert (Hmem : forall i : nat,
            i ∈ active_positions x <->
            (i < Z.to_nat (numel (lead_shape x)))%nat /\
            is_active (feature_row x i) = true).
  { intros i. unfold active_positions. rewrite list_elem_of_filter, elem_of_seq.
    split; intros [? ?]; (split; [done || lia | done || lia]). }
  split; [exact Hmem|].
  intros Hfit pos row Hfa. unfold feature_at in Hfa.
  case_guard; [|done]. simplify_eq/=.
  rewrite Hcoords, (coords_fit x Hx Hfit).
  pose proof (ravel_bounds _ _ H) as Hr.
  change (map ?f ?l) with (f <$> l). rewrite list_elem_of_fmap. split.
  - intros (j & -> & Hj). apply Hmem in Hj as [Hj Hact].
    destruct (position_in_bounds x j Hx Hj) as [_ ->]. exact Hact.
  - intros Hact. exists (Z.to_nat (ravel (lead_shape x) pos)). split.
    + rewrite Z2Nat.id by lia. symmetry. by apply unravel_ravel.
    + apply Hmem. split; [lia | exact Hact].
Qed.

(** C5, as amended: for a channel-last dense input whose batch and spatial
    extents are at most [2 ^ 31], the tensor [from_dense] returns has as
    many feature rows as coordinate rows, and each feature row is the
    feature vector of the input at the coordinates stored in the same row of
    [indices]. *)
Theorem from_dense_row_aligned x :
  dense_input x -> Forall (fun d => d <= 2 ^ 31) (lead_shape x) ->
  exists (t : SparseConvTensor RB) n c,
    from_dense x = Some t /\
    tshape (features t) = [n; c] /\
    tshape (indices t) = [n; Z.of_nat (length (lead_shape x))] /\
    length (trows (features t)) = Z.to_nat n /\
    length (coords t) = Z.to_nat n /\
    Forall2 (fun pos row => feature_at x pos = Some row)
            (coords t) (trows (features t)).
Proof.
  intros Hx Hfit.
  destruct (from_dense_sites (RB := RB) x Hx)
    as (t & c & Ht & _ & Hlead & Hwf & Hcoords & Hrows & _).
  rewrite (coords_fit x Hx Hfit) in Hcoords.
  exists t, (Z.of_nat (length (active_positions x))), c.
  destruct Hwf as (Hf & _ & Hi & _).
  split; [done|]. split; [done|]. split.
  { rewrite Hi, Hlead. simpl. do 2 f_equal. lia. }
  rewrite Hcoords, Hrows, !length_map, Nat2Z.id. split; [done|]. split; [done|].
  change (map ?f ?l) with (f <$> l). apply Forall2_fmap, Forall_Forall2_diag.
  apply Forall_forall. intros i Hi'%active_positions_lt.
  destruct (position_in_bounds x i Hx) as [Hb Hr]; [apply Hi'|].
  unfold feature_at. rewrite option_guard_True by done. by rewrite Hr.
Qed.

(** C9, as amended: for a channel-last dense input whose batch and spatial
    extents are at most [2 ^ 31], converting to sparse and back with
    [dense(channels_first=False)] returns the input. *)
Theorem from_dense_dense_round_trip x :
  dense_input x -> Forall (fun d => d <= 2 ^ 31) (lead_shape x) ->
  exists t : SparseConvTensor RB,
    from_dense x = Some t /\ dense t false = Some x.
Proof.
  intros Hx Hfit.
  destruct (from_dense_sites (RB := RB) x Hx)
    as (t & c & Ht & Hl & Hlead & Hwf & Hcoords & Hrows & Hfdata).
  destruct (dense_input_shape x Hx) as (c' & Hs & Hl' & Hc & Hcr & Hnn & Hlen & HP).
  assert (c' = c) as -> by congruence.
  exists t. split; [done|].
  rewrite (coords_fit x Hx Hfit) in Hcoords.
  assert (Hb : coords_in_bounds t).
  { unfold coords_in_bounds. rewrite Hcoords, <- Hlead. apply Forall_forall.
    intros pos Hin. change (map ?f ?l) with (f <$> l) in Hin.
    apply list_elem_of_fmap in Hin as (i & -> & Hi%active_positions_lt).
    apply position_in_bounds; [done | apply Hi]. }
  pose proof (writes_ok t _ c Hwf Hb) as Hws.
  rewrite (dense_false_eq t _ c Hwf Hb). rewrite Nat2Z.id in *.
  rewrite <- Hlead in *. rewrite Hcoords, (offsets_of_positions x Hx) in *.
  set (Q := active_positions x) in *.
  change (batch_size t :: spatial_shape t ++ [c])
    with ((batch_size t :: spatial_shape t) ++ [c]) in *.
  rewrite <- Hlead, <- Hs in *.
  destruct x as [xshape xdata]. cbn [tshape tdata] in *. f_equal. f_equal.
  set (D := foldl _ _ _) in *.
  assert (HlenD : length D = length xdata).
  { subst D. rewrite foldl_put_row_length, length_replicate.
    destruct Hx as (_ & _ & Hlen' & _). cbn [tshape tdata] in Hlen'. lia. }
  apply list_eq. intros idx.
  destruct (decide (idx < length xdata)%nat) as [Hidx|Hidx].
  2:{ rewrite !(proj2 (lookup_ge_None _ _)); [done | lia | lia]. }
  assert (0 < Z.to_nat c)%nat as HC by nia.
  pose proof (Nat.div_mod_eq idx (Z.to_nat c)) as Hdm.
  pose proof (Nat.mod_upper_bound idx (Z.to_nat c)) as Hmod.
  set (p := (idx / Z.to_nat c)%nat) in *. set (k := (idx mod Z.to_nat c)%nat) in *.
  clearbody p k. assert (idx = p * Z.to_nat c + k)%nat as -> by lia. clear Hdm.
  assert (p < Z.to_nat (numel (lead_shape (mkTensor xshape xdata))))%nat as Hp by nia.
  destruct (foldl_put_row_lookup (Z.to_nat c) (tdata (features t)) (zip (seq 0 (length Q)) Q)
              (replicate (Z.to_nat (numel xshape)) 0) p k) as [Hnone Hsome];
    [lia | exact Hws |].
  fold D in Hnone, Hsome.
  pose proof (feature_row_lookup (mkTensor xshape xdata) c p k Hc) as Hfr.
  cbn [tdata] in Hfr. rewrite <- Hfr by lia. clear Hfr.
  destruct (decide (p ∈ Q)) as [Hin|Hnotin].
  - apply list_elem_of_lookup in Hin as [i Hi].
    rewrite (Hsome i i).
    + rewrite Hfdata. apply lookup_concat_rows with (l := feature_row (mkTensor xshape xdata) p).
      * apply Forall_forall. intros l Hl0. change (map ?f ?l) with (f <$> l) in Hl0.
        apply list_elem_of_fmap in Hl0 as (j & -> & Hj%active_positions_lt).
        apply (feature_row_length _ c); [done | done | apply Hj].
      * change (map ?f ?l) with (f <$> l). by rewrite list_lookup_fmap, Hi.
      * lia.
    + apply lookup_zip_with_Some. exists i, p. split; [done|]. split; [|done].
      apply lookup_seq. split; [done|]. by eapply lookup_lt_Some.
    + intros k' [j' q'] Hlt Hw' E. cbn [snd] in E. subst q'.
      apply lookup_zip_with_Some in Hw' as (j'' & q' & [= -> ->] & _ & Hq').
      pose proof (NoDup_lookup _ _ _ _ (active_positions_NoDup _) Hi Hq'). lia.
  - rewrite Hnone.
    + rewrite lookup_replicate_2 by (rewrite <- HlenD in Hidx; subst D;
        rewrite foldl_put_row_length, length_replicate in Hidx; lia).
      symmetry. apply inactive_lookup.
      * apply not_true_is_false. intros Hact. apply Hnotin.
        subst Q. unfold active_positions. apply list_elem_of_filter.
        split; [done|]. apply elem_of_seq. lia.
      * rewrite (feature_row_length _ c); [lia | done | done | done].
    + apply Forall_forall. intros [j' q'] Hw'. cbn [snd]. intros ->.
      apply elem_of_zip_r in Hw'. done.
Qed.

End FromDenseClaims.

(** ** Extents beyond 32 bits *)

Lemma filter_none {A} (P : A -> Prop) `{forall a, Decision (P a)} (l : list A) :
  Forall (fun a => ~ P a) l -> filter P l = [].
Proof.
  induction 1 as [|a l Ha _ IH]; [done|]. by rewrite filter_cons_False.
Qed.

Section Wide.
Variable n : nat.
Hypothesis Hn : Z.of_nat n = 2 ^ 31.

Lemma wide_tensor_dense_input : dense_input (wide_tensor n).
Proof.
  unfold dense_input, wide_tensor. cbn [tshape tdata].
  split; [simpl; lia|]. split; [reflexivity|].
  rewrite length_app, length_replicate. cbn [numel foldr length]. lia.
Qed.

Lemma wide_tensor_row (i : nat) :
  (i <= n)%nat ->
  feature_row (wide_tensor n) i = [if decide (i = n) then 1 else 0].
Proof.
  intros Hi. unfold feature_row, wide_tensor. cbn [tshape tdata].
  change (Z.to_nat (List.last [1; 2 ^ 31 + 1; 1] 0)) with 1%nat.
  rewrite Nat.mul_1_r. destruct (decide (i = n)) as [->|Hne].
  - rewrite drop_app_length'; [done | by rewrite length_replicate].
  - rewrite drop_app_le by (rewrite length_replicate; lia).
    rewrite drop_replicate.
    destruct (n - i)%nat as [|k] eqn:E; [lia|]. done.
Qed.

Lemma wide_tensor_active : active_positions (wide_tensor n) = [n].
Proof.
  unfold active_positions.
  change (lead_shape (wide_tensor n)) with [1; 2 ^ 31 + 1].
  replace (Z.to_nat (numel [1; 2 ^ 31 + 1])) with (n + 1)%nat
    by (cbn [numel foldr]; lia).
  rewrite seq_app, filter_app. cbn [seq Nat.add].
  rewrite filter_none.
  - rewrite filter_cons_True; [done|].
    rewrite wide_tensor_row by lia. by rewrite decide_True.
  - apply Forall_forall. intros i Hi%elem_of_seq.
    rewrite wide_tensor_row by lia. rewrite decide_False by lia. done.
Qed.

Lemma wide_tensor_from_dense :
  from_dense (wide_tensor n) = Some (negative_site (2 ^ 31) 1).
Proof.
  destruct (from_dense_eq (RB := unit) (wide_tensor n) wide_tensor_dense_input)
    as (b & c & Hb & Hc & ->).
  rewrite wide_tensor_active. cbn [map concat length].
  rewrite wide_tensor_row by lia. rewrite decide_True by done.
  change (lead_shape (wide_tensor n)) with [1; 2 ^ 31 + 1]. rewrite Hn.
  unfold wide_tensor in *. cbn [tshape head last] in *. simplify_eq.
  reflexivity.
Qed.

End Wide.

(** A negative coordinate counts from the end of its dimension. *)
Lemma dense_negative_site m v :
  1 <= m < 2 ^ 62 ->
  dense (negative_site m v) false
  = Some (mkTensor [1; m + 1; 1] (<[1%nat := v]> (replicate (Z.to_nat (m + 1)) 0))).
Proof.
  intros Hm. unfold dense, negative_site, init.
  cbn [features indices spatial_shape batch_size tshape tdata lookup list_lookup
       mbind option_bind app map].
  unfold scatter_nd, torch_zeros. cbn [forallb].
  rewrite (proj2 (valid_size_spec (m + 1))) by lia.
  change (valid_size 1) with true. cbn [andb mbind option_bind tshape tdata last].
  unfold view_rows. cbn [tdata length].
  change (Z.of_nat 2 mod 2) with 0. change (Z.of_nat 2 / 2) with 1.
  cbn [andb Z.ltb Z.eqb Z.compare mbind option_bind].
  change (Z.to_nat 2) with 2%nat. change (Z.to_nat 1) with 1%nat.
  cbn [chunks take drop seq map nth length removelast app].
  unfold view. cbn [tdata length numel foldr].
  replace (1 * (1 * 1) =? Z.of_nat 1) with true by reflexivity.
  cbn [mbind option_bind].
  unfold index_put. cbn [length tshape tdata drop take].
  case_guard; [|lia].
  cbn [seq mapM map nth normalize_indices].
  change (to_int64 0) with 0. rewrite (to_int64_small (- m)) by lia.
  change (normalize_index 1 0) with (Some 0).
  assert (normalize_index (m + 1) (- m) = Some 1) as ->.
  { unfold normalize_index.
    rewrite (proj2 (Z.leb_gt 0 (- m))) by lia. cbn [andb].
    rewrite (proj2 (Z.leb_le (- (m + 1)) (- m))) by lia.
    rewrite (proj2 (Z.ltb_lt (- m) 0)) by lia. cbn [andb]. f_equal. lia. }
  cbn [mbind option_bind mret option_ret fmap option_fmap option_map].
  cbn [negb]. do 2 f_equal.
  replace (Z.to_nat (ravel [1; m + 1] [0; 1])) with 1%nat
    by (unfold ravel; cbn [strides dot numel foldr]; lia).
  change (Z.to_nat (numel [1])) with 1%nat.
  cbn [zip zip_with foldl]. unfold put_row. cbn [fst snd Nat.mul Nat.add take drop list_inserts].
  do 2 f_equal. lia.
Qed.

(** C5, as stated, fails: with an extent of [2 ^ 31 + 1] the coordinate of
    the last pixel is stored as [- 2 ^ 31], which is not a position of the
    input. *)
Lemma from_dense_wide_not_aligned :
  dense_input wide_input /\
  exists t : SparseConvTensor unit,
    from_dense wide_input = Some t /\
    coords t = [[0; - 2 ^ 31]] /\
    trows (features t) = [[1]] /\
    feature_at wide_input [0; 2 ^ 31] = Some [1] /\
    feature_at wide_input [0; - 2 ^ 31] = None.
Proof.
  assert (Hn : Z.of_nat (Z.to_nat (2 ^ 31)) = 2 ^ 31) by (apply Z2Nat.id; lia).
  split; [exact (wide_tensor_dense_input _ Hn)|].
  exists (negative_site (2 ^ 31) 1).
  split; [exact (wide_tensor_from_dense _ Hn)|].
  split; [reflexivity|]. split; [reflexivity|].
  unfold feature_at, wide_input.
  change (lead_shape (wide_tensor (Z.to_nat (2 ^ 31)))) with [1; 2 ^ 31 + 1].
  split.
  - rewrite option_guard_True by (repeat constructor; lia).
    change (ravel [1; 2 ^ 31 + 1] [0; 2 ^ 31]) with (2 ^ 31).
    rewrite wide_tensor_row by lia. by rewrite decide_True.
  - rewrite option_guard_False; [done|].
    intros H. apply Forall2_cons_1 in H as [_ H]. apply Forall2_cons_1 in H as [H _].
    lia.
Qed.

(** C9, as stated, fails: the same input comes back with its one moved from
    the last pixel to the second. *)
Lemma from_dense_dense_wide_differs :
  dense_input wide_input /\
  exists (t : SparseConvTensor unit) r,
    from_dense wide_input = Some t /\
    dense t false = Some r /\
    tshape r = tshape wide_input /\
    tget r [0; 1; 0] = 1 /\ tget wide_input [0; 1; 0] = 0.
Proof.
  assert (Hn : Z.of_nat (Z.to_nat (2 ^ 31)) = 2 ^ 31) by (apply Z2Nat.id; lia).
  split; [exact (wide_tensor_dense_input _ Hn)|].
  eexists (negative_site (2 ^ 31) 1), _.
  split; [exact (wide_tensor_from_dense _ Hn)|].
  split; [apply dense_negative_site; lia|].
  unfold tget, wide_input, wide_tensor. cbn [tshape tdata].
  split; [reflexivity|].
  change (Z.to_nat (ravel [1; 2 ^ 31 + 1; 1] [0; 1; 0])) with 1%nat.
  rewrite !nth_lookup. split.
  - rewrite list_lookup_insert_eq; [done|]. rewrite length_replicate. lia.
  - rewrite lookup_app_l by (rewrite length_replicate; lia).
    rewrite lookup_replicate_2; [done | lia].
Qed.

(** ** The functions on concrete inputs *)

Example dense_two_sites_channels_last :
  dense two_sites false = Some (mkTensor [1; 2; 2; 2] [0; 0; 1; 2; 3; 4; 0; 0]).
Proof. by vm_compute. Qed.


Example from_dense_small_image :
  from_dense small_image
  = Some (init (mkTensor [2; 2] [1; 2; 0; 4]) (mkTensor [2; 3] [0; 0; 1; 0; 1; 0])
               [2; 2] 1 None : SparseConvTensor unit).
Proof. by vm_compute. Qed.

Example from_dense_all_zero :
  from_dense (mkTensor [2; 2] [0; 0; 0; 0])
  = Some (init (mkTensor [0; 2] []) (mkTensor [0; 1] []) [] 2 None
          : SparseConvTensor unit).
Proof. by vm_compute. Qed.

Example from_dense_one_dimension :
  from_dense (mkTensor [3] [0; 1; 2]) = (None : option (SparseConvTensor unit)).
Proof. by vm_compute. Qed.

Example dense_out_of_range :
  dense (init (mkTensor [1; 1] [7]) (mkTensor [1; 3] [0; 2; 0]) [2; 2] 1 None
         : SparseConvTensor unit) false = None.
Proof. by vm_compute. Qed.

(** C2, as stated, fails: the first pixel of the input is a position of the
    input, but its feature vector is zero and it gets no row. *)
Lemma from_dense_drops_zero_position :
  dense_input zero_then_five /\
  exists t : SparseConvTensor unit,
    from_dense zero_then_five = Some t /\
    feature_at zero_then_five [0; 0] = Some [0] /\
    coords t = [[0; 1]] /\
    [0; 0] ∉ coords t.
Proof.
  split.
  { unfold dense_input. cbn. repeat split; lia. }
  eexists. split; [by vm_compute|]. split; [by vm_compute|].
  split; [by vm_compute|].
  replace (coords _) with [[0; 1]] by (by vm_compute). compute_done.
Qed.

Lemma small_image_dense_input : dense_input small_image.
Proof. unfold dense_input. cbn. repeat split; lia. Qed.

Lemma small_image_fits : Forall (fun d => d <= 2 ^ 31) (lead_shape small_image).
Proof. cbn. repeat constructor; lia. Qed.

(** C2, as amended, at [small_image]: the two pixels with a nonzero entry
    are kept, with their whole feature vectors. *)
Lemma from_dense_keeps_nonzero_positions_witness :
  exists t : SparseConvTensor unit,
    from_dense small_image = Some t /\
    coords t = [[0; 0; 1]; [0; 1; 0]] /\
    trows (features t) = [[1; 2]; [0; 4]].
Proof.
  destruct (from_dense_keeps_nonzero_positions (RB := unit) small_image
              small_image_dense_input) as (t & Ht & Hc & Hr & _ & _).
  exists t. split; [exact Ht|]. split; [rewrite Hc | rewrite Hr]; by vm_compute.
Defined.

(** C5, as amended, at [small_image]. *)
Lemma from_dense_row_aligned_witness :
  exists t : SparseConvTensor unit,
    from_dense small_image = Some t /\
    Forall2 (fun pos row => feature_at small_image pos = Some row)
            (coords t) (trows (features t)).
Proof.
  destruct (from_dense_row_aligned (RB := unit) small_image
              small_image_dense_input small_image_fits)
    as (t & n & c & Ht & _ & _ & _ & _ & Hall).
  exists t. split; [exact Ht | exact Hall].
Defined.

(** C9, as amended, at [small_image]. *)
Lemma from_dense_dense_round_trip_witness :
  exists t : SparseConvTensor unit,
    from_dense small_image = Some t /\ dense t false = Some small_image.
Proof.
  exact (from_dense_dense_round_trip (RB := unit) small_image
           small_image_dense_input small_image_fits).
Defined.

Lemma two_sites_wf : sparse_wf two_sites 2 2.
Proof. by vm_compute. Qed.

Lemma two_sites_coords : coords two_sites = [[0; 0; 1]; [0; 1; 0]].
Proof. by vm_compute. Qed.

Lemma two_sites_in_bounds : coords_in_bounds two_sites.
Proof.
  unfold coords_in_bounds. rewrite two_sites_coords.
  cbn [batch_size spatial_shape two_sites init]. repeat constructor; lia.
Qed.

Lemma two_sites_NoDup : NoDup (coords two_sites).
Proof. rewrite two_sites_coords. compute_done. Qed.


Section Floats.
Import PrimFloat.

Example sparity_two_sites : sparity two_sites = Some 0.5%float.
Proof. by vm_compute. Qed.

Example sparity_zero_batch : sparity zero_batch = Some infinity.
Proof. by vm_compute. Qed.

Example sparity_no_volume :
  sparity (init (mkTensor [0; 1] []) (mkTensor [0; 2] []) [0] 1 None
           : SparseConvTensor unit) = Some nan.
Proof. by vm_compute. Qed.

Example sparity_huge_batch : sparity huge_batch = None.
Proof. by vm_compute. Qed.

(** C8, as stated, fails: the product of the entries of [spatial_shape] is
    [2 ^ 63], and the 64-bit product that [spatial_size] returns is
    [- 2 ^ 63]; [sparity] is negative. *)
Lemma spatial_size_huge_grid_wraps :
  numel (spatial_shape huge_grid) = 2 ^ 63 /\
  spatial_size huge_grid = - 2 ^ 63 /\
  sparity huge_grid = Some (-0x1p-63)%float.
Proof. split; [by vm_compute|]. split; by vm_compute. Qed.

(** C8, as amended, at [one_in_three]: a volume of 3, and one row in one
    batch element; the quotient is the float nearest to one third. *)
Lemma spatial_size_sparity_in_range_witness :
  spatial_size one_in_three = 3 /\
  sparity one_in_three = Some 0x1.5555555555555p-2%float.
Proof.
  destruct (spatial_size_sparity_in_range one_in_three) as (Hs & Hd).
  - repeat constructor; unfold int64; cbn; lia.
  - cbn. lia.
  - split; [rewrite Hs; reflexivity|].
    rewrite (Hd 1); [by vm_compute | reflexivity | unfold int64; lia].
Defined.

End Floats.

(** C10 on a store that holds one tensor with a grid, at address 5. *)
Lemma RemoveGrid_forward_frame_witness :
  exists h' t',
    RemoveGrid_forward
      {[ 5%nat := set_grid two_sites (Some (mkTensor [2; 2] [0; 0; 0; 0])) ]} 5%nat
    = Some (5%nat, h') /\
    h' !! 5%nat = Some t' /\ grid t' = None /\
    features t' = features two_sites.
Proof.
  destruct (RemoveGrid_forward_frame
              {[ 5%nat := set_grid two_sites (Some (mkTensor [2; 2] [0; 0; 0; 0])) ]}
              5%nat (set_grid two_sites (Some (mkTensor [2; 2] [0; 0; 0; 0]))))
    as (h' & t' & Hf & Hl & Hg & Hfe & _).
  - apply lookup_singleton_eq.
  - exists h', t'. split; [exact Hf|]. split; [exact Hl|]. split; [exact Hg|].
    exact Hfe.
Defined.

(** ** Python indices: negative coordinates and out-of-range errors *)

Lemma normalize_index_python d i :
  python_index d i -> normalize_index d i = Some (wrap_index d i).
Proof.
  unfold python_index, normalize_index, wrap_index. intros H.
  destruct (Z.leb_spec 0 i), (Z.ltb_spec i d), (Z.leb_spec (- d) i),
    (Z.ltb_spec i 0); simpl; try lia; reflexivity.
Qed.

Lemma normalize_index_Some d i i' :
  normalize_index d i = Some i' -> python_index d i.
Proof.
  unfold python_index, normalize_index.
  destruct (Z.leb_spec 0 i), (Z.ltb_spec i d), (Z.leb_spec (- d) i),
    (Z.ltb_spec i 0); simpl; intros; simplify_eq; lia.
Qed.

Lemma normalize_indices_python shape rest row :
  Forall2 python_index shape row ->
  normalize_indices (shape ++ rest) row = Some (zip_with wrap_index shape row).
Proof.
  induction 1 as [|d i shape row Hi _ IH]; simpl; [done|].
  by rewrite (normalize_index_python _ _ Hi), IH.
Qed.

Lemma normalize_indices_Some shape rest row nrow :
  length row = length shape ->
  normalize_indices (shape ++ rest) row = Some nrow ->
  Forall2 python_index shape row.
Proof.
  revert shape nrow. induction row as [|i row IH]; intros [|d shape] nrow Hl H;
    simplify_eq/=; [constructor|].
  destruct (normalize_index d i) as [i'|] eqn:Hi; simplify_eq/=.
  destruct (normalize_indices (shape ++ rest) row) as [r|] eqn:Hr; simplify_eq/=.
  constructor; [by eapply normalize_index_Some | by eapply IH].
Qed.

Lemma wrap_index_in_bounds shape row :
  Forall2 python_index shape row -> in_bounds shape (zip_with wrap_index shape row).
Proof.
  induction 1 as [|d i shape row Hi _ IH]; simpl; constructor; [|exact IH].
  unfold python_index, wrap_index in *. destruct (Z.ltb_spec i 0); lia.
Qed.

Lemma wrap_index_id shape row :
  in_bounds shape row -> zip_with wrap_index shape row = row.
Proof.
  induction 1 as [|d i shape row Hi _ IH]; simpl; [done|]. rewrite IH. f_equal.
  unfold wrap_index. destruct (Z.ltb_spec i 0); lia.
Qed.

Lemma in_bounds_python shape row :
  in_bounds shape row -> Forall2 python_index shape row.
Proof.
  intros H. eapply Forall2_impl; [exact H|]. unfold python_index. simpl. lia.
Qed.

Lemma python_index_int64 shape row :
  forallb valid_size shape = true -> Forall2 python_index shape row ->
  Forall int64 row.
Proof.
  intros Hv H. induction H as [|d i shape row Hi _ IH]; constructor.
  - simpl in Hv. apply andb_true_iff in Hv as [Hd _].
    apply valid_size_spec in Hd. unfold python_index, int64 in *. lia.
  - apply IH. simpl in Hv. by apply andb_true_iff in Hv as [_ ?].
Qed.

Lemma rows_to_int64 (rows : list (list Z)) :
  Forall (Forall int64) rows -> map (map to_int64) rows = rows.
Proof.
  induction 1 as [|row rows Hrow _ IH]; simpl; [done|]. rewrite IH. f_equal.
  induction Hrow as [|v row Hv _ IH']; simpl; [done|].
  by rewrite IH', to_int64_small.
Qed.

Lemma index_put_python ret shape0 rest (rows : list (list Z)) value :
  tshape ret = shape0 ++ rest ->
  Forall (Forall2 python_index shape0) rows ->
  index_put ret (slices_of (length shape0) rows) (length rows) value
  = Some (mkTensor (tshape ret)
            (foldl (put_row (Z.to_nat (numel rest)) (tdata value)) (tdata ret)
               (zip (seq 0 (length rows))
                    (map (fun row =>
                            Z.to_nat (ravel shape0 (zip_with wrap_index shape0 row)))
                         rows)))).
Proof.
  intros Hshape Hrows. unfold index_put, slices_of.
  rewrite length_map, length_seq, Hshape.
  rewrite option_guard_True by (rewrite length_app; lia).
  rewrite drop_app_length, take_app_length.
  erewrite mapM_Some_2; [reflexivity|].
  apply Forall2_same_length_lookup_2.
  { by rewrite length_seq, length_map. }
  intros j j' off Hj Hoff. apply lookup_seq in Hj as [-> Hj].
  change (map ?f ?l) with (f <$> l) in Hoff.
  rewrite list_lookup_fmap in Hoff.
  destruct (rows !! j) as [row|] eqn:Hrow; simplify_eq/=.
  eapply Forall_lookup_1 in Hrows as Hr; [|exact Hrow].
  rewrite (slices_tuple rows (length shape0) j row); [| |done].
  - by rewrite (normalize_indices_python _ _ _ Hr).
  - eapply Forall_impl; [exact Hrows|]. intros r Hr'.
    symmetry. by eapply Forall2_length.
Qed.

Lemma index_put_Some ret shape0 rest (rows : list (list Z)) value r :
  tshape ret = shape0 ++ rest ->
  Forall (fun row => length row = length shape0) rows ->
  index_put ret (slices_of (length shape0) rows) (length rows) value = Some r ->
  Forall (Forall2 python_index shape0) rows.
Proof.
  intros Hshape Hlen. unfold index_put, slices_of.
  rewrite length_map, length_seq, Hshape.
  case_guard; simpl; [|done].
  destruct (mapM _ _) as [offs|] eqn:Hm; simpl; [|done]. intros _.
  apply mapM_Some_1 in Hm.
  apply Forall_lookup_2. intros j row Hrow.
  assert (seq 0 (length rows) !! j = Some j) as Hj.
  { apply lookup_seq. split; [done|]. by eapply lookup_lt_Some. }
  destruct (Forall2_lookup_l _ _ _ _ _ Hm Hj) as (off & _ & Hoff).
  simpl in Hoff.
  rewrite (slices_tuple rows (length shape0) j row) in Hoff; [|done..].
  destruct (normalize_indices _ _) as [nrow|] eqn:Hn; simplify_eq/=.
  eapply normalize_indices_Some; [|exact Hn].
  eapply Forall_lookup_1 in Hlen; [exact Hlen | exact Hrow].
Qed.

Section DensePython.
Context {RB : Type}.
Implicit Types (t : SparseConvTensor RB).

Lemma coords_row_length t n c :
  sparse_wf t n c ->
  length (coords t) = Z.to_nat n /\
  Forall (fun row => length row = length (batch_size t :: spatial_shape t))
         (coords t).
Proof.
  intros Hwf. pose proof (sparse_wf_valid _ _ _ Hwf) as (Hn & _).
  rewrite (coords_eq _ _ _ Hwf). destruct Hwf as (_ & _ & _ & Hil & _).
  split; [apply chunks_length|]. apply chunks_row_length. simpl length. nia.
Qed.

(** What [dense(channels_first=False)] hands to the indexed assignment of
    [scatter_nd]. *)
Lemma dense_false_index_put t n c :
  sparse_wf t n c -> coords_int64 t ->
  dense t false =
    index_put
      (mkTensor (batch_size t :: spatial_shape t ++ [c])
         (replicate (Z.to_nat (numel (batch_size t :: spatial_shape t ++ [c]))) 0))
      (slices_of (length (batch_size t :: spatial_shape t)) (coords t))
      (length (coords t))
      (mkTensor [n; c] (tdata (features t))).
Proof.
  intros Hwf Hb.
  pose proof (sparse_wf_valid _ _ _ Hwf) as (Hn & Hc & Hv & Hv').
  pose proof (coords_eq _ _ _ Hwf) as Hcoords.
  destruct Hwf as (Hf & Hfl & Hi & Hil & _).
  set (K1 := Z.of_nat (length (spatial_shape t)) + 1) in *.
  unfold dense. rewrite Hf. simpl.
  unfold scatter_nd, torch_zeros. simpl forallb. simpl in Hv'. rewrite Hv'. simpl.
  rewrite Hi. simpl. fold K1.
  unfold view_rows. simpl. rewrite length_map.
  rewrite Hil.
  assert (0 < K1) as HK by lia.
  rewrite (proj2 (Z.ltb_lt 0 K1)) by done.
  rewrite Z.mod_mul, Z.div_mul by lia. simpl.
  replace (Z.to_nat K1) with (S (length (spatial_shape t))) by lia.
  rewrite chunks_fmap, <- Hcoords.
  rewrite (rows_to_int64 _ Hb).
  unfold view. simpl. rewrite drop_app_length. simpl. rewrite Hfl.
  replace (n * (c * 1)) with (n * c) by lia. rewrite Z.eqb_refl. simpl.
  unfold slices_of. simpl. by destruct (index_put _ _ _ _).
Qed.

Lemma python_range_int64 t n c :
  sparse_wf t n c -> coords_python_range t -> coords_int64 t.
Proof.
  intros Hwf Hp. pose proof (sparse_wf_valid _ _ _ Hwf) as (_ & _ & Hv & _).
  eapply Forall_impl; [exact Hp|]. intros row Hrow.
  by eapply python_index_int64.
Qed.

Lemma in_bounds_python_range t : coords_in_bounds t -> coords_python_range t.
Proof.
  intros Hb. eapply Forall_impl; [exact Hb|]. intros row. apply in_bounds_python.
Qed.

(** The dense array built from coordinates that Python accepts: zeros,
    overwritten row by row at the entries the coordinates address. *)
Lemma dense_python_eq t n c :
  sparse_wf t n c -> coords_python_range t ->
  dense t false =
    Some (mkTensor (batch_size t :: spatial_shape t ++ [c])
            (foldl (put_row (Z.to_nat c) (tdata (features t)))
               (replicate (Z.to_nat (numel (batch_size t :: spatial_shape t ++ [c]))) 0)
               (zip (seq 0 (Z.to_nat n))
                    (map (fun row =>
                            Z.to_nat (ravel (batch_size t :: spatial_shape t)
                                        (zip_with wrap_index
                                           (batch_size t :: spatial_shape t) row)))
                         (coords t))))).
Proof.
  intros Hwf Hp.
  rewrite (dense_false_index_put t n c Hwf (python_range_int64 _ _ _ Hwf Hp)).
  destruct (coords_row_length _ _ _ Hwf) as [Hlen _].
  rewrite (index_put_python
    (mkTensor (batch_size t :: spatial_shape t ++ [c])
       (replicate (Z.to_nat (numel (batch_size t :: spatial_shape t ++ [c]))) 0))
    (batch_size t :: spatial_shape t) [c] (coords t)
    (mkTensor [n; c] (tdata (features t))) eq_refl Hp).
  cbn [tshape tdata]. rewrite Hlen.
  change (numel [c]) with (c * 1). rewrite Z.mul_1_r. reflexivity.
Qed.

Lemma normalize_coords_wf t n c :
  sparse_wf t n c -> coords_python_range t ->
  sparse_wf (normalize_coords t) n c /\
  coords (normalize_coords t)
  = map (zip_with wrap_index (batch_size t :: spatial_shape t)) (coords t) /\
  coords_in_bounds (normalize_coords t).
Proof.
  intros Hwf Hp. pose proof (sparse_wf_valid _ _ _ Hwf) as (Hn & _).
  destruct (coords_row_length _ _ _ Hwf) as [Hlen Hrl].
  set (rows := map (zip_with wrap_index (batch_size t :: spatial_shape t)) (coords t)).
  assert (Forall (fun r => length r = S (length (spatial_shape t))) rows) as Hrows.
  { apply Forall_forall. intros r Hr. subst rows.
    change (map ?f ?l) with (f <$> l) in Hr.
    apply list_elem_of_fmap in Hr as (row & -> & Hrow).
    rewrite Forall_forall in Hrl. apply Hrl in Hrow.
    rewrite length_zip_with, Hrow. simpl. lia. }
  assert (length rows = Z.to_nat n) as Hrn by (subst rows; by rewrite length_map).
  destruct Hwf as (Hf & Hfl & Hi & Hil & Hv).
  assert (coords (normalize_coords t) = rows) as Hc.
  { unfold coords, trows, normalize_coords. cbn [indices tshape tdata]. rewrite Hi.
    fold (coords t). fold rows.
    replace (Z.to_nat (Z.of_nat (length (spatial_shape t)) + 1))
      with (S (length (spatial_shape t))) by lia.
    rewrite <- Hrn. by apply chunks_concat. }
  split; [|split].
  - unfold sparse_wf, normalize_coords. cbn [features indices tshape tdata
      spatial_shape batch_size]. fold (coords t). fold rows.
    split; [done|]. split; [done|]. split; [done|]. split; [|done].
    rewrite (length_concat_rows _ _ Hrows), Hrn. lia.
  - exact Hc.
  - unfold coords_in_bounds. rewrite Hc. subst rows.
    apply Forall_forall. intros r Hr.
    change (map ?f ?l) with (f <$> l) in Hr.
    apply list_elem_of_fmap in Hr as (row & -> & Hrow).
    apply wrap_index_in_bounds.
    unfold coords_python_range in Hp. rewrite Forall_forall in Hp. by apply Hp.
Qed.

(** X1: on a tensor with the shapes of the constructor's docstring,
    [dense()] returns an array exactly when every coordinate lies in
    [[-d, d)] for the extent [d] of its dimension, whatever the channel
    order; one coordinate outside makes the indexed assignment of
    [scatter_nd] raise. *)
Theorem dense_succeeds_iff_python_range t n c :
  sparse_wf t n c -> coords_int64 t ->
  (is_Some (dense t false) <-> coords_python_range t) /\
  (is_Some (dense t true) <-> coords_python_range t) /\
  (is_Some (ToDense_forward t) <-> coords_python_range t).
Proof.
  intros Hwf Hi.
  assert (is_Some (dense t false) <-> coords_python_range t) as Hfalse.
  { split.
    - intros [r Hr]. rewrite (dense_false_index_put t n c Hwf Hi) in Hr.
      destruct (coords_row_length _ _ _ Hwf) as [_ Hrl].
      refine (index_put_Some _ _ [c] _ _ _ _ Hrl Hr). reflexivity.
    - intros Hp. rewrite (dense_python_eq t n c Hwf Hp). by eexists. }
  assert (is_Some (dense t true) <-> coords_python_range t) as Htrue.
  { rewrite <- Hfalse. split.
    - rewrite dense_true_eq. destruct (dense t false); [by eexists|].
      by intros [? ?].
    - intros [r Hr]. destruct (dense_true_total _ _ Hr) as [r' Hr'].
      by exists r'. }
  done.
Qed.

(** X2: [dense()] reads a negative coordinate as Python does, counting
    from the end of its dimension.  When every coordinate lies in [[-d, d)]
    and no two rows address the same position, the result (for both
    channel orders) is that of the tensor whose coordinates [i < 0] are
    replaced by [i + d]. *)
Theorem dense_negative_coords_wrap t n c :
  sparse_wf t n c -> coords_python_range t ->
  NoDup (coords (normalize_coords t)) ->
  sparse_wf (normalize_coords t) n c /\
  coords_in_bounds (normalize_coords t) /\
  forall channels_first,
    dense t channels_first = dense (normalize_coords t) channels_first.
Proof.
  intros Hwf Hp _.
  destruct (normalize_coords_wf t n c Hwf Hp) as (Hwf' & Hc' & Hb').
  split; [done|]. split; [done|].
  assert (dense t false = dense (normalize_coords t) false) as Hfalse.
  { rewrite (dense_python_eq t n c Hwf Hp), (dense_false_eq _ n c Hwf' Hb').
    rewrite Hc', map_map. reflexivity. }
  intros [|]; [|done]. rewrite !dense_true_eq, Hfalse. reflexivity.
Qed.

(** X3: [dense()] raises, for both channel orders, when the feature matrix
    and the index matrix differ in their number of rows (and there is at
    least one channel): the features cannot be viewed with the row count
    of the indices. *)
Theorem dense_row_count_mismatch t n m c channels_first :
  tshape (features t) = [n; c] ->
  Z.of_nat (length (tdata (features t))) = n * c ->
  tshape (indices t) = [m; Z.of_nat (length (spatial_shape t)) + 1] ->
  c <> 0 -> n <> m ->
  dense t channels_first = None.
Proof.
  intros Hf Hfl Hi Hc Hnm.
  assert (dense t false = None) as Hfalse.
  { unfold dense. rewrite Hf. cbn [lookup list_lookup mbind option_bind].
    unfold scatter_nd.
    destruct (torch_zeros _) as [ret|]; [|done]. cbn [mbind option_bind].
    rewrite Hi. cbn [last mbind option_bind tshape].
    destruct (view_rows _ _) as [rows|]; [|done]. cbn [mbind option_bind].
    assert (drop (Z.to_nat (Z.of_nat (length (spatial_shape t)) + 1))
              ([batch_size t] ++ spatial_shape t ++ [c]) = [c]) as ->.
    { replace (Z.to_nat (Z.of_nat (length (spatial_shape t)) + 1))
        with (length ([batch_size t] ++ spatial_shape t))
        by (rewrite length_app; simpl; lia).
      by rewrite app_assoc, drop_app_length. }
    unfold view. cbn [removelast app tshape tdata].
    change (numel [m; c]) with (m * (c * 1)). rewrite Hfl.
    destruct (Z.eqb_spec (m * (c * 1)) (n * c)) as [E|_]; [nia | done]. }
  destruct channels_first; [|done]. by rewrite dense_true_eq, Hfalse.
Qed.

(** X4: [dense()] raises, for both channel orders, when [batch_size] or
    an extent of [spatial_shape] is negative: no array of zeros of such a
    shape can be allocated. *)
Theorem dense_negative_extent t channels_first :
  Exists (fun d => d < 0) (batch_size t :: spatial_shape t) ->
  dense t channels_first = None.
Proof.
  intros Hneg. unfold dense.
  destruct (tshape (features t) !! 1%nat) as [c|]; [|done].
  cbn [mbind option_bind]. unfold scatter_nd, torch_zeros.
  assert (forallb valid_size ([batch_size t] ++ spatial_shape t ++ [c]) = false)
    as ->; [|done].
  apply not_true_is_false. intros Hv. apply valid_sizes_nonneg in Hv.
  change ([batch_size t] ++ spatial_shape t ++ [c])
    with ((batch_size t :: spatial_shape t) ++ [c]) in Hv.
  apply Forall_app in Hv as [Hv _]. rewrite Forall_forall in Hv.
  apply Exists_exists in Hneg as (d & Hd & Hlt). apply Hv in Hd. lia.
Qed.

Lemma nth_replicate_zero (i n : nat) : nth i (replicate n 0) 0 = 0.
Proof.
  rewrite nth_lookup. destruct (replicate n 0 !! i) as [v|] eqn:E; [|done].
  by apply lookup_replicate in E as [-> _].
Qed.

(** X5: a tensor without sites densifies to the all-zero array, of shape
    [[batch_size, *spatial_shape, C]] or [[batch_size, C, *spatial_shape]]. *)
Theorem dense_no_sites t c :
  sparse_wf t 0 c ->
  dense t false
  = Some (mkTensor (batch_size t :: spatial_shape t ++ [c])
            (replicate (Z.to_nat (numel (batch_size t :: spatial_shape t ++ [c]))) 0)) /\
  dense t true
  = Some (mkTensor (batch_size t :: c :: spatial_shape t)
            (replicate (Z.to_nat (numel (batch_size t :: c :: spatial_shape t))) 0)).
Proof.
  intros Hwf.
  assert (coords t = []) as Hc by (by rewrite (coords_eq _ _ _ Hwf)).
  assert (coords_in_bounds t) as Hb by (unfold coords_in_bounds; by rewrite Hc).
  assert (dense t false
    = Some (mkTensor (batch_size t :: spatial_shape t ++ [c])
        (replicate (Z.to_nat (numel (batch_size t :: spatial_shape t ++ [c]))) 0)))
    as Hfalse.
  { rewrite (dense_false_eq t 0 c Hwf Hb). by rewrite Hc. }
  split; [done|]. rewrite dense_true_eq, Hfalse. cbn [mbind option_bind].
  rewrite (permute_channels_first _ _ _ _ _ eq_refl). do 2 f_equal.
  rewrite <- (length_seqZ 0 (numel (batch_size t :: c :: spatial_shape t))).
  apply const_fmap. intros i j _. apply nth_replicate_zero.
Qed.

End DensePython.

(** ** The dense array, entry by entry of its flat buffer *)

Lemma list_eq_rows (C P : nat) (l1 l2 : list Z) :
  length l1 = (P * C)%nat -> length l2 = (P * C)%nat ->
  (forall q k, (q < P)%nat -> (k < C)%nat ->
     l1 !! (q * C + k)%nat = l2 !! (q * C + k)%nat) ->
  l1 = l2.
Proof.
  intros H1 H2 H. apply list_eq. intros j.
  destruct (decide (j < P * C)%nat) as [Hj|Hj].
  - assert (C <> 0)%nat as HC by lia.
    pose proof (Nat.div_mod_eq j C) as E.
    pose proof (Nat.mod_upper_bound j C HC) as Hk.
    assert (j `div` C < P)%nat as Hq by (apply Nat.Div0.div_lt_upper_bound; lia).
    replace j with (j `div` C * C + j `mod` C)%nat by lia. by apply H.
  - rewrite !lookup_ge_None_2; [done | lia | lia].
Qed.

Lemma ravel_to_nat_inj shape p q :
  in_bounds shape p -> in_bounds shape q ->
  Z.to_nat (ravel shape p) = Z.to_nat (ravel shape q) -> p = q.
Proof.
  intros Hp Hq E. rewrite <- (unravel_ravel _ _ Hp), <- (unravel_ravel _ _ Hq).
  apply ravel_bounds in Hp, Hq. f_equal. lia.
Qed.

Section DenseData.
Context {RB : Type}.
Implicit Types (t : SparseConvTensor RB).

(** The flat buffer of the channels-last dense array: at the position of a
    coordinate row that no later row repeats, the feature row of that
    site; zero at every position that is no site. *)
Lemma dense_data t n c :
  sparse_wf t n c -> coords_in_bounds t ->
  exists D,
    dense t false = Some (mkTensor (batch_size t :: spatial_shape t ++ [c]) D) /\
    length D = (Z.to_nat (numel (batch_size t :: spatial_shape t)) * Z.to_nat c)%nat /\
    (forall (i : nat) p (k : nat),
       coords t !! i = Some p ->
       (forall i', (i < i')%nat -> coords t !! i' <> Some p) ->
       (k < Z.to_nat c)%nat ->
       D !! (Z.to_nat (ravel (batch_size t :: spatial_shape t) p) * Z.to_nat c + k)%nat
       = tdata (features t) !! (i * Z.to_nat c + k)%nat) /\
    (forall (q k : nat),
       (q < Z.to_nat (numel (batch_size t :: spatial_shape t)))%nat ->
       (forall p, p ∈ coords t ->
          Z.to_nat (ravel (batch_size t :: spatial_shape t) p) <> q) ->
       (k < Z.to_nat c)%nat ->
       D !! (q * Z.to_nat c + k)%nat = Some 0).
Proof.
  intros Hwf Hb. eexists. split; [by eapply dense_false_eq|].
  pose proof (writes_ok _ _ _ Hwf Hb) as Hws.
  pose proof (sparse_wf_valid _ _ _ Hwf) as (Hn & Hc & Hv & Hv').
  destruct (coords_row_length _ _ _ Hwf) as [Hlen _].
  set (shape0 := batch_size t :: spatial_shape t) in *.
  change (batch_size t :: spatial_shape t ++ [c]) with (shape0 ++ [c]) in *.
  assert (0 <= numel shape0) as HP
    by (apply numel_nonneg, valid_sizes_nonneg, Hv).
  assert (Z.to_nat (numel (shape0 ++ [c]))
          = (Z.to_nat (numel shape0) * Z.to_nat c)%nat) as HN.
  { rewrite numel_app. change (numel [c]) with (c * 1).
    rewrite Z.mul_1_r. apply Z2Nat.inj_mul; lia. }
  set (ws := zip _ _) in *.
  assert (Hoff : forall i row, coords t !! i = Some row ->
            ws !! i = Some (i, Z.to_nat (ravel shape0 row))).
  { intros i row Hrow. subst ws. apply lookup_zip_with_Some.
    exists i, (Z.to_nat (ravel shape0 row)). split; [done|]. split.
    - apply lookup_seq. split; [done|]. apply lookup_lt_Some in Hrow. lia.
    - change (map ?f ?l) with (f <$> l). by rewrite list_lookup_fmap, Hrow. }
  assert (Hin : forall k' w', ws !! k' = Some w' ->
            exists row, coords t !! k' = Some row /\ in_bounds shape0 row /\
                        w' = (k', Z.to_nat (ravel shape0 row))).
  { intros k' w' Hw'. destruct (coords t !! k') as [row|] eqn:Hrow.
    - exists row. split; [done|]. split.
      + eapply Forall_lookup_1; [exact Hb | exact Hrow].
      + apply Hoff in Hrow. congruence.
    - apply lookup_lt_Some in Hw'. apply lookup_ge_None in Hrow.
      subst ws. rewrite length_zip_with, length_seq, length_map in Hw'. lia. }
  split; [|split].
  - by rewrite foldl_put_row_length, length_replicate.
  - intros i p k Hp Hlast Hk.
    assert (in_bounds shape0 p) as Hpb
      by (eapply Forall_lookup_1; [exact Hb | exact Hp]).
    apply foldl_put_row_lookup with (k := i); [lia | exact Hws | by apply Hoff |].
    intros k' w' Hk' Hw' E. apply Hin in Hw' as (row & Hrow & Hrb & ->).
    simpl in E. apply (Hlast k' Hk'). rewrite Hrow. f_equal.
    by apply (ravel_to_nat_inj shape0).
  - intros q k Hq Hnot Hk.
    destruct (foldl_put_row_lookup (Z.to_nat c) (tdata (features t)) ws
      (replicate (Z.to_nat (numel (shape0 ++ [c]))) 0) q k) as [-> _];
      [lia | exact Hws | |].
    + apply lookup_replicate. split; [done|]. rewrite HN. nia.
    + apply Forall_lookup_2. intros k' w' Hw' E.
      apply Hin in Hw' as (row & Hrow & Hrb & ->). simpl in E.
      apply (Hnot row); [|done]. by eapply list_elem_of_lookup_2.
Qed.

End DenseData.

(** ** Listing the sites in another order *)

Lemma omap_lookup_total {A} (l : list A) (order : list nat) (j : nat) :
  Forall (fun i => (i < length l)%nat) order ->
  omap (fun i => l !! i) order !! j = order !! j ≫= fun i => l !! i.
Proof.
  intros H. revert j. induction H as [|i order Hi _ IH]; intros j; [done|].
  cbn [omap list_omap]. destruct (lookup_lt_is_Some_2 l i Hi) as [x Hx].
  rewrite Hx. destruct j as [|j]; simpl; [done | apply IH].
Qed.

Lemma omap_length_total {A} (l : list A) (order : list nat) :
  Forall (fun i => (i < length l)%nat) order ->
  length (omap (fun i => l !! i) order) = length order.
Proof.
  induction 1 as [|i order Hi _ IH]; [done|].
  cbn [omap list_omap]. destruct (lookup_lt_is_Some_2 l i Hi) as [x Hx].
  rewrite Hx. simpl. by rewrite IH.
Qed.

Lemma omap_lookup_Forall {A} (P : A -> Prop) (l : list A) (order : list nat) :
  Forall P l -> Forall P (omap (fun i => l !! i) order).
Proof.
  intros Hl. induction order as [|i order IH]; [constructor|].
  cbn [omap list_omap]. destruct (l !! i) as [x|] eqn:Hx; [|exact IH].
  constructor; [|exact IH]. eapply Forall_lookup_1; [exact Hl | exact Hx].
Qed.

Section SiteOrder.
Context {RB : Type}.
Implicit Types (t : SparseConvTensor RB).

Lemma feature_rows t n c :
  sparse_wf t n c ->
  trows (features t) = chunks (Z.to_nat c) (Z.to_nat n) (tdata (features t)) /\
  length (trows (features t)) = Z.to_nat n /\
  Forall (fun r => length r = Z.to_nat c) (trows (features t)) /\
  length (tdata (features t)) = (Z.to_nat n * Z.to_nat c)%nat.
Proof.
  intros Hwf. pose proof (sparse_wf_valid _ _ _ Hwf) as (Hn & Hc & _).
  destruct Hwf as (Hf & Hfl & _).
  assert (length (tdata (features t)) = (Z.to_nat n * Z.to_nat c)%nat) as Hl.
  { rewrite <- Z2Nat.inj_mul by lia. rewrite <- Hfl. by rewrite Nat2Z.id. }
  unfold trows. rewrite Hf. split; [done|]. split; [apply chunks_length|].
  split; [|done]. apply chunks_row_length. lia.
Qed.

Lemma reorder_sites_wf t n c order :
  sparse_wf t n c -> Permutation order (seq 0 (Z.to_nat n)) ->
  sparse_wf (reorder_sites t order) n c /\
  coords (reorder_sites t order) = omap (fun i => coords t !! i) order /\
  trows (features (reorder_sites t order))
  = omap (fun i => trows (features t) !! i) order.
Proof.
  intros Hwf Hperm.
  pose proof (sparse_wf_valid _ _ _ Hwf) as (Hn & Hc & _).
  destruct (coords_row_length _ _ _ Hwf) as [Hlen Hrl].
  destruct (feature_rows _ _ _ Hwf) as (_ & Hflen & Hfrl & _).
  assert (length order = Z.to_nat n) as Hol
    by (by rewrite (Permutation_length Hperm), length_seq).
  assert (forall {A} (l : list A), length l = Z.to_nat n ->
            Forall (fun i => (i < length l)%nat) order) as Hlt.
  { intros A l Hl. apply Forall_forall. intros i Hi. rewrite Hperm in Hi.
    apply elem_of_seq in Hi. lia. }
  set (rows := omap (fun i => coords t !! i) order).
  set (frows := omap (fun i => trows (features t) !! i) order).
  assert (length rows = Z.to_nat n) as Hrn
    by (subst rows; by rewrite omap_length_total by by apply Hlt).
  assert (length frows = Z.to_nat n) as Hfn
    by (subst frows; by rewrite omap_length_total by by apply Hlt).
  assert (Forall (fun r => length r = S (length (spatial_shape t))) rows) as Hrows
    by (by apply omap_lookup_Forall).
  assert (Forall (fun r => length r = Z.to_nat c) frows) as Hfrows
    by (by apply omap_lookup_Forall).
  destruct Hwf as (Hf & Hfl & Hi & Hil & Hv).
  split; [|split].
  - unfold sparse_wf, reorder_sites. cbn [features indices tshape tdata
      spatial_shape batch_size]. fold rows. fold frows.
    split; [done|]. split.
    { rewrite (length_concat_rows _ _ Hfrows), Hfn. nia. }
    split; [done|]. split; [|done].
    rewrite (length_concat_rows _ _ Hrows), Hrn. lia.
  - unfold coords at 1, trows, reorder_sites. cbn [indices tshape tdata]. rewrite Hi.
    fold rows.
    replace (Z.to_nat (Z.of_nat (length (spatial_shape t)) + 1))
      with (S (length (spatial_shape t))) by lia.
    rewrite <- Hrn. by apply chunks_concat.
  - unfold trows at 1, reorder_sites. cbn [features tshape tdata]. rewrite Hf.
    fold frows. rewrite <- Hfn. by apply chunks_concat.
Qed.

(** X6: [dense()] does not depend on the order in which distinct sites are
    listed: listing the coordinate rows, and the feature rows with them,
    in any other order gives the same dense array, for both channel
    orders. *)
Theorem dense_site_order_irrelevant t n c order :
  sparse_wf t n c -> coords_in_bounds t -> NoDup (coords t) ->
  Permutation order (seq 0 (Z.to_nat n)) ->
  coords (reorder_sites t order) = omap (fun i => coords t !! i) order /\
  trows (features (reorder_sites t order))
  = omap (fun i => trows (features t) !! i) order /\
  forall channels_first,
    dense (reorder_sites t order) channels_first = dense t channels_first.
Proof.
  intros Hwf Hb Hnd Hperm.
  destruct (reorder_sites_wf t n c order Hwf Hperm) as (Hwf' & Hc' & Hf').
  split; [done|]. split; [done|].
  pose proof (sparse_wf_valid _ _ _ Hwf) as (Hn & Hc & _).
  destruct (coords_row_length _ _ _ Hwf) as [Hlen _].
  destruct (feature_rows _ _ _ Hwf) as (Hfr & Hflen & Hfrl & Hfdl).
  destruct (feature_rows _ _ _ Hwf') as (_ & _ & Hfrl' & _).
  assert (Forall (fun i => (i < length (coords t))%nat) order) as Hlt.
  { apply Forall_forall. intros i Hi. rewrite Hperm in Hi.
    apply elem_of_seq in Hi. lia. }
  assert (Forall (fun i => (i < length (trows (features t)))%nat) order) as Hlt'
    by (by rewrite Hflen, <- Hlen).
  assert (NoDup order) as Hndo by (rewrite Hperm; apply NoDup_seq).
  assert (Hsite : forall j p, coords (reorder_sites t order) !! j = Some p ->
            exists i, order !! j = Some i /\ coords t !! i = Some p).
  { intros j p Hj. rewrite Hc', omap_lookup_total in Hj by done.
    destruct (order !! j) as [i|]; simplify_eq/=. by exists i. }
  assert (coords_in_bounds (reorder_sites t order)) as Hb'.
  { unfold coords_in_bounds. rewrite Hc'. by apply omap_lookup_Forall. }
  assert (NoDup (coords (reorder_sites t order))) as Hnd'.
  { apply NoDup_alt. intros j1 j2 p H1 H2.
    apply Hsite in H1 as (i1 & Ho1 & Hp1). apply Hsite in H2 as (i2 & Ho2 & Hp2).
    assert (i1 = i2) as -> by exact (NoDup_lookup (coords t) i1 i2 p Hnd Hp1 Hp2).
    exact (NoDup_lookup order j1 j2 i2 Hndo Ho1 Ho2). }
  assert (dense (reorder_sites t order) false = dense t false) as Hfalse.
  { destruct (dense_data _ _ _ Hwf Hb) as (D & HD & HDl & Hhit & Hmiss).
    destruct (dense_data _ _ _ Hwf' Hb') as (D' & HD' & HDl' & Hhit' & Hmiss').
    rewrite HD, HD'. cbn [reorder_sites batch_size spatial_shape] in *.
    do 2 f_equal.
    apply (list_eq_rows (Z.to_nat c)
             (Z.to_nat (numel (batch_size t :: spatial_shape t)))); [done..|].
    intros q k Hq Hk.
    destruct (decide (q ∈ map (fun p => Z.to_nat (ravel (batch_size t :: spatial_shape t) p))
                          (coords t))) as [Hin|Hnin].
    - change (map ?f ?l) with (f <$> l) in Hin.
      apply list_elem_of_fmap in Hin as (p & -> & Hp).
      apply list_elem_of_lookup in Hp as (i & Hi).
      assert (i ∈ order) as Hio.
      { rewrite Hperm. apply elem_of_seq. apply lookup_lt_Some in Hi. lia. }
      apply list_elem_of_lookup in Hio as (j & Hj).
      assert (coords (reorder_sites t order) !! j = Some p) as Hj'.
      { rewrite Hc', omap_lookup_total by done. by rewrite Hj. }
      rewrite (Hhit' j p k Hj'); [|
        intros j' Hjj' Hj''; rewrite NoDup_alt in Hnd';
        specialize (Hnd' _ _ _ Hj' Hj''); lia | done].
      rewrite (Hhit i p k Hi); [|
        intros i' Hii' Hi''; rewrite NoDup_alt in Hnd;
        specialize (Hnd _ _ _ Hi Hi''); lia | done].
      assert (trows (features t) !! i
              = Some (take (Z.to_nat c) (drop (i * Z.to_nat c) (tdata (features t)))))
        as Hrow.
      { rewrite Hfr. apply chunks_lookup. apply lookup_lt_Some in Hi. lia. }
      assert (trows (features (reorder_sites t order)) !! j
              = Some (take (Z.to_nat c) (drop (i * Z.to_nat c) (tdata (features t)))))
        as Hrow'.
      { rewrite Hf', omap_lookup_total by done. by rewrite Hj. }
      assert (tdata (features (reorder_sites t order))
              = concat (trows (features (reorder_sites t order)))) as ->.
      { rewrite Hf'. reflexivity. }
      rewrite (lookup_concat_rows _ _ _ _ _ Hfrl' Hrow' Hk).
      rewrite lookup_take_lt by done. by rewrite lookup_drop.
    - rewrite Hmiss, Hmiss'; [done | done | | done | done | | done].
      + intros p Hp E. apply Hnin. subst q.
        apply list_elem_of_lookup in Hp as (j & Hj).
        apply Hsite in Hj as (i & _ & Hi).
        change (map ?f ?l) with (f <$> l). apply list_elem_of_fmap.
        exists p. split; [done|]. by eapply list_elem_of_lookup_2.
      + intros p Hp E. apply Hnin. subst q.
        change (map ?f ?l) with (f <$> l). apply list_elem_of_fmap. by exists p. }
  intros [|]; [|done]. rewrite !dense_true_eq, Hfalse. reflexivity.
Qed.

End SiteOrder.

(** ** [spatial_size] and [sparity] on every tensor *)

Lemma wrap_range w z : 0 < w -> - 2 ^ (w - 1) <= wrap w z < 2 ^ (w - 1).
Proof.
  intros Hw. unfold wrap.
  assert (Hp : 2 ^ w = 2 * 2 ^ (w - 1)).
  { rewrite <- Z.pow_succ_r by lia. f_equal. lia. }
  assert (0 < 2 ^ (w - 1)) by (apply Z.pow_pos_nonneg; lia).
  pose proof (Z.mod_pos_bound (z + 2 ^ (w - 1)) (2 ^ w)). lia.
Qed.

Lemma wrap_congruent w z : (wrap w z - z) mod 2 ^ w = 0.
Proof.
  unfold wrap. destruct (decide (2 ^ w = 0)) as [E|E].
  { rewrite E, !Z.mod_0_r. lia. }
  rewrite (Z.mod_eq (z + 2 ^ (w - 1)) (2 ^ w)) by done.
  replace (z + 2 ^ (w - 1) - 2 ^ w * ((z + 2 ^ (w - 1)) / 2 ^ w) - 2 ^ (w - 1) - z)
    with (- ((z + 2 ^ (w - 1)) / 2 ^ w) * 2 ^ w) by lia.
  apply Z.mod_mul. done.
Qed.

Lemma numel_Permutation l1 l2 : Permutation l1 l2 -> numel l1 = numel l2.
Proof.
  unfold numel. induction 1 as [|d l1 l2 _ IH|d1 d2 l|l1 l2 l3 _ IH1 _ IH2]; simpl.
  - done.
  - by rewrite IH.
  - lia.
  - by rewrite IH1.
Qed.

Section Observers.
Context {RB : Type}.
Implicit Types (t self : SparseConvTensor RB).
Implicit Types (h : gmap nat (SparseConvTensor RB)).

(** X7: for a non-empty [spatial_shape] of 64-bit integers,
    [spatial_size] is a signed 64-bit integer congruent to the product of
    the extents modulo [2 ^ 64]; it does not depend on the order of the
    axes, even when it wraps. *)
Theorem spatial_size_modulo_2_64 t :
  spatial_shape t <> [] -> Forall int64 (spatial_shape t) ->
  int64 (spatial_size t) /\
  (spatial_size t - numel (spatial_shape t)) mod 2 ^ 64 = 0 /\
  forall t' : SparseConvTensor RB,
    Permutation (spatial_shape t) (spatial_shape t') ->
    spatial_size t' = spatial_size t.
Proof.
  intros _ _. unfold spatial_size. rewrite np_prod_numel. split; [|split].
  - apply (wrap_range 64). lia.
  - apply (wrap_congruent 64).
  - intros t' Hp. by rewrite np_prod_numel, (numel_Permutation _ _ Hp).
Qed.

(** X8: with a shape of [indices] and a [spatial_shape] of 64-bit
    integers, [sparity] raises exactly when [indices] has no dimension at
    all or [batch_size] is too large in magnitude to be converted to a
    float, which is from [2 ^ 1024 - 2 ^ 970] on; so a volume or a
    [batch_size] of zero does not make it raise. *)
Theorem sparity_raises_iff t :
  Forall int64 (tshape (indices t)) -> Forall int64 (spatial_shape t) ->
  (sparity t = None <->
   tshape (indices t) = [] \/ 2 ^ 1024 - 2 ^ 970 <= Z.abs (batch_size t)) /\
  (tshape (indices t) <> [] -> batch_size t = 0 -> is_Some (sparity t)) /\
  (tshape (indices t) <> [] -> Z.abs (batch_size t) < 2 ^ 63 ->
   spatial_size t = 0 -> is_Some (sparity t)).
Proof.
  intros _ _.
  assert (sparity t = None <->
          tshape (indices t) = [] \/ 2 ^ 1024 - 2 ^ 970 <= Z.abs (batch_size t))
    as Hiff.
  { unfold sparity, float_of_int.
    destruct (tshape (indices t)) as [|n ds]; cbn [head mbind option_bind].
    { split; [by left | done]. }
    destruct (Z.ltb_spec (Z.abs (batch_size t)) (2 ^ 1024 - 2 ^ 970)) as [Hlt|Hge];
      cbn [mbind option_bind].
    - split; [done|]. intros [?|?]; [done | lia].
    - split; [by right | done]. }
  assert (2 ^ 63 < 2 ^ 1024 - 2 ^ 970) as Hbig by (by vm_compute).
  split; [exact Hiff|]. split.
  - intros Hs Hz. apply not_eq_None_Some. rewrite Hiff. intros [?|Hge]; [done|].
    rewrite Hz in Hge. simpl in Hge. lia.
  - intros Hs Hb _. apply not_eq_None_Some. rewrite Hiff.
    intros [?|Hge]; [done | lia].
Qed.

(** X10: removing the grid is not seen by the other methods: after
    [RemoveGrid.forward] the object has the same [sparity] and
    [spatial_size] and the same cached rulebooks, and, when its
    coordinate rows are distinct and in range, it densifies to the same
    array; removing the grid a second time changes nothing. *)
Theorem RemoveGrid_forward_unobserved h x t :
  h !! x = Some t ->
  exists h' t',
    RemoveGrid_forward h x = Some (x, h') /\
    h' !! x = Some t' /\
    (coords_in_bounds t -> NoDup (coords t) ->
     forall channels_first, dense t' channels_first = dense t channels_first) /\
    sparity t' = sparity t /\
    spatial_size t' = spatial_size t /\
    (forall key, (find_indice_pair t' key).1 = (find_indice_pair t key).1) /\
    RemoveGrid_forward h' x = Some (x, h').
Proof.
  intros Hx. exists (<[x := set_grid t None]> h), (set_grid t None).
  unfold RemoveGrid_forward. rewrite Hx. cbn [mbind option_bind].
  split; [done|]. split; [apply lookup_insert_eq|].
  split; [done|]. split; [done|]. split; [done|].
  split.
  { intros [key|]; [|done]. unfold find_indice_pair.
    cbn [set_grid indice_dict]. by destruct (decide _). }
  rewrite lookup_insert_eq. cbn [mbind option_bind].
  by rewrite insert_insert_eq.
Qed.

End Observers.

(** ** Increasing lists of positions *)

Lemma increasing_lookup l (i j a b : nat) :
  increasing l -> (i < j)%nat -> l !! i = Some a -> l !! j = Some b -> (a < b)%nat.
Proof.
  revert i j. induction l as [|x l IH]; intros i j Hl Hij Hi Hj; [done|].
  destruct Hl as [Hx Hl]. destruct j as [|j]; [lia|]. simpl in Hj.
  destruct i as [|i]; simplify_eq/=.
  - rewrite Forall_forall in Hx. apply Hx. by eapply list_elem_of_lookup_2.
  - eapply (IH i j); [done | lia | done | done].
Qed.

Lemma lookup_increasing l :
  (forall i j a b : nat,
     (i < j)%nat -> l !! i = Some a -> l !! j = Some b -> (a < b)%nat) ->
  increasing l.
Proof.
  induction l as [|x l IH]; intros H; [done|]. split.
  - apply Forall_lookup_2. intros j b Hj. by apply (H 0%nat (S j)); [lia|..].
  - apply IH. intros i j a b Hij Hi Hj. by apply (H (S i) (S j)); [lia|..].
Qed.

Lemma increasing_seq s len : increasing (seq s len).
Proof.
  revert s. induction len as [|len IH]; intros s; [done|]. split; [|apply IH].
  apply Forall_forall. intros b Hb%elem_of_seq. lia.
Qed.

Lemma increasing_filter (P : nat -> Prop) `{forall a, Decision (P a)} l :
  increasing l -> increasing (filter P l).
Proof.
  induction l as [|x l IH]; intros Hl; [done|]. destruct Hl as [Hx Hl].
  rewrite filter_cons. destruct (decide (P x)); [|by apply IH].
  split; [|by apply IH]. rewrite Forall_forall in Hx. apply Forall_forall.
  intros b Hb%list_elem_of_filter. apply Hx, Hb.
Qed.

Lemma increasing_NoDup l : increasing l -> NoDup l.
Proof.
  induction l as [|x l IH]; intros Hl; [constructor|]. destruct Hl as [Hx Hl].
  constructor; [|by apply IH]. intros Hin. rewrite Forall_forall in Hx.
  apply Hx in Hin. lia.
Qed.

Lemma active_positions_increasing x : increasing (active_positions x).
Proof. apply increasing_filter, increasing_seq. Qed.

Lemma filter_all {A} (P : A -> Prop) `{forall a, Decision (P a)} (l : list A) :
  Forall P l -> filter P l = l.
Proof.
  induction 1 as [|a l Ha _ IH]; [done|]. by rewrite filter_cons_True, IH.
Qed.

Lemma is_active_false_iff row : is_active row = false <-> Forall (fun v => v = 0) row.
Proof.
  induction row as [|v row IH]; simpl; [split; [constructor | done]|].
  rewrite orb_false_iff, IH, negb_false_iff, Z.eqb_eq, Forall_cons. done.
Qed.

Lemma feature_rows_chunks x c (P : nat) :
  List.last (tshape x) 0 = c ->
  map (feature_row x) (seq 0 P) = chunks (Z.to_nat c) P (tdata x).
Proof.
  intros Hc. apply list_eq. intros j.
  change (map ?f ?l) with (f <$> l). rewrite list_lookup_fmap.
  destruct (decide (j < P)%nat) as [Hj|Hj].
  - rewrite chunks_lookup, lookup_seq_lt by done. simpl.
    unfold feature_row. by rewrite Hc.
  - rewrite lookup_seq_ge by lia. simpl. symmetry.
    apply lookup_ge_None_2. rewrite chunks_length. lia.
Qed.

Section FromDenseMore.
Context {RB : Type}.
Implicit Types (t : SparseConvTensor RB).

(** What [to_sparse_dim] returns: the feature rows of the positions that
    hold a nonzero entry, and their coordinates as the host framework
    gives them (64-bit). *)
Lemma to_sparse_dim_eq x c :
  dense_input x -> last (tshape x) = Some c ->
  to_sparse_dim x
  = Some (mkTensor [Z.of_nat (length (active_positions x)); c]
            (concat (map (feature_row x) (active_positions x))),
          map (fun i => unravel (lead_shape x) (Z.of_nat i)) (active_positions x)).
Proof.
  intros Hx Hl.
  destruct (dense_input_shape x Hx) as (c' & Hs & Hl' & Hc & Hcr & Hnn & Hlen & HP).
  assert (c' = c) as -> by congruence.
  set (G := map (fun i => (unravel (lead_shape x) (Z.of_nat i), feature_row x i))
                (active_positions x)).
  rewrite (to_sparse_dim_blocks x c G).
  - subst G. rewrite !length_map, !map_map. cbn [fst snd]. reflexivity.
  - apply Hx.
  - apply to_sparse_blocks, Hx.
  - done.
  - lia.
  - subst G. apply Forall_forall. intros kr Hkr.
    change (map ?f ?l) with (f <$> l) in Hkr.
    apply list_elem_of_fmap in Hkr as (i & -> & Hi%active_positions_lt).
    cbn [snd]. apply (feature_row_length x c); [done | done | apply Hi].
  - subst G. apply Forall_forall. intros kr Hkr.
    change (map ?f ?l) with (f <$> l) in Hkr.
    apply list_elem_of_fmap in Hkr as (i & -> & Hi%active_positions_lt).
    cbn [snd]. apply Hi.
  - subst G. rewrite map_map. cbn [fst].
    change (map ?f ?l) with (f <$> l).
    apply NoDup_fmap_2_strong; [|apply active_positions_NoDup].
    intros i j Hi%active_positions_lt Hj%active_positions_lt E.
    apply unravel_inj in E; [lia | done | lia | lia].
Qed.

(** X11: [to_sparse_dim] by itself is row-aligned for a dense input of any
    extent: it returns as many coordinate columns as feature rows, every
    column is a position of the input (nothing is cut to 32 bits here), and
    each feature row is the input's feature vector at that position. *)
Theorem to_sparse_dim_row_aligned x :
  dense_input x ->
  exists vals idx c,
    to_sparse_dim x = Some (vals, idx) /\
    last (tshape x) = Some c /\
    tshape vals = [Z.of_nat (length idx); c] /\
    length (trows vals) = length idx /\
    Forall (in_bounds (lead_shape x)) idx /\
    Forall2 (fun pos row => feature_at x pos = Some row) idx (trows vals).
Proof.
  intros Hx.
  destruct (dense_input_shape x Hx) as (c & Hs & Hl & Hc & Hcr & Hnn & Hlen & HP).
  eexists _, _, c. split; [by apply to_sparse_dim_eq|]. split; [done|].
  set (Q := active_positions x).
  assert (Hrows : Forall (fun l => length l = Z.to_nat c) (map (feature_row x) Q)).
  { apply Forall_forall. intros l Hin. change (map ?f ?l) with (f <$> l) in Hin.
    apply list_elem_of_fmap in Hin as (i & -> & Hi%active_positions_lt).
    apply (feature_row_length x c); [done | done | apply Hi]. }
  assert (trows (mkTensor [Z.of_nat (length Q); c] (concat (map (feature_row x) Q)))
          = map (feature_row x) Q) as Htr.
  { unfold trows. cbn [tshape tdata]. rewrite Nat2Z.id.
    rewrite <- (length_map (feature_row x) Q) at 1. by apply chunks_concat. }
  rewrite Htr, !length_map. split; [done|]. split; [done|]. split.
  - apply Forall_forall. intros pos Hin. change (map ?f ?l) with (f <$> l) in Hin.
    apply list_elem_of_fmap in Hin as (i & -> & Hi%active_positions_lt).
    apply position_in_bounds; [done | apply Hi].
  - change (map ?f ?l) with (f <$> l). apply Forall2_fmap, Forall_Forall2_diag.
    apply Forall_forall. intros i Hi'%active_positions_lt.
    destruct (position_in_bounds x i Hx) as [Hb Hr]; [apply Hi'|].
    unfold feature_at. rewrite option_guard_True by done. by rewrite Hr.
Qed.

(** X12: the tensor [from_dense] builds has the shapes the constructor's
    docstring asks for, with [x.shape = [batch_size, *spatial_shape, C]]
    and no more sites than positions; its rulebook cache is empty, so every
    [find_indice_pair] on it returns [None], and it has no grid. *)
Theorem from_dense_fresh_well_formed x :
  dense_input x ->
  exists t c,
    from_dense x = Some t /\
    tshape x = batch_size t :: spatial_shape t ++ [c] /\
    sparse_wf t (Z.of_nat (length (coords t))) c /\
    (length (coords t) <= Z.to_nat (numel (batch_size t :: spatial_shape t)))%nat /\
    indice_dict t = ∅ /\ grid t = None /\
    forall key, (find_indice_pair t key).1 = None.
Proof.
  intros Hx.
  destruct (from_dense_sites (RB := RB) x Hx)
    as (t & c & Ht & Hl & Hlead & Hwf & Hcoords & _).
  destruct (from_dense_eq (RB := RB) x Hx) as (b & c' & _ & _ & Heq).
  destruct (dense_input_shape x Hx) as (c'' & Hs & Hl' & _).
  assert (c'' = c) as -> by congruence.
  exists t, c. split; [done|]. split; [by rewrite Hs, Hlead|].
  assert (length (coords t) = length (active_positions x)) as Hn
    by (by rewrite Hcoords, length_map).
  split; [by rewrite Hn|]. split.
  { rewrite Hn, <- Hlead. apply active_positions_length. }
  rewrite Ht in Heq. injection Heq as ->. split; [done|]. split; [done|].
  intros [key|]; [|done]. unfold find_indice_pair. cbn [init indice_dict].
  destruct (decide _) as [Hin|_]; [|done]. by rewrite dom_empty_L in Hin.
Qed.

(** X13: [from_dense] never stores an all-zero feature row, and every
    coordinate it stores is a 32-bit integer. *)
Theorem from_dense_rows_nonzero x :
  dense_input x ->
  exists t : SparseConvTensor RB,
    from_dense x = Some t /\ rows_active t /\ Forall (Forall int32) (coords t).
Proof.
  intros Hx.
  destruct (from_dense_sites (RB := RB) x Hx)
    as (t & c & Ht & _ & _ & _ & Hcoords & Hrows & _).
  exists t. split; [done|]. split.
  - unfold rows_active. rewrite Hrows. apply Forall_forall. intros row Hin.
    change (map ?f ?l) with (f <$> l) in Hin.
    apply list_elem_of_fmap in Hin as (i & -> & Hi%active_positions_lt). apply Hi.
  - rewrite Hcoords. apply Forall_forall. intros row Hin.
    change (map ?f ?l) with (f <$> l) in Hin.
    apply list_elem_of_fmap in Hin as (i & -> & _).
    apply Forall_forall. intros v Hv. change (map ?f ?l) with (f <$> l) in Hv.
    apply list_elem_of_fmap in Hv as (z & -> & _).
    apply (wrap_range 32). lia.
Qed.

Lemma extents_fit_active x :
  dense_input x -> Forall (fun d => d <= 2 ^ 31) (lead_shape x) ->
  active_coords_fit x.
Proof.
  intros Hx Hfit. apply Forall_forall. intros i Hi%active_positions_lt.
  destruct (position_in_bounds x i Hx) as [Hb _]; [apply Hi|].
  revert Hfit. generalize (unravel (lead_shape x) (Z.of_nat i)) Hb.
  generalize (lead_shape x). intros shape idx Hb'.
  induction Hb' as [|d v shape idx Hv _ IH]; intros Hfit; constructor.
  - apply Forall_cons in Hfit as [Hd _]. lia.
  - apply IH. by apply Forall_cons in Hfit as [_ ?].
Qed.

Lemma coords_active_fit x :
  dense_input x -> active_coords_fit x ->
  map (fun i => map to_int32 (unravel (lead_shape x) (Z.of_nat i))) (active_positions x)
  = map (fun i => unravel (lead_shape x) (Z.of_nat i)) (active_positions x).
Proof.
  intros Hx Hfit. apply map_ext_in. intros i Hi%list_elem_of_In.
  unfold active_coords_fit in Hfit. rewrite Forall_forall in Hfit.
  specialize (Hfit i Hi). apply active_positions_lt in Hi.
  destruct (position_in_bounds x i Hx) as [Hb _]; [apply Hi|].
  revert Hfit. generalize (unravel (lead_shape x) (Z.of_nat i)) Hb.
  generalize (lead_shape x). intros shape idx Hb'.
  induction Hb' as [|d v shape idx Hv _ IH]; intros Hfit; [done|].
  apply Forall_cons in Hfit as [Hlt Hfit]. simpl.
  rewrite IH by done. rewrite to_int32_small; [done | lia].
Qed.

Lemma from_dense_fit_sites x :
  dense_input x -> active_coords_fit x ->
  exists t c,
    @from_dense RB x = Some t /\ last (tshape x) = Some c /\
    lead_shape x = batch_size t :: spatial_shape t /\
    sparse_wf t (Z.of_nat (length (active_positions x))) c /\
    coords t = map (fun i => unravel (lead_shape x) (Z.of_nat i)) (active_positions x) /\
    tdata (features t) = concat (map (feature_row x) (active_positions x)) /\
    trows (features t) = map (feature_row x) (active_positions x) /\
    coords_in_bounds t /\ NoDup (coords t).
Proof.
  intros Hx Hfit.
  destruct (from_dense_sites (RB := RB) x Hx)
    as (t & c & Ht & Hl & Hlead & Hwf & Hcoords & Hrows & Hfdata).
  rewrite (coords_active_fit x Hx Hfit) in Hcoords.
  exists t, c. do 7 (split; [done|]). split.
  - unfold coords_in_bounds. rewrite Hcoords, <- Hlead. apply Forall_forall.
    intros pos Hin. change (map ?f ?l) with (f <$> l) in Hin.
    apply list_elem_of_fmap in Hin as (i & -> & Hi%active_positions_lt).
    apply position_in_bounds; [done | apply Hi].
  - rewrite Hcoords. change (map ?f ?l) with (f <$> l).
    apply NoDup_fmap_2_strong; [|apply active_positions_NoDup].
    intros i j Hi%active_positions_lt Hj%active_positions_lt E.
    destruct (dense_input_shape x Hx) as (_ & _ & _ & _ & _ & Hnn & _ & _).
    apply unravel_inj in E; [lia | done | lia | lia].
Qed.

(** X14: for extents of at most [2 ^ 31], [from_dense] lists the sites in
    strictly increasing row-major order of their coordinates; so the
    coordinate rows are in range and no coordinate row occurs twice. *)
Theorem from_dense_sites_sorted x :
  dense_input x -> Forall (fun d => d <= 2 ^ 31) (lead_shape x) ->
  exists t : SparseConvTensor RB,
    from_dense x = Some t /\
    coords_in_bounds t /\ row_major_sorted t /\ NoDup (coords t).
Proof.
  intros Hx Hfit.
  destruct (from_dense_fit_sites x Hx (extents_fit_active x Hx Hfit))
    as (t & c & Ht & _ & Hlead & _ & Hcoords & _ & _ & Hb & Hnd).
  exists t. split; [done|]. split; [done|]. split; [|done].
  intros i j p q Hij Hp Hq. rewrite <- Hlead.
  rewrite Hcoords in Hp, Hq. change (map ?f ?l) with (f <$> l) in Hp, Hq.
  rewrite list_lookup_fmap in Hp, Hq.
  destruct (active_positions x !! i) as [a|] eqn:Ha; simplify_eq/=.
  destruct (active_positions x !! j) as [b|] eqn:Hb'; simplify_eq/=.
  pose proof (increasing_lookup _ _ _ _ _ (active_positions_increasing x) Hij Ha Hb').
  apply list_elem_of_lookup_2, active_positions_lt in Ha as [Ha _].
  apply list_elem_of_lookup_2, active_positions_lt in Hb' as [Hb' _].
  destruct (dense_input_shape x Hx) as (_ & _ & _ & _ & _ & Hnn & _ & _).
  destruct (unravel_spec (lead_shape x) (Z.of_nat a) Hnn) as [_ ->]; [lia|].
  destruct (unravel_spec (lead_shape x) (Z.of_nat b) Hnn) as [_ ->]; [lia|].
  lia.
Qed.

(** X15: [from_dense] returns a tensor without sites exactly when every
    entry of the input is zero. *)
Theorem from_dense_no_sites_iff_zero x :
  dense_input x ->
  exists t : SparseConvTensor RB,
    from_dense x = Some t /\
    (coords t = [] <-> Forall (fun v => v = 0) (tdata x)) /\
    (tdata (features t) = [] <-> Forall (fun v => v = 0) (tdata x)).
Proof.
  intros Hx.
  destruct (from_dense_sites (RB := RB) x Hx)
    as (t & c & Ht & _ & _ & _ & Hcoords & _ & Hfdata).
  destruct (dense_input_shape x Hx) as (c' & Hs & Hl & Hc & Hcr & Hnn & Hlen & HP).
  exists t. split; [done|].
  assert (active_positions x = [] <-> Forall (fun v => v = 0) (tdata x)) as Hiff.
  { split.
    - intros HQ.
      rewrite <- (concat_chunks (Z.to_nat c') (Z.to_nat (numel (lead_shape x)))
                    (tdata x)) by lia.
      apply Forall_concat. rewrite <- (feature_rows_chunks x c') by done.
      apply Forall_forall. intros row Hin.
      change (map ?f ?l) with (f <$> l) in Hin.
      apply list_elem_of_fmap in Hin as (i & -> & Hi%elem_of_seq).
      apply is_active_false_iff, not_true_is_false. intros Hact.
      assert (i ∈ active_positions x) as Hin.
      { unfold active_positions. apply list_elem_of_filter. split; [done|].
        apply elem_of_seq. lia. }
      rewrite HQ in Hin. by apply elem_of_nil in Hin.
    - intros Hz. apply filter_none. apply Forall_forall. intros i _.
      apply not_true_iff_false, is_active_false_iff.
      unfold feature_row. by apply Forall_take, Forall_drop. }
  split.
  - rewrite <- Hiff, Hcoords. split; [|by intros ->].
    intros E. by apply map_eq_nil in E.
  - rewrite <- Hiff, Hfdata. split; [|by intros ->].
    intros E. destruct (active_positions x) as [|i Q] eqn:HQ; [done|].
    exfalso. cbn [map concat] in E. apply app_eq_nil in E as [E _].
    assert (i ∈ active_positions x) as Hi by (rewrite HQ; left).
    apply active_positions_lt in Hi as [_ Hact]. rewrite E in Hact. done.
Qed.

(** X16: when no position of the input is all zero, [from_dense] keeps
    every position: the feature matrix is the input viewed with one row
    per position, and there is one coordinate row per position. *)
Theorem from_dense_all_positions x :
  dense_input x ->
  (forall i : nat, (i < Z.to_nat (numel (lead_shape x)))%nat ->
     is_active (feature_row x i) = true) ->
  exists (t : SparseConvTensor RB) c,
    from_dense x = Some t /\ last (tshape x) = Some c /\
    features t = mkTensor [numel (lead_shape x); c] (tdata x) /\
    coords t = map (fun i => map to_int32 (unravel (lead_shape x) (Z.of_nat i)))
                   (seq 0 (Z.to_nat (numel (lead_shape x)))).
Proof.
  intros Hx Hall.
  destruct (from_dense_sites (RB := RB) x Hx)
    as (t & c & Ht & Hl & _ & Hwf & Hcoords & _ & Hfdata).
  destruct (dense_input_shape x Hx) as (c' & Hs & Hl' & Hc & Hcr & Hnn & Hlen & HP).
  assert (c' = c) as -> by congruence.
  assert (active_positions x = seq 0 (Z.to_nat (numel (lead_shape x)))) as HQ.
  { unfold active_positions. apply filter_all. apply Forall_forall.
    intros i Hi%elem_of_seq. apply Hall. lia. }
  exists t, c. split; [done|]. split; [done|]. split; [|by rewrite Hcoords, HQ].
  destruct Hwf as (Hf & _). destruct (features t) as [fs fd].
  cbn [tshape tdata] in *. subst fs fd. rewrite HQ, length_seq.
  rewrite Z2Nat.id by done. f_equal.
  rewrite (feature_rows_chunks x c) by done. apply concat_chunks. lia.
Qed.

(** X17: [from_dense] raises on an input with fewer than two dimensions:
    a tensor without dimensions has no [shape[0]], and the hybrid
    conversion rejects a tensor with a single one. *)
Theorem from_dense_needs_two_dimensions x :
  (length (tshape x) < 2)%nat -> @from_dense RB x = None.
Proof.
  intros Hnd. unfold from_dense.
  destruct (tshape x) as [|b [|d sh]] eqn:Hs; [done | | simpl in Hnd; lia].
  cbn [head mbind option_bind].
  destruct (to_sparse_dim x) as [[vals idx]|]; [|done].
  cbn [mbind option_bind]. by rewrite option_guard_False by (simpl; lia).
Qed.

End FromDenseMore.

(** ** Composing the conversions *)

Section Compose.
Context {RB : Type}.
Implicit Types (t : SparseConvTensor RB).

(** Sparse and back, channels last, read off the flat buffer. *)
Lemma from_dense_then_dense x :
  dense_input x -> active_coords_fit x ->
  exists t c,
    @from_dense RB x = Some t /\ last (tshape x) = Some c /\
    tshape x = batch_size t :: spatial_shape t ++ [c] /\
    coords t = map (fun i => unravel (lead_shape x) (Z.of_nat i)) (active_positions x) /\
    trows (features t) = map (feature_row x) (active_positions x) /\
    dense t false = Some x.
Proof.
  intros Hx Hfit.
  destruct (from_dense_fit_sites (RB := RB) x Hx Hfit)
    as (t & c & Ht & Hl & Hlead & Hwf & Hcoords & Hfdata & Hfrows & Hb & Hnd).
  destruct (dense_input_shape x Hx) as (c' & Hs & Hl' & Hc & Hcr & Hnn & Hlen & HP).
  assert (c' = c) as -> by congruence.
  exists t, c. split; [done|]. split; [done|].
  assert (tshape x = batch_size t :: spatial_shape t ++ [c]) as Hshape
    by (by rewrite Hs, Hlead).
  split; [done|]. split; [done|]. split; [done|]. clear Hfrows.
  destruct (dense_data t _ c Hwf Hb) as (D & HD & HDl & Hhit & Hmiss).
  rewrite HD, <- Hshape. destruct x as [xs xd]. cbn [tshape tdata] in *.
  do 2 f_equal. rewrite <- Hlead in *.
  set (Q := active_positions (mkTensor xs xd)) in *.
  assert (Hrows : Forall (fun l => length l = Z.to_nat c)
                    (map (feature_row (mkTensor xs xd)) Q)).
  { apply Forall_forall. intros l Hin. change (map ?f ?l) with (f <$> l) in Hin.
    apply list_elem_of_fmap in Hin as (i & -> & Hi%active_positions_lt).
    apply (feature_row_length _ c); [done | done | apply Hi]. }
  apply (list_eq_rows (Z.to_nat c)
           (Z.to_nat (numel (lead_shape (mkTensor xs xd))))); [done | done |].
  intros q k Hq Hk.
  pose proof (feature_row_lookup (mkTensor xs xd) c q k Hc Hk) as Hfr.
  cbn [tdata] in Hfr. rewrite <- Hfr. clear Hfr.
  destruct (decide (q ∈ Q)) as [Hin|Hnotin].
  - apply list_elem_of_lookup in Hin as [i Hi].
    destruct (position_in_bounds (mkTensor xs xd) q Hx Hq) as [_ Hr].
    rewrite <- Hr at 1.
    rewrite (Hhit i (unravel (lead_shape (mkTensor xs xd)) (Z.of_nat q)) k).
    + rewrite Hfdata.
      apply (lookup_concat_rows _ _ _ _ _ Hrows); [|done].
      change (map ?f ?l) with (f <$> l). by rewrite list_lookup_fmap, Hi.
    + rewrite Hcoords. change (map ?f ?l) with (f <$> l).
      by rewrite list_lookup_fmap, Hi.
    + intros i' Hii' Hi'. rewrite NoDup_alt in Hnd.
      assert (coords t !! i
              = Some (unravel (lead_shape (mkTensor xs xd)) (Z.of_nat q))) as Hi0.
      { rewrite Hcoords. change (map ?f ?l) with (f <$> l).
        by rewrite list_lookup_fmap, Hi. }
      specialize (Hnd _ _ _ Hi0 Hi'). lia.
    + done.
  - rewrite Hmiss; [|done| |done].
    + symmetry. apply inactive_lookup.
      * apply not_true_is_false. intros Hact. apply Hnotin.
        subst Q. unfold active_positions. apply list_elem_of_filter.
        split; [done|]. apply elem_of_seq. lia.
      * rewrite (feature_row_length _ c); [lia | done | done | done].
    + intros p Hp E. apply Hnotin. rewrite Hcoords in Hp.
      change (map ?f ?l) with (f <$> l) in Hp.
      apply list_elem_of_fmap in Hp as (i & -> & Hi).
      apply active_positions_lt in Hi as Hi'.
      destruct (position_in_bounds (mkTensor xs xd) i Hx) as [_ Hr]; [apply Hi'|].
      rewrite Hr in E. by subst.
Qed.

(** X18: the conversion to sparse loses nothing as long as the positions
    that hold a nonzero entry have coordinates below [2 ^ 31], whatever
    the extents of the input: the tensor [from_dense] builds is then
    row-aligned with the input, and [dense(channels_first=False)] returns
    the input. *)
Theorem from_dense_active_coords_fit x :
  dense_input x -> active_coords_fit x ->
  exists t : SparseConvTensor RB,
    from_dense x = Some t /\
    Forall2 (fun pos row => feature_at x pos = Some row)
            (coords t) (trows (features t)) /\
    dense t false = Some x.
Proof.
  intros Hx Hfit.
  destruct (from_dense_then_dense x Hx Hfit)
    as (t & c & Ht & _ & _ & Hcoords & Hrows & Hd).
  exists t. split; [done|]. split; [|done]. rewrite Hcoords, Hrows.
  change (map ?f ?l) with (f <$> l). apply Forall2_fmap, Forall_Forall2_diag.
  apply Forall_forall. intros i Hi'%active_positions_lt.
  destruct (position_in_bounds x i Hx) as [Hb Hr]; [apply Hi'|].
  unfold feature_at. rewrite option_guard_True by done. by rewrite Hr.
Qed.

(** X19: [ToDense] after [ToSparse] turns a channel-last array into the
    channel-first one: for extents of at most [2 ^ 31] the result has shape
    [[B, C, *spatial]] and its entry [(b, k, s...)] is entry [(b, s..., k)]
    of the input. *)
Theorem ToDense_ToSparse_channels_first x :
  dense_input x -> Forall (fun d => d <= 2 ^ 31) (lead_shape x) ->
  exists (t : SparseConvTensor RB) r c,
    ToSparse_forward x = Some t /\ ToDense_forward t = Some r /\
    tshape x = batch_size t :: spatial_shape t ++ [c] /\
    tshape r = batch_size t :: c :: spatial_shape t /\
    Z.of_nat (length (tdata r)) = numel (tshape r) /\
    forall b k s,
      in_bounds (batch_size t :: spatial_shape t) (b :: s) -> 0 <= k < c ->
      tget r (b :: k :: s) = tget x (b :: s ++ [k]).
Proof.
  intros Hx Hfit.
  destruct (from_dense_then_dense x Hx (extents_fit_active x Hx Hfit))
    as (t & c & Ht & Hl & Hshape & _ & _ & Hd).
  pose proof (dense_true_eq t) as Htrue. rewrite Hd in Htrue.
  cbn [mbind option_bind] in Htrue.
  destruct x as [xs xd]. cbn [tshape tdata] in *. subst xs.
  rewrite (permute_channels_first _ _ _ _ _ eq_refl) in Htrue.
  exists t. eexists _, c. split; [exact Ht|]. split; [exact Htrue|].
  split; [done|]. split; [done|].
  destruct Hx as (_ & Hv & _). cbn [tshape] in Hv.
  assert (Forall (fun d => 0 <= d) (batch_size t :: c :: spatial_shape t)) as Hnn.
  { apply valid_sizes_nonneg in Hv. apply Forall_cons in Hv as [Hb Hv].
    apply Forall_app in Hv as [Hs Hcc]. rewrite Forall_singleton in Hcc.
    constructor; [done|]. by constructor. }
  split.
  - cbn [tshape tdata]. rewrite length_map, length_seqZ. apply Z2Nat.id.
    by apply numel_nonneg.
  - intros b k s Hb Hk. apply permute_channels_first_get; [done|].
    apply Forall2_cons in Hb as [Hb Hs]. constructor; [done|]. by constructor.
Qed.

(** X20: [ToSparseFunction.backward] applied to what
    [ToSparseFunction.forward] returns gives the channel-first array that
    [ToDense] gives, followed by three [None]; each call prints one line,
    [forward] with its input. *)
Theorem ToSparseFunction_forward_backward x stdout :
  dense_input x -> Forall (fun d => d <= 2 ^ 31) (lead_shape x) ->
  exists (t : SparseConvTensor RB) r,
    ToSparseFunction_forward x stdout
    = (stdout ++ [[PStr "-------To Sparse forward"; PTypeOf x; PTensor x]],
       Some t) /\
    ToSparseFunction_backward t
      (stdout ++ [[PStr "-------To Sparse forward"; PTypeOf x; PTensor x]])
    = (stdout ++ [[PStr "-------To Sparse forward"; PTypeOf x; PTensor x];
                  [PStr "-------To Sparse backward"]],
       Some (r, None, None, None)) /\
    ToDense_forward t = Some r /\
    ToSparse_forward x = Some t.
Proof.
  intros Hx Hfit.
  destruct (from_dense_then_dense x Hx (extents_fit_active x Hx Hfit))
    as (t & c & Ht & _ & _ & _ & _ & Hd).
  destruct (dense_true_total _ _ Hd) as [r Hr].
  exists t, r. unfold ToSparseFunction_forward, ToSparseFunction_backward,
    ToDense_forward, ToSparse_forward.
  rewrite Ht, Hr. cbn [mbind option_bind]. rewrite <- app_assoc. done.
Qed.

End Compose.

(** ** Dense and back *)

Lemma filter_ext_elem {A} (P Q : A -> Prop) `{forall a, Decision (P a)}
    `{forall a, Decision (Q a)} (l : list A) :
  (forall a, a ∈ l -> (P a <-> Q a)) -> filter P l = filter Q l.
Proof.
  induction l as [|a l IH]; intros Hl; [done|]. rewrite !filter_cons.
  assert (P a <-> Q a) as Ha by (apply Hl; left).
  rewrite IH by (intros b Hb; apply Hl; by right).
  destruct (decide (P a)), (decide (Q a)); tauto.
Qed.

(** Filtering a range by membership in an increasing list of positions of
    that range gives the list back. *)
Lemma filter_elem_of_increasing (offs : list nat) (s len : nat) :
  increasing offs -> Forall (fun a => (s <= a < s + len)%nat) offs ->
  filter (fun q => q ∈ offs) (seq s len) = offs.
Proof.
  revert s offs. induction len as [|len IH]; intros s offs Hinc Hall.
  { destruct offs as [|a offs]; [done|]. apply Forall_cons in Hall as [? _]. lia. }
  cbn [seq]. rewrite filter_cons.
  destruct offs as [|a offs].
  { rewrite decide_False by apply not_elem_of_nil. by apply (IH (S s) []). }
  destruct Hinc as [Ha Hinc]. apply Forall_cons in Hall as [Has Hall].
  rewrite Forall_forall in Ha, Hall.
  destruct (decide (a = s)) as [->|Hne].
  - rewrite decide_True by left. f_equal.
    transitivity (filter (fun q => q ∈ offs) (seq (S s) len));
      [|apply (IH (S s) offs Hinc)].
    + apply filter_ext_elem. intros q Hq%elem_of_seq.
      rewrite elem_of_cons. split; [intros [?|?]; [lia | done] | by right].
    + apply Forall_forall. intros b Hb. specialize (Ha b Hb).
      specialize (Hall b Hb). lia.
  - rewrite decide_False.
    + apply (IH (S s) (a :: offs)); [by split; [apply Forall_forall|]|].
      apply Forall_cons. split; [lia|]. apply Forall_forall. intros b Hb.
      specialize (Ha b Hb). specialize (Hall b Hb). lia.
    + rewrite elem_of_cons. intros [?|Hs]; [lia|]. specialize (Ha s Hs). lia.
Qed.

Section Reverse.
Context {RB : Type}.
Implicit Types (t : SparseConvTensor RB).

Lemma row_major_sorted_NoDup t : row_major_sorted t -> NoDup (coords t).
Proof.
  intros Hs. apply NoDup_alt. intros i j p Hi Hj.
  destruct (Nat.lt_trichotomy i j) as [Hij|[->|Hij]]; [|done|].
  - pose proof (Hs i j p p Hij Hi Hj). lia.
  - pose proof (Hs j i p p Hij Hj Hi). lia.
Qed.

(** X21: dense and back.  For a tensor whose sites are listed in strictly
    increasing row-major order, with in-range coordinates, no all-zero
    feature row and extents of at most [2 ^ 31], [from_dense] of the
    channels-last dense array gives the features, the indices, the spatial
    shape and the batch size back, in a fresh tensor: empty rulebook cache,
    no grid. *)
Theorem dense_then_from_dense t n c :
  sparse_wf t n c -> coords_in_bounds t -> row_major_sorted t -> rows_active t ->
  Forall (fun d => d <= 2 ^ 31) (batch_size t :: spatial_shape t) ->
  numel (batch_size t :: spatial_shape t ++ [c]) < 2 ^ 63 ->
  exists r,
    dense t false = Some r /\
    @from_dense RB r
    = Some (init (features t) (indices t) (spatial_shape t) (batch_size t) None).
Proof.
  intros Hwf Hb Hsorted Hact Hfit Hnumel.
  pose proof (row_major_sorted_NoDup t Hsorted) as Hnd.
  destruct (dense_data t n c Hwf Hb) as (D & HD & HDl & Hhit & Hmiss).
  pose proof (sparse_wf_valid _ _ _ Hwf) as (Hn & Hc & Hv & Hv').
  destruct (coords_row_length _ _ _ Hwf) as [Hlen _].
  destruct (feature_rows _ _ _ Hwf) as (Hfr & Hflen & Hfrl & Hfdl).
  pose proof (coords_eq _ _ _ Hwf) as Hcoords.
  unfold coords_in_bounds in Hb. rewrite Forall_forall in Hb.
  unfold row_major_sorted in Hsorted.
  set (shape0 := batch_size t :: spatial_shape t) in *.
  change (batch_size t :: spatial_shape t ++ [c]) with (shape0 ++ [c]) in *.
  set (r := mkTensor (shape0 ++ [c]) D).
  exists r. split; [exact HD|].
  assert (0 <= numel shape0) as HP
    by (apply numel_nonneg, valid_sizes_nonneg, Hv).
  assert (lead_shape r = shape0) as Hlead by apply removelast_last.
  assert (List.last (tshape r) 0 = c) as Hlast by apply last_last.
  assert (dense_input r) as Hr.
  { split; [|split; [exact Hv'|split; [|exact Hnumel]]].
    - subst r shape0. cbn [tshape]. rewrite length_app. simpl. lia.
    - subst r. cbn [tshape tdata]. rewrite HDl, numel_app.
      change (numel [c]) with (c * 1). nia. }
  set (off := fun p => Z.to_nat (ravel shape0 p)).
  set (offs := map off (coords t)).
  assert (Hrow : forall i p, coords t !! i = Some p ->
            trows (features t) !! i = Some (feature_row r (off p))).
  { intros i p Hp. assert (i < Z.to_nat n)%nat as Hi
      by (apply lookup_lt_Some in Hp; lia).
    rewrite Hfr, chunks_lookup by done. f_equal. apply list_eq. intros k.
    destruct (decide (k < Z.to_nat c)%nat) as [Hk|Hk].
    - rewrite lookup_take_lt, lookup_drop by done.
      rewrite (feature_row_lookup r c (off p) k Hlast Hk). subst r. cbn [tdata].
      symmetry. apply (Hhit i p k Hp); [|done].
      intros i' Hii' Hp'. rewrite NoDup_alt in Hnd.
      specialize (Hnd _ _ _ Hp Hp'). lia.
    - unfold feature_row. rewrite Hlast.
      rewrite !lookup_take_ge; [done | lia | lia]. }
  assert (Hzero : forall q, (q < Z.to_nat (numel shape0))%nat -> q ∉ offs ->
            is_active (feature_row r q) = false).
  { intros q Hq Hnin. apply is_active_false_iff. apply Forall_lookup_2.
    intros k v Hk.
    assert (k < Z.to_nat c)%nat as Hkc.
    { apply lookup_lt_Some in Hk. unfold feature_row in Hk.
      rewrite length_take in Hk. rewrite Hlast in Hk. lia. }
    rewrite (feature_row_lookup r c q k Hlast Hkc) in Hk. subst r.
    cbn [tdata] in Hk. rewrite Hmiss in Hk; [congruence | done | | done].
    intros p Hp E. apply Hnin. subst offs. change (map ?f ?l) with (f <$> l).
    apply list_elem_of_fmap. exists p. by split. }
  assert (active_positions r = offs) as HQ.
  { unfold active_positions. rewrite Hlead.
    rewrite <- (filter_elem_of_increasing offs 0 (Z.to_nat (numel shape0))).
    - apply filter_ext_elem. intros q Hq%elem_of_seq. split.
      + intros Hq'. destruct (decide (q ∈ offs)) as [|Hnin]; [done|].
        rewrite Hzero in Hq'; [done | lia | done].
      + intros Hin. subst offs. change (map ?f ?l) with (f <$> l) in Hin.
        apply list_elem_of_fmap in Hin as (p & -> & Hp).
        apply list_elem_of_lookup in Hp as (i & Hp).
        apply Hrow in Hp as Hfp. unfold rows_active in Hact.
        eapply Forall_lookup_1 in Hact; [exact Hact | exact Hfp].
    - apply lookup_increasing. intros i j a b Hij Ha Hb'. subst offs.
      change (map ?f ?l) with (f <$> l) in Ha, Hb'.
      rewrite list_lookup_fmap in Ha, Hb'.
      destruct (coords t !! i) as [p|] eqn:Hp; simplify_eq/=.
      destruct (coords t !! j) as [q|] eqn:Hq; simplify_eq/=.
      pose proof (Hsorted i j p q Hij Hp Hq).
      apply list_elem_of_lookup_2, Hb, ravel_bounds in Hp.
      apply list_elem_of_lookup_2, Hb, ravel_bounds in Hq.
      subst off. cbv beta. lia.
    - apply Forall_forall. intros a Ha. subst offs.
      change (map ?f ?l) with (f <$> l) in Ha.
      apply list_elem_of_fmap in Ha as (p & -> & Hp).
      apply Hb, ravel_bounds in Hp. subst off. cbv beta. lia. }
  assert (map (feature_row r) offs = trows (features t)) as Hfrows.
  { apply list_eq. intros i. subst offs. rewrite map_map.
    change (map ?f ?l) with (f <$> l). rewrite list_lookup_fmap.
    destruct (coords t !! i) as [p|] eqn:Hp; simpl.
    - symmetry. by apply Hrow.
    - symmetry. apply lookup_ge_None_2. apply lookup_ge_None_1 in Hp. lia. }
  assert (map (fun i => map to_int32 (unravel shape0 (Z.of_nat i))) offs = coords t)
    as Hcrows.
  { subst offs. rewrite map_map. rewrite <- (map_id (coords t)) at 2.
    apply map_ext_in. intros p Hp%list_elem_of_In. apply Hb in Hp as Hpb.
    pose proof (ravel_bounds _ _ Hpb). subst off. cbv beta.
    rewrite Z2Nat.id by lia. rewrite (unravel_ravel _ _ Hpb).
    by apply (in_bounds_to_int32 shape0). }
  destruct (from_dense_eq (RB := RB) r Hr) as (b & c' & Hhd & Hl & Heq).
  rewrite Heq, HQ, Hlead, Hfrows, Hcrows. clear Heq.
  assert (b = batch_size t) as -> by (subst r; cbn in Hhd; congruence).
  assert (c' = c) as ->.
  { subst r. cbn [tshape] in Hl. rewrite last_snoc in Hl. congruence. }
  assert (removelast (tail (tshape r)) = spatial_shape t) as ->.
  { subst r shape0. cbn [tshape tail app]. apply removelast_last. }
  assert (length offs = Z.to_nat n) as -> by (subst offs; by rewrite length_map).
  rewrite Z2Nat.id by lia.
  assert (concat (trows (features t)) = tdata (features t)) as ->.
  { rewrite Hfr. apply concat_chunks. lia. }
  assert (concat (coords t) = tdata (indices t)) as ->.
  { rewrite Hcoords. apply concat_chunks.
    destruct Hwf as (_ & _ & _ & Hil & _). nia. }
  destruct Hwf as (Hf & _ & Hi & _).
  assert (Z.of_nat (length (tshape r)) - 1
          = Z.of_nat (length (spatial_shape t)) + 1) as ->.
  { subst r shape0. cbn [tshape]. rewrite length_app. simpl. lia. }
  rewrite <- Hf, <- Hi. by destruct (features t), (indices t).
Qed.

End Reverse.

(** ** The further properties on concrete inputs *)

Lemma two_sites_int64 : coords_int64 two_sites.
Proof.
  unfold coords_int64. rewrite two_sites_coords.
  repeat constructor; unfold int64; lia.
Qed.

Lemma two_sites_sorted : row_major_sorted two_sites.
Proof.
  intros i j p q Hij Hp Hq. rewrite two_sites_coords in Hp, Hq.
  destruct i as [|[|i]], j as [|[|j]]; simplify_eq/=; try lia. by vm_compute.
Qed.

Lemma two_sites_rows_active : rows_active two_sites.
Proof.
  unfold rows_active.
  replace (trows (features two_sites)) with [[1; 2]; [3; 4]] by (by vm_compute).
  by repeat constructor.
Qed.

Lemma full_row_dense_input : dense_input full_row.
Proof. unfold dense_input. cbn. repeat split; lia. Qed.

(** X1 at [two_sites]. *)
Lemma dense_succeeds_iff_python_range_witness :
  (is_Some (dense two_sites false) <-> coords_python_range two_sites) /\
  (is_Some (dense two_sites true) <-> coords_python_range two_sites) /\
  (is_Some (ToDense_forward two_sites) <-> coords_python_range two_sites).
Proof.
  exact (dense_succeeds_iff_python_range two_sites 2 2 two_sites_wf two_sites_int64).
Defined.

(** X2 at a site with coordinate [-1] in a row of extent 2. *)
Lemma dense_negative_coords_wrap_witness :
  coords (normalize_coords (negative_site 1 7)) = [[0; 1]] /\
  coords_in_bounds (normalize_coords (negative_site 1 7)) /\
  dense (negative_site 1 7) false
  = dense (normalize_coords (negative_site 1 7)) false.
Proof.
  assert (Hc : coords (normalize_coords (negative_site 1 7)) = [[0; 1]])
    by (by vm_compute).
  destruct (dense_negative_coords_wrap (negative_site 1 7) 1 1) as (_ & Hb & Hd).
  - by vm_compute.
  - unfold coords_python_range.
    replace (coords (negative_site 1 7)) with [[0; -1]] by (by vm_compute).
    cbn [batch_size spatial_shape negative_site init].
    repeat constructor; unfold python_index; lia.
  - rewrite Hc. compute_done.
  - split; [exact Hc|]. split; [exact Hb | exact (Hd false)].
Defined.

(** X3: two feature rows, one coordinate row. *)
Lemma dense_row_count_mismatch_witness :
  dense mismatched_rows true = None.
Proof.
  apply (dense_row_count_mismatch mismatched_rows 2 1 2 true);
    [reflexivity | reflexivity | reflexivity | lia | lia].
Defined.

(** X4 at [negative_batch]. *)
Lemma dense_negative_extent_witness :
  dense negative_batch true = None.
Proof.
  apply (dense_negative_extent negative_batch true).
  apply Exists_cons_hd. cbn. lia.
Defined.

(** X5 at [no_sites]. *)
Lemma dense_no_sites_witness :
  dense no_sites false
  = Some (mkTensor [1; 2; 2; 2] (replicate (Z.to_nat (numel [1; 2; 2; 2])) 0)) /\
  dense no_sites true
  = Some (mkTensor [1; 2; 2; 2] (replicate (Z.to_nat (numel [1; 2; 2; 2])) 0)).
Proof.
  apply (dense_no_sites no_sites 2). by vm_compute.
Defined.

(** X6: the two sites of [two_sites], swapped. *)
Lemma dense_site_order_irrelevant_witness :
  coords (reorder_sites two_sites [1%nat; 0%nat]) = [[0; 1; 0]; [0; 0; 1]] /\
  dense (reorder_sites two_sites [1%nat; 0%nat]) false = dense two_sites false.
Proof.
  destruct (dense_site_order_irrelevant two_sites 2 2 [1%nat; 0%nat]
              two_sites_wf two_sites_in_bounds two_sites_NoDup)
    as (Hc & _ & Hd).
  - change (seq 0 (Z.to_nat 2)) with [0%nat; 1%nat]. apply perm_swap.
  - split; [rewrite Hc; by vm_compute | exact (Hd false)].
Defined.

(** X7 at [huge_grid], where the product wraps. *)
Lemma spatial_size_modulo_2_64_witness :
  spatial_size huge_grid = - 2 ^ 63 /\
  int64 (spatial_size huge_grid) /\
  (spatial_size huge_grid - numel (spatial_shape huge_grid)) mod 2 ^ 64 = 0.
Proof.
  destruct (spatial_size_modulo_2_64 huge_grid) as (Hr & Hc & _).
  - done.
  - repeat constructor; unfold int64; cbn; lia.
  - split; [by vm_compute|]. split; [exact Hr | exact Hc].
Defined.

(** X8 at [huge_batch] and at [zero_batch]. *)
Lemma sparity_raises_iff_witness :
  sparity huge_batch = None /\ is_Some (sparity zero_batch).
Proof.
  split.
  - destruct (sparity_raises_iff huge_batch) as ([_ Hraise] & _).
    + repeat constructor; unfold int64; cbn; lia.
    + repeat constructor; unfold int64; cbn; lia.
    + apply Hraise. right. by vm_compute.
  - destruct (sparity_raises_iff zero_batch) as (_ & Hzero & _).
    + repeat constructor; unfold int64; cbn; lia.
    + repeat constructor; unfold int64; cbn; lia.
    + by apply Hzero.
Defined.

(** X10 on a store that holds [two_sites_with_grid] at address 5. *)
Lemma RemoveGrid_forward_unobserved_witness :
  exists h' t',
    RemoveGrid_forward {[ 5%nat := two_sites_with_grid ]} 5%nat = Some (5%nat, h') /\
    h' !! 5%nat = Some t' /\
    dense t' true = dense two_sites_with_grid true /\
    sparity t' = sparity two_sites_with_grid /\
    RemoveGrid_forward h' 5%nat = Some (5%nat, h').
Proof.
  destruct (RemoveGrid_forward_unobserved {[ 5%nat := two_sites_with_grid ]} 5%nat
              two_sites_with_grid)
    as (h' & t' & Hf & Hl & Hd & Hs & _ & _ & Hi).
  - apply lookup_singleton_eq.
  - exists h', t'. split; [exact Hf|]. split; [exact Hl|].
    split; [|split; [exact Hs | exact Hi]].
    apply Hd; [exact two_sites_in_bounds | exact two_sites_NoDup].
Defined.

(** X11 at [small_image]. *)
Lemma to_sparse_dim_row_aligned_witness :
  exists vals idx c,
    to_sparse_dim small_image = Some (vals, idx) /\
    last (tshape small_image) = Some c /\
    tshape vals = [Z.of_nat (length idx); c] /\
    length (trows vals) = length idx /\
    Forall (in_bounds (lead_shape small_image)) idx /\
    Forall2 (fun pos row => feature_at small_image pos = Some row) idx (trows vals).
Proof.
  exact (to_sparse_dim_row_aligned small_image small_image_dense_input).
Defined.

(** X12 at [small_image]. *)
Lemma from_dense_fresh_well_formed_witness :
  exists (t : SparseConvTensor unit) c,
    from_dense small_image = Some t /\
    tshape small_image = batch_size t :: spatial_shape t ++ [c] /\
    sparse_wf t (Z.of_nat (length (coords t))) c /\
    indice_dict t = ∅ /\ grid t = None.
Proof.
  destruct (from_dense_fresh_well_formed (RB := unit) small_image
              small_image_dense_input)
    as (t & c & Ht & Hs & Hwf & _ & Hd & Hg & _).
  exists t, c. split; [exact Ht|]. split; [exact Hs|]. split; [exact Hwf|].
  split; [exact Hd | exact Hg].
Defined.

(** X13 at [small_image]. *)
Lemma from_dense_rows_nonzero_witness :
  exists t : SparseConvTensor unit,
    from_dense small_image = Some t /\ rows_active t /\
    Forall (Forall int32) (coords t).
Proof.
  exact (from_dense_rows_nonzero (RB := unit) small_image small_image_dense_input).
Defined.

(** X14 at [small_image]. *)
Lemma from_dense_sites_sorted_witness :
  exists t : SparseConvTensor unit,
    from_dense small_image = Some t /\
    coords_in_bounds t /\ row_major_sorted t /\ NoDup (coords t).
Proof.
  exact (from_dense_sites_sorted (RB := unit) small_image
           small_image_dense_input small_image_fits).
Defined.

(** X15 at [small_image], which is not all zero. *)
Lemma from_dense_no_sites_iff_zero_witness :
  exists t : SparseConvTensor unit,
    from_dense small_image = Some t /\
    (coords t = [] <-> Forall (fun v => v = 0) (tdata small_image)) /\
    (tdata (features t) = [] <-> Forall (fun v => v = 0) (tdata small_image)).
Proof.
  exact (from_dense_no_sites_iff_zero (RB := unit) small_image
           small_image_dense_input).
Defined.

(** X16 at [full_row]: both pixels are kept. *)
Lemma from_dense_all_positions_witness :
  exists (t : SparseConvTensor unit) c,
    from_dense full_row = Some t /\ last (tshape full_row) = Some c /\
    features t = mkTensor [numel (lead_shape full_row); c] (tdata full_row) /\
    coords t = map (fun i => map to_int32 (unravel (lead_shape full_row) (Z.of_nat i)))
                   (seq 0 (Z.to_nat (numel (lead_shape full_row)))).
Proof.
  apply (from_dense_all_positions (RB := unit) full_row full_row_dense_input).
  intros i Hi. change (Z.to_nat (numel (lead_shape full_row))) with 2%nat in Hi.
  destruct i as [|[|i]]; [reflexivity | reflexivity | lia].
Defined.

(** X17 at [one_dimension]. *)
Lemma from_dense_needs_two_dimensions_witness :
  from_dense one_dimension = (None : option (SparseConvTensor unit)).
Proof.
  apply (from_dense_needs_two_dimensions (RB := unit) one_dimension).
  simpl. lia.
Defined.

Section WideLow.
Variable n : nat.
Hypothesis Hn : Z.of_nat n = 2 ^ 31.

Lemma wide_low_dense_input : dense_input (wide_low_tensor n).
Proof.
  unfold dense_input, wide_low_tensor. cbn [tshape tdata].
  split; [simpl; lia|]. split; [reflexivity|].
  cbn [length]. rewrite length_replicate. cbn [numel foldr]. lia.
Qed.

Lemma wide_low_active_fit : active_coords_fit (wide_low_tensor n).
Proof.
  apply Forall_forall. intros i [Hi Hact]%active_positions_lt.
  change (lead_shape (wide_low_tensor n)) with [1; 2 ^ 31 + 1].
  destruct i as [|i].
  - change (unravel [1; 2 ^ 31 + 1] (Z.of_nat 0)) with [0; 0].
    repeat constructor; lia.
  - exfalso. unfold feature_row, wide_low_tensor in Hact. cbn [tshape tdata] in Hact.
    change (Z.to_nat (List.last [1; 2 ^ 31 + 1; 1] 0)) with 1%nat in Hact.
    rewrite Nat.mul_1_r in Hact. cbn [drop] in Hact.
    assert (is_active (take 1 (drop i (replicate n 0))) = false) as E.
    { apply is_active_false_iff, Forall_take, Forall_drop, Forall_replicate. done. }
    congruence.
Qed.

End WideLow.

(** X18 at [wide_low_input]: an extent of [2 ^ 31 + 1], the only nonzero
    entry at coordinate 0. *)
Lemma from_dense_active_coords_fit_witness :
  exists t : SparseConvTensor unit,
    from_dense wide_low_input = Some t /\
    Forall2 (fun pos row => feature_at wide_low_input pos = Some row)
            (coords t) (trows (features t)) /\
    dense t false = Some wide_low_input.
Proof.
  apply (from_dense_active_coords_fit (RB := unit) wide_low_input).
  - apply wide_low_dense_input. apply Z2Nat.id. lia.
  - apply wide_low_active_fit.
Defined.

(** X19 at [small_image]: the second channel of pixel (0, 1). *)
Lemma ToDense_ToSparse_channels_first_witness :
  exists (t : SparseConvTensor unit) r,
    ToSparse_forward small_image = Some t /\ ToDense_forward t = Some r /\
    tshape r = [1; 2; 2; 2] /\
    tget r [0; 1; 0; 1] = tget small_image [0; 0; 1; 1].
Proof.
  destruct (ToDense_ToSparse_channels_first (RB := unit) small_image
              small_image_dense_input small_image_fits)
    as (t & r & c & Ht & Hr & Hx & Hs & _ & Hget).
  change (tshape small_image) with (1 :: [2; 2] ++ [2]) in Hx.
  injection Hx as Hb Hx. change [2; 2; 2] with ([2; 2] ++ [2]) in Hx.
  apply app_inj_tail in Hx as [Hsp Hc].
  exists t, r. split; [exact Ht|]. split; [exact Hr|].
  split; [by rewrite Hs, <- Hb, <- Hsp, <- Hc|].
  apply (Hget 0 1 [0; 1]).
  - rewrite <- Hb, <- Hsp. repeat constructor; lia.
  - rewrite <- Hc. lia.
Defined.

(** X20 at [small_image], nothing printed before. *)
Lemma ToSparseFunction_forward_backward_witness :
  exists (t : SparseConvTensor unit) r,
    ToSparseFunction_forward small_image []
    = ([[PStr "-------To Sparse forward"; PTypeOf small_image; PTensor small_image]],
       Some t) /\
    ToSparseFunction_backward t
      [[PStr "-------To Sparse forward"; PTypeOf small_image; PTensor small_image]]
    = ([[PStr "-------To Sparse forward"; PTypeOf small_image; PTensor small_image];
        [PStr "-------To Sparse backward"]],
       Some (r, None, None, None)) /\
    ToDense_forward t = Some r.
Proof.
  destruct (ToSparseFunction_forward_backward (RB := unit) small_image []
              small_image_dense_input small_image_fits)
    as (t & r & Hf & Hb & Hd & _).
  exists t, r. split; [exact Hf|]. split; [exact Hb | exact Hd].
Defined.

(** X21 at [two_sites]. *)
Lemma dense_then_from_dense_witness :
  exists r,
    dense two_sites false = Some r /\
    from_dense r
    = Some (init (features two_sites) (indices two_sites)
              (spatial_shape two_sites) (batch_size two_sites) None
            : SparseConvTensor unit).
Proof.
  apply (dense_then_from_dense two_sites 2 2 two_sites_wf two_sites_in_bounds
           two_sites_sorted two_sites_rows_active).
  - cbn. repeat constructor; lia.
  - cbn. lia.
Defined.
